(** * TpfaCompressible: the nonlinear pressure iteration of dune/porsol/mimetic

    A shallow embedding of [Dune::TpfaCompressible] (TpfaCompressible.hpp).

    - A C++ [double] is a binary64 value: Rocq's primitive [float], whose
      operations are the IEEE 754 ones (round to nearest even, one NaN).
    - [std::vector<double>] is [list double]; a [PhaseVec] or [CompVec]
      (a Dune [FieldVector]) is a [list double] of the fixed length
      [numPhases] or [numComponents].
    - The template parameters (grid, rock, fluid, wells) and the two member
      objects whose code lives outside this header (the TPFA pressure solver
      and the ISTL linear solver) are records of operations.
    - [solve] threads an explicit [State] holding the in/out arguments, the
      locals of the function and the mutable members, together with a trace
      of the collaborator calls and of the lines printed.
    - [operator[]] past the end of a vector is undefined in the source.  The
      model reads the default value and drops the write there; dereferencing
      the end iterator returned by [std::min_element]/[std::max_element] on
      an empty range is reported as [None] / [Undefined]. *)

From Stdlib Require Import ZArith List Bool Lia Floats.
From Stdlib Require String.
Import ListNotations.

Open Scope float_scope.

(** ** Numbers and the pieces of <algorithm> the header uses *)

Definition double := float.

(** [std::max(a, b)] is [(a < b) ? b : a]. *)
Definition std_max (a b : double) : double := if a <? b then b else a.

(** [std::min(a, b)] is [(b < a) ? b : a]. *)
Definition std_min (a b : double) : double := if b <? a then b else a.

Definition fabs (x : double) : double := abs x.

(** [std::min_element]: the first smallest element of the range. *)
Fixpoint min_element_from (smallest : double) (l : list double) : double :=
  match l with
  | [] => smallest
  | x :: t => min_element_from (if x <? smallest then x else smallest) t
  end.

Definition min_element (l : list double) : option double :=
  match l with
  | [] => None
  | x :: t => Some (min_element_from x t)
  end.

(** [std::max_element]: the first largest element of the range. *)
Fixpoint max_element_from (largest : double) (l : list double) : double :=
  match l with
  | [] => largest
  | x :: t => max_element_from (if largest <? x then x else largest) t
  end.

Definition max_element (l : list double) : option double :=
  match l with
  | [] => None
  | x :: t => Some (max_element_from x t)
  end.

(** Classification of a binary64 value: [std::isfinite], not a NaN, and
    [x == 0.0] (true of both signed zeros). *)
Definition isfinite (x : double) : bool :=
  match Prim2SF x with
  | S754_zero _ | S754_finite _ _ _ => true
  | S754_infinity _ | S754_nan => false
  end.

Definition not_nan (x : double) : bool :=
  match Prim2SF x with
  | S754_nan => false
  | _ => true
  end.

Definition iszero (x : double) : bool := x =? 0.

(** The place of a binary64 value that is not a NaN in the order of [<]:
    three integers compared lexicographically (the class: negative infinity,
    negative, zero, positive, positive infinity; then exponent and mantissa,
    negated for the negative numbers). *)
Record Rank := { r_class : Z; r_exp : Z; r_man : Z }.

Definition sf_rank (f : spec_float) : Rank :=
  match f with
  | S754_zero _ | S754_nan => {| r_class := 0; r_exp := 0; r_man := 0 |}
  | S754_infinity false => {| r_class := 2; r_exp := 0; r_man := 0 |}
  | S754_infinity true => {| r_class := -2; r_exp := 0; r_man := 0 |}
  | S754_finite false m e => {| r_class := 1; r_exp := e; r_man := Z.pos m |}
  | S754_finite true m e => {| r_class := -1; r_exp := - e; r_man := Z.neg m |}
  end.

Definition rank (x : double) : Rank := sf_rank (Prim2SF x).

Definition rank_lt (a b : Rank) : Prop :=
  (r_class a < r_class b
   \/ (r_class a = r_class b
       /\ (r_exp a < r_exp b \/ (r_exp a = r_exp b /\ r_man a < r_man b))))%Z.

Definition rank_le (a b : Rank) : Prop := ~ rank_lt b a.

Definition rank_abs (r : Rank) : Rank :=
  if (r_class r <? 0)%Z
  then {| r_class := - r_class r; r_exp := - r_exp r; r_man := - r_man r |}
  else r.

(** ** Vectors *)

Definition PhaseVec := list double.
Definition CompVec := list double.

(** [v[i]] for a vector of doubles. *)
Definition at_ (v : list double) (i : nat) : double := nth i v 0.

(** [v[i] = f(v[i])]. *)
Fixpoint upd {A : Type} (i : nat) (f : A -> A) (v : list A) : list A :=
  match v, i with
  | [], _ => []
  | x :: t, O => f x :: t
  | x :: t, S j => x :: upd j f t
  end.

(** [std::copy(src.begin(), src.end(), &dst[off])]. *)
Fixpoint write_at {A : Type} (off : nat) (src dst : list A) : list A :=
  match dst, off with
  | [], _ => []
  | d :: dt, S j => d :: write_at j src dt
  | d :: dt, O =>
      match src with
      | [] => dst
      | s :: st => s :: write_at O st dt
      end
  end.

(** [FieldVector::operator*=(double)]. *)
Definition pv_scale (v : PhaseVec) (k : double) : PhaseVec :=
  map (fun x => x * k) v.

(** [FieldVector::operator+=(FieldVector)]. *)
Fixpoint pv_add (u v : PhaseVec) : PhaseVec :=
  match u, v with
  | x :: u', y :: v' => (x + y) :: pv_add u' v'
  | _, _ => u
  end.

(** ** computeFluxPressChanges *)

(** The larger of the absolute values of the smallest and of the largest
    element: [std::max] of [std::fabs] of [std::min_element] and of
    [std::max_element]. *)
Definition max_abs_extremes (v : list double) : option double :=
  match min_element v, max_element v with
  | Some lo, Some hi => Some (std_max (fabs lo) (fabs hi))
  | _, _ => None
  end.

(** The loops [for (i < cur.size()) norm = max(norm, fabs(cur[i] - start[i]))];
    [None] when [start] is shorter than [cur]. *)
Fixpoint change_infnorm (norm : double) (cur start : list double) : option double :=
  match cur, start with
  | [], _ => Some norm
  | x :: cur', y :: start' => change_infnorm (std_max norm (fabs (x - y))) cur' start'
  | _ :: _, [] => None
  end.

Definition computeFluxPressChanges
    (face_flux well_perf_fluxes cell_pressure_scalar
     start_face_flux start_perf_flux start_cell_press : list double)
  : option (double * double) :=
  match max_abs_extremes face_flux with
  | None => None
  | Some max_flux_face =>
    match (match well_perf_fluxes with
           | [] => Some 0
           | _ => max_abs_extremes well_perf_fluxes
           end) with
    | None => None
    | Some max_flux_perf =>
      let max_flux := std_max max_flux_face max_flux_perf in
      match max_abs_extremes cell_pressure_scalar with
      | None => None
      | Some max_press =>
        match change_infnorm 0 face_flux start_face_flux with
        | None => None
        | Some n1 =>
          match change_infnorm n1 well_perf_fluxes start_perf_flux with
          | None => None
          | Some flux_change_infnorm =>
            match change_infnorm 0 cell_pressure_scalar start_cell_press with
            | None => None
            | Some press_change_infnorm =>
                Some (flux_change_infnorm / max_flux,
                      press_change_infnorm / max_press)
            end
          end
        end
      end
    end
  end.

(** The same two quantities as section 4.6 of the specification words them:
    the infinity norm of a vector is the largest absolute value of its
    entries, the flux vectors are the face fluxes followed by the perforation
    fluxes, and the flux change is divided by the larger of the two
    iterations' largest absolute flux. *)
Definition linf (v : list double) : double :=
  fold_left (fun m x => std_max m (fabs x)) v 0.

Fixpoint vsub (a b : list double) : list double :=
  match a, b with
  | x :: a', y :: b' => (x - y) :: vsub a' b'
  | _, _ => []
  end.

Definition spec_flux_rel_difference
    (face_flux well_perf_fluxes start_face_flux start_perf_flux : list double) : double :=
  let cur := face_flux ++ well_perf_fluxes in
  let start := start_face_flux ++ start_perf_flux in
  linf (vsub cur start) / std_max (linf cur) (linf start).

Definition spec_press_rel_difference
    (cell_pressure_scalar start_cell_press : list double) : double :=
  linf (vsub cell_pressure_scalar start_cell_press) / linf cell_pressure_scalar.

(** ** computeWellPerfPressures *)

Section WellPerfPressures.

Variable numPhases : nat.
Variable numWells : nat.
(** Members [perf_wells_] and [perf_sat_]. *)
Variable perf_wells_ : list nat.
Variable perf_sat_ : list PhaseVec.

(** First loop: accumulate [well_flux] and [well_sat] over the perforations
    [perf, perf+1, ..., perf+n-1]. *)
Fixpoint accumulate_wells (well_perf_fluxes : list double) (perf : nat)
    (acc : list PhaseVec * list double) : list PhaseVec * list double :=
  match well_perf_fluxes with
  | [] => acc
  | flux :: rest =>
      let well := nth perf perf_wells_ O in
      let well_flux := upd well (fun f => f + flux) (snd acc) in
      let tmp := pv_scale (nth perf perf_sat_ []) flux in
      let well_sat := upd well (fun s => pv_add s tmp) (fst acc) in
      accumulate_wells rest (S perf) (well_sat, well_flux)
  end.

(** Second loop: [well_sat[well] *= 1.0/well_flux[well]]. *)
Fixpoint average_wells (well_sat : list PhaseVec) (well_flux : list double)
  : list PhaseVec :=
  match well_sat, well_flux with
  | s :: ss, f :: fs => pv_scale s (1 / f) :: average_wells ss fs
  | _, _ => well_sat
  end.

Definition well_sat_of (well_perf_fluxes : list double) : list PhaseVec :=
  let acc := accumulate_wells well_perf_fluxes O
               (repeat (repeat 0 numPhases) numWells, repeat 0 numWells) in
  average_wells (fst acc) (snd acc).

(** Inner loop of the third loop: add [sat[phase]*gpot[numPhases*perf+phase]]
    for [phase = 0 .. numPhases-1]. *)
Definition add_potentials (p0 : double) (sat : PhaseVec)
    (wellperf_gpot : list double) (perf : nat) : double :=
  fold_left
    (fun p phase => p + at_ sat phase * at_ wellperf_gpot (numPhases * perf + phase))
    (seq 0 numPhases) p0.

Definition perf_pressure_of (well_sat : list PhaseVec)
    (well_bhp wellperf_gpot : list double) (perf : nat) : double :=
  let well := nth perf perf_wells_ O in
  add_potentials (at_ well_bhp well) (nth well well_sat []) wellperf_gpot perf.

(** The whole function; [well_perf_pressures] is written in place for
    [perf < well_perf_fluxes.size()]. *)
Definition computeWellPerfPressures
    (well_perf_fluxes well_bhp wellperf_gpot well_perf_pressures : list double)
  : list double :=
  let well_sat := well_sat_of well_perf_fluxes in
  fold_left
    (fun out perf =>
       upd perf (fun _ => perf_pressure_of well_sat well_bhp wellperf_gpot perf) out)
    (seq 0 (length well_perf_fluxes)) well_perf_pressures.

End WellPerfPressures.

(** The two per-well sums in closed form: over the perforations of [well],
    in the order of the perforations, the flux and the saturation times the
    flux; and the well's flux-weighted average saturation made of them. *)
Definition well_flux_sum (perf_wells_ : list nat) (well_perf_fluxes : list double)
    (well : nat) : double :=
  fold_left
    (fun sum pf => if Nat.eqb (nth (fst pf) perf_wells_ O) well
                   then sum + snd pf else sum)
    (combine (seq 0 (length well_perf_fluxes)) well_perf_fluxes) 0.

Definition well_sat_sum (numPhases : nat) (perf_wells_ : list nat)
    (perf_sat_ : list PhaseVec) (well_perf_fluxes : list double)
    (well : nat) : PhaseVec :=
  fold_left
    (fun sum pf => if Nat.eqb (nth (fst pf) perf_wells_ O) well
                   then pv_add sum (pv_scale (nth (fst pf) perf_sat_ []) (snd pf))
                   else sum)
    (combine (seq 0 (length well_perf_fluxes)) well_perf_fluxes)
    (repeat 0 numPhases).

Definition well_average_sat (numPhases : nat) (perf_wells_ : list nat)
    (perf_sat_ : list PhaseVec) (well_perf_fluxes : list double)
    (well : nat) : PhaseVec :=
  pv_scale (well_sat_sum numPhases perf_wells_ perf_sat_ well_perf_fluxes well)
           (1 / well_flux_sum perf_wells_ well_perf_fluxes well).

(** Properties of vectors of doubles used in the statements below. *)
Definition all_not_nan (l : list double) : Prop :=
  Forall (fun x => not_nan x = true) l.

Definition all_finite (l : list double) : Prop :=
  Forall (fun x => isfinite x = true) l.

(** [r] is the largest absolute value of the entries of [l]. *)
Definition abs_max_of (r : double) (l : list double) : Prop :=
  (exists z, In z l /\ r = abs z)
  /\ forall y, In y l -> rank_le (rank (abs y)) (rank r).

(** ** The collaborators *)

Inductive WellType := Injector | Producer.

Definition WellType_eqb (a b : WellType) : bool :=
  match a, b with
  | Injector, Injector | Producer, Producer => true
  | _, _ => false
  end.

(** [WellsInterface]: what the header asks of the wells object. *)
Record WellsInterface := {
  numWells : nat;
  numPerforations : nat -> nat;
  wellCell : nat -> nat -> nat;
  type : nat -> WellType;
  injectionMixture : nat -> CompVec;
  referenceDepth : nat -> double;
  perforationPressure : nat -> double
}.

(** [GridInterface] and [RockInterface]. *)
Record GridInterface := {
  numCells : nat;
  numFaces : nat;
  cellCentroid : nat -> list double;
  cellVolume : nat -> double
}.

Record RockInterface := {
  porosity : nat -> double
}.

(** [FluidInterface::FluidState]. *)
Record FluidState := {
  saturation_ : PhaseVec;
  mobility_ : PhaseVec;
  phase_to_comp_ : list double
}.

(** [FluidInterface::FluidData], the type of the member [fp_]. *)
Record FluidData := {
  totcompr : list double;
  voldiscr : list double;
  relvoldiscr : list double;
  cellA : list double;
  faceA : list double;
  phasemobf : list double;
  phasemobf_deriv : list double;
  gravcapf : list double;
  expjacterm : list double;
  totphasevol_density : list double
}.

(** [FluidInterface]; [fd_compute] is [FluidData::compute], called on [fp_]
    with the grid, rock, fluid and gravity captured by [setup]. *)
Record FluidInterface := {
  numPhases : nat;
  numComponents : nat;
  Liquid : nat;
  computeState : PhaseVec -> CompVec -> FluidState;
  phaseDensities : list double -> PhaseVec;
  surfaceDensities : list double;
  fd_compute : FluidData -> list PhaseVec -> list PhaseVec -> list CompVec ->
               CompVec -> double -> FluidData
}.

Inductive FlowBCTypes := FBC_UNSET | FBC_PRESSURE | FBC_FLUX.

(** [PressureSolver::LinearSystem]: a compressed-row matrix, right-hand side
    and solution.  In the source [sa], [b] and [x] point into the pressure
    solver's own storage. *)
Record LinearSystem := {
  ls_n : nat;
  ls_nnz : nat;
  ls_ia : list nat;
  ls_ja : list nat;
  ls_sa : list double;
  ls_b : list double;
  ls_x : list double
}.

(** The arguments of [PressureSolver::assemble], in the order of the call. *)
Record AssembleArgs := {
  aa_src : list double;
  aa_bctypes : list FlowBCTypes;
  aa_bcvalues : list double;
  aa_dt : double;
  aa_totcompr : list double;
  aa_voldiscr : list double;
  aa_cellA : list double;
  aa_faceA : list double;
  aa_perfA : list double;
  aa_phasemobf : list double;
  aa_perfmob : list double;
  aa_cell_pressure : list double;
  aa_gravcapf : list double;
  aa_perf_gpot : list double;
  aa_surface_densities : list double
}.

(** What [computePressuresAndFluxes] hands back through its five reference
    arguments. *)
Record PressuresAndFluxes := {
  pf_cell_pressure : list double;
  pf_face_pressure : list double;
  pf_face_flux : list double;
  pf_well_bhp : list double;
  pf_well_perf_fluxes : list double
}.

(** [TPFACompressiblePressureSolver] over its state [PS].  [poke_sa] and
    [poke_x] are the writes the header makes through the [sa] and [x]
    pointers of a [LinearSystem]. *)
Record PressureSolver (PS : Type) := {
  assemble : AssembleArgs -> PS -> PS;
  linearSystem : PS -> LinearSystem;
  poke_sa : list double -> PS -> PS;
  poke_x : list double -> PS -> PS;
  computePressuresAndFluxes : PS -> PressuresAndFluxes
}.
Arguments assemble {PS}.
Arguments linearSystem {PS}.
Arguments poke_sa {PS}.
Arguments poke_x {PS}.
Arguments computePressuresAndFluxes {PS}.

(** [LinearSolverISTL::LinearSolverResults] and [LinearSolverISTL::solve]
    (arguments [n nnz ia ja sa rhs x], giving the results and the solution
    left in [x]). *)
Record LinearSolverResults := {
  converged : bool;
  iterations : nat;
  reduction : double
}.

Definition LinearSolver :=
  nat -> nat -> list nat -> list nat -> list double -> list double -> list double ->
  LinearSolverResults * list double.

(** Run-time parameters set by [init]. *)
Record Config := {
  inflow_mixture_ : CompVec;
  flux_rel_tol_ : double;
  press_rel_tol_ : double;
  max_num_iter_ : Z;
  max_relative_voldiscr_ : double;
  relax_time_voldiscr_ : double;
  relax_weight_pressure_iteration_ : double;
  experimental_jacobian_ : bool;
  output_residual_ : bool
}.

(** ** What [solve] returns, and what it does on the way *)

Inductive ReturnCode := SolveOk | VolumeDiscrepancyTooLarge | FailedToConverge.

(** [Thrown] is the exception of [THROW]; [Undefined] is the dereference of
    an end iterator. *)
Inductive Outcome :=
| Returned (rc : ReturnCode)
| Thrown
| Undefined.

(** Collaborator calls and printed lines, oldest first. *)
Inductive Event :=
| CallFluidCompute
| CallAssemble
| CallLinearSolve (ok : bool)
| WriteResidualFile (iter : nat) (res : list double)
| CallComputePressuresAndFluxes
| PrintVoldiscrTooLarge (rel_voldiscr : double)
| PrintHeader
| PrintRow (iter : nat) (flux_rel_difference press_rel_difference : double)
| PrintConverged (num_iter : nat).

Definition is_linear_work (e : Event) : bool :=
  match e with
  | CallAssemble | CallLinearSolve _ => true
  | _ => false
  end.

Definition is_fluid_compute (e : Event) : bool :=
  match e with
  | CallFluidCompute => true
  | _ => false
  end.

(** The number of loop bodies entered: each one starts with exactly one call
    of [computeFluidProps]. *)
Definition iterations_performed (tr : list Event) : nat :=
  length (filter is_fluid_compute tr).

(** ** The driver *)

(** A driver after [init] and [setup], together with the arguments [solve]
    only reads: the collaborators, the run-time parameters, the members built
    by [setup] and not changed afterwards, and [cell_z], [src] and [dt]. *)
Record Env := {
  env_PS : Type;
  env_psolver : PressureSolver env_PS;
  env_linsolver : LinearSolver;
  env_grid : GridInterface;
  env_rock : RockInterface;
  env_fluid : FluidInterface;
  env_wells : WellsInterface;
  env_cfg : Config;
  env_gravity : list double;
  env_bctypes : list FlowBCTypes;
  env_bcvalues : list double;
  env_perf_wells : list nat;
  env_perf_cells : list nat;
  env_cell_z : list CompVec;
  env_src : list double;
  env_dt : double
}.

Section Driver.

Variable E : Env.

Local Abbreviation PS := (env_PS E).
Local Abbreviation psolver := (env_psolver E).
Local Abbreviation linsolver_ := (env_linsolver E).
Local Abbreviation grid := (env_grid E).
Local Abbreviation rock := (env_rock E).
Local Abbreviation fluid := (env_fluid E).
Local Abbreviation wells := (env_wells E).
Local Abbreviation cfg := (env_cfg E).
Local Abbreviation gravity_ := (env_gravity E).
Local Abbreviation bctypes_ := (env_bctypes E).
Local Abbreviation bcvalues_ := (env_bcvalues E).
Local Abbreviation perf_wells_ := (env_perf_wells E).
Local Abbreviation perf_cells_ := (env_perf_cells E).
Local Abbreviation cell_z := (env_cell_z E).
Local Abbreviation src := (env_src E).
Local Abbreviation dt := (env_dt E).
Local Abbreviation np := (numPhases (env_fluid E)).
Local Abbreviation nc := (numComponents (env_fluid E)).

(** The mutable members, the in/out arguments and the locals of [solve]. *)
Record State := {
  (* arguments *)
  cell_pressure : list PhaseVec;
  face_pressure : list PhaseVec;
  face_flux : list double;
  well_perf_pressures : list double;
  well_perf_fluxes : list double;
  (* locals *)
  cell_pressure_scalar : list double;
  initial_voldiscr : list double;
  face_pressure_scalar : list double;
  start_face_flux : list double;
  start_face_pressure : list double;
  start_cell_press : list double;
  well_bhp : list double;
  start_perf_flux : list double;
  (* members *)
  fp_ : FluidData;
  psolver_ : PS;
  perf_pressure_ : list double;
  perf_A_ : list double;
  perf_mob_ : list double;
  perf_sat_ : list PhaseVec;
  perf_gpot_ : list double;
  (* observable behaviour *)
  trace : list Event
}.

(** *** setup: the perforation bookkeeping *)

Definition setup_perf_wells : list nat :=
  flat_map (fun well => repeat well (numPerforations wells well))
           (seq 0 (numWells wells)).

Definition setup_perf_cells : list nat :=
  flat_map (fun well => map (wellCell wells well)
                            (seq 0 (numPerforations wells well)))
           (seq 0 (numWells wells)).

Definition setup_perf_pressure : list double :=
  map (perforationPressure wells) setup_perf_cells.

(** *** computeFluidProps *)

(** One pass of the inner loop body, for perforation [perf] of [well];
    the state is [(perf_A_, perf_mob_, perf_sat_, perfcount)]. *)
Definition perf_props (perf_pressure : list double)
    (phase_pressure : list PhaseVec) (well perf : nat)
    (st : list double * list double * list PhaseVec * nat)
  : list double * list double * list PhaseVec * nat :=
  let '(A, mob, sat, perfcount) := st in
  let inj := WellType_eqb (type wells well) Injector in
  let cell := wellCell wells well perf in
  let well_pressure : PhaseVec :=
    if inj then repeat (at_ perf_pressure perf) np else nth cell phase_pressure [] in
  let well_mixture : CompVec :=
    if inj then injectionMixture wells cell else nth cell cell_z [] in
  let state := computeState fluid well_pressure well_mixture in
  (write_at (perfcount * np * nc) (firstn (nc * np) (phase_to_comp_ state)) A,
   write_at (perfcount * np) (mobility_ state) mob,
   upd perfcount (fun _ => saturation_ state) sat,
   S perfcount).

Definition well_props (perf_pressure : list double)
    (phase_pressure : list PhaseVec)
    (st : list double * list double * list PhaseVec * nat) (well : nat) :=
  fold_left (fun st perf => perf_props perf_pressure phase_pressure well perf st)
            (seq 0 (numPerforations wells well)) st.

Definition all_perf_props (perf_pressure : list double)
    (phase_pressure : list PhaseVec)
    (A mob : list double) (sat : list PhaseVec) :=
  fold_left (well_props perf_pressure phase_pressure)
            (seq 0 (numWells wells)) (A, mob, sat, O).

(** The whole function.  (The closing [ASSERT] that the running count equals
    [perf_wells_.size()] is a debug check and not part of the model.) *)
Definition computeFluidProps (s : State) : State :=
  let fp := fd_compute fluid (fp_ s) (cell_pressure s) (face_pressure s) cell_z
                       (inflow_mixture_ cfg) dt in
  let '(A, mob, sat, _) :=
    all_perf_props (perf_pressure_ s) (cell_pressure s)
                   (perf_A_ s) (perf_mob_ s) (perf_sat_ s) in
  {| cell_pressure := cell_pressure s;
     face_pressure := face_pressure s;
     face_flux := face_flux s;
     well_perf_pressures := well_perf_pressures s;
     well_perf_fluxes := well_perf_fluxes s;
     cell_pressure_scalar := cell_pressure_scalar s;
     initial_voldiscr := initial_voldiscr s;
     face_pressure_scalar := face_pressure_scalar s;
     start_face_flux := start_face_flux s;
     start_face_pressure := start_face_pressure s;
     start_cell_press := start_cell_press s;
     well_bhp := well_bhp s;
     start_perf_flux := start_perf_flux s;
     fp_ := fp;
     psolver_ := psolver_ s;
     perf_pressure_ := perf_pressure_ s;
     perf_A_ := A;
     perf_mob_ := mob;
     perf_sat_ := sat;
     perf_gpot_ := perf_gpot_ s;
     trace := trace s ++ [CallFluidCompute] |}.

(** *** computeWellPotentials *)

Definition perf_potentials (perf_A : list double) (perf : nat) : list double :=
  let well := nth perf perf_wells_ O in
  let cell := nth perf perf_cells_ O in
  let pos := cellCentroid grid cell in
  let depth_delta := at_ pos 2 - referenceDepth wells well in
  let gh := at_ gravity_ 2 * depth_delta in
  let At := firstn (np * nc) (skipn (perf * np * nc) perf_A) in
  let rho := phaseDensities fluid At in
  map (fun phase => at_ rho phase * gh) (seq 0 np).

(** The vector is resized to [num_perf*numPhases] and every entry is then
    assigned, perforation by perforation.  (The [ASSERT] that gravity has no
    x or y component is a debug check and not part of the model.) *)
Definition computeWellPotentials (perf_A : list double) : list double :=
  flat_map (perf_potentials perf_A) (seq 0 (length perf_cells_)).

(** *** computeLinearResidual and computeResidualJacobian *)

Definition residual_row (s : LinearSystem) (row : nat) : double :=
  fold_left (fun r i => r + at_ (ls_sa s) i * at_ (ls_x s) (nth i (ls_ja s) O))
            (seq (nth row (ls_ia s) O)
                 (nth (S row) (ls_ia s) O - nth row (ls_ia s) O))
            (- at_ (ls_b s) row).

Definition computeLinearResidual (s : LinearSystem) : list double :=
  map (residual_row s) (seq 0 (ls_n s)).

Definition with_x (s : LinearSystem) (x : list double) : LinearSystem :=
  {| ls_n := ls_n s; ls_nnz := ls_nnz s; ls_ia := ls_ia s; ls_ja := ls_ja s;
     ls_sa := ls_sa s; ls_b := ls_b s; ls_x := x |}.

Definition with_sa (s : LinearSystem) (sa : list double) : LinearSystem :=
  {| ls_n := ls_n s; ls_nnz := ls_nnz s; ls_ia := ls_ia s; ls_ja := ls_ja s;
     ls_sa := sa; ls_b := ls_b s; ls_x := ls_x s |}.

Definition assemble_args (s : State) (cell_pressure_scalar_initial : list double)
  : AssembleArgs :=
  {| aa_src := src;
     aa_bctypes := bctypes_;
     aa_bcvalues := bcvalues_;
     aa_dt := dt;
     aa_totcompr := totcompr (fp_ s);
     aa_voldiscr := initial_voldiscr s;
     aa_cellA := cellA (fp_ s);
     aa_faceA := faceA (fp_ s);
     aa_perfA := perf_A_ s;
     aa_phasemobf := phasemobf (fp_ s);
     aa_perfmob := perf_mob_ s;
     aa_cell_pressure := cell_pressure_scalar_initial;
     aa_gravcapf := gravcapf (fp_ s);
     aa_perf_gpot := perf_gpot_ s;
     aa_surface_densities := surfaceDensities fluid |}.

(** The correction of the residual of one cell. *)
Definition residual_correction (fp : FluidData)
    (cell_pressure_scalar cell_pressure_scalar_initial : list double)
    (cell : nat) : double :=
  let dres := at_ (totcompr fp) cell
              * (at_ cell_pressure_scalar cell - at_ cell_pressure_scalar_initial cell) in
  let dres := dres - (1 - at_ (totphasevol_density fp) cell) in
  dres * (cellVolume grid cell * porosity rock cell / dt).

(** The correction of the diagonal entries of the row of one cell. *)
Definition jacobian_row (fp : FluidData) (ia ja : list nat)
    (sa : list double) (cell : nat) : list double :=
  fold_left
    (fun sa i =>
       if Nat.eqb (nth i ja O) cell then
         upd i (fun a =>
                  (a - at_ (totcompr fp) cell * cellVolume grid cell
                         * porosity rock cell / dt)
                  + at_ (expjacterm fp) cell * cellVolume grid cell
                    * porosity rock cell / dt) sa
       else sa)
    (seq (nth cell ia O) (nth (S cell) ia O - nth cell ia O)) sa.

(** Gives the pressure solver after assembly, the corrected system and the
    residual. *)
Definition computeResidualJacobian (s : State)
    (cell_pressure_scalar_initial : list double)
  : PS * LinearSystem * list double :=
  let ps := assemble psolver (assemble_args s cell_pressure_scalar_initial)
                     (psolver_ s) in
  let linsys := linearSystem psolver ps in
  let num_cells := numCells grid in
  let x := write_at num_cells (well_bhp s)
             (write_at 0 (cell_pressure_scalar s) (ls_x linsys)) in
  let linsys := with_x linsys x in
  let res := computeLinearResidual linsys in
  let res := fold_left
               (fun res cell =>
                  upd cell (fun r => r - residual_correction (fp_ s)
                                           (cell_pressure_scalar s)
                                           cell_pressure_scalar_initial cell) res)
               (seq 0 num_cells) res in
  let sa := fold_left (jacobian_row (fp_ s) (ls_ia linsys) (ls_ja linsys))
                      (seq 0 num_cells) (ls_sa linsys) in
  (poke_sa psolver sa (poke_x psolver x ps), with_sa linsys sa, res).

(** *** solve *)

(** One pass through the loop body either falls through to the next
    iteration or leaves [solve]. *)
Inductive Step :=
| Continue (s : State)
| Stop (o : Outcome) (s : State).

Definition bind (m : Step) (k : State -> Step) : Step :=
  match m with
  | Continue s => k s
  | Stop o s => Stop o s
  end.

Definition log (evs : list Event) (s : State) : State :=
  {| cell_pressure := cell_pressure s;
     face_pressure := face_pressure s;
     face_flux := face_flux s;
     well_perf_pressures := well_perf_pressures s;
     well_perf_fluxes := well_perf_fluxes s;
     cell_pressure_scalar := cell_pressure_scalar s;
     initial_voldiscr := initial_voldiscr s;
     face_pressure_scalar := face_pressure_scalar s;
     start_face_flux := start_face_flux s;
     start_face_pressure := start_face_pressure s;
     start_cell_press := start_cell_press s;
     well_bhp := well_bhp s;
     start_perf_flux := start_perf_flux s;
     fp_ := fp_ s;
     psolver_ := psolver_ s;
     perf_pressure_ := perf_pressure_ s;
     perf_A_ := perf_A_ s;
     perf_mob_ := perf_mob_ s;
     perf_sat_ := perf_sat_ s;
     perf_gpot_ := perf_gpot_ s;
     trace := trace s ++ evs |}.

Definition set_psolver (ps : PS) (s : State) : State :=
  {| cell_pressure := cell_pressure s;
     face_pressure := face_pressure s;
     face_flux := face_flux s;
     well_perf_pressures := well_perf_pressures s;
     well_perf_fluxes := well_perf_fluxes s;
     cell_pressure_scalar := cell_pressure_scalar s;
     initial_voldiscr := initial_voldiscr s;
     face_pressure_scalar := face_pressure_scalar s;
     start_face_flux := start_face_flux s;
     start_face_pressure := start_face_pressure s;
     start_cell_press := start_cell_press s;
     well_bhp := well_bhp s;
     start_perf_flux := start_perf_flux s;
     fp_ := fp_ s;
     psolver_ := ps;
     perf_pressure_ := perf_pressure_ s;
     perf_A_ := perf_A_ s;
     perf_mob_ := perf_mob_ s;
     perf_sat_ := perf_sat_ s;
     perf_gpot_ := perf_gpot_ s;
     trace := trace s |}.

(** The four copies at the top of the loop body. *)
Definition snapshot (s : State) : State :=
  {| cell_pressure := cell_pressure s;
     face_pressure := face_pressure s;
     face_flux := face_flux s;
     well_perf_pressures := well_perf_pressures s;
     well_perf_fluxes := well_perf_fluxes s;
     cell_pressure_scalar := cell_pressure_scalar s;
     initial_voldiscr := initial_voldiscr s;
     face_pressure_scalar := face_pressure_scalar s;
     start_face_flux := face_flux s;
     start_face_pressure := face_pressure_scalar s;
     start_cell_press := cell_pressure_scalar s;
     well_bhp := well_bhp s;
     start_perf_flux := well_perf_fluxes s;
     fp_ := fp_ s;
     psolver_ := psolver_ s;
     perf_pressure_ := perf_pressure_ s;
     perf_A_ := perf_A_ s;
     perf_mob_ := perf_mob_ s;
     perf_sat_ := perf_sat_ s;
     perf_gpot_ := perf_gpot_ s;
     trace := trace s |}.

Definition set_first_iteration (voldiscr0 gpot : list double) (s : State) : State :=
  {| cell_pressure := cell_pressure s;
     face_pressure := face_pressure s;
     face_flux := face_flux s;
     well_perf_pressures := well_perf_pressures s;
     well_perf_fluxes := well_perf_fluxes s;
     cell_pressure_scalar := cell_pressure_scalar s;
     initial_voldiscr := voldiscr0;
     face_pressure_scalar := face_pressure_scalar s;
     start_face_flux := start_face_flux s;
     start_face_pressure := start_face_pressure s;
     start_cell_press := start_cell_press s;
     well_bhp := well_bhp s;
     start_perf_flux := start_perf_flux s;
     fp_ := fp_ s;
     psolver_ := psolver_ s;
     perf_pressure_ := perf_pressure_ s;
     perf_A_ := perf_A_ s;
     perf_mob_ := perf_mob_ s;
     perf_sat_ := perf_sat_ s;
     perf_gpot_ := gpot;
     trace := trace s |}.

(** "Initialization for the first iteration only." *)
Definition first_iteration (iter : nat) (s : State) : Step :=
  match iter with
  | S _ => Continue s
  | O =>
    let voldiscr0 := voldiscr (fp_ s) in
    match max_element (relvoldiscr (fp_ s)) with
    | None => Stop Undefined (set_first_iteration voldiscr0 (perf_gpot_ s) s)
    | Some rel_voldiscr =>
      if max_relative_voldiscr_ cfg <? rel_voldiscr then
        Stop (Returned VolumeDiscrepancyTooLarge)
             (log [PrintVoldiscrTooLarge rel_voldiscr]
                  (set_first_iteration voldiscr0 (perf_gpot_ s) s))
      else
        let voldiscr0 :=
          if 0 <? relax_time_voldiscr_ cfg then
            let relax := std_min 1 (dt / relax_time_voldiscr_ cfg) in
            map (fun v => relax * v) voldiscr0
          else voldiscr0 in
        Continue (set_first_iteration voldiscr0 (computeWellPotentials (perf_A_ s)) s)
    end
  end.

(** The solution [p - dp] the quasi-Newton path leaves in [x]. *)
Definition newton_update (num_cells : nat) (s : State) (x : list double)
  : list double :=
  let x := fold_left
             (fun x cell =>
                upd cell (fun dp => at_ (cell_pressure_scalar s) cell - dp) x)
             (seq 0 num_cells) x in
  fold_left
    (fun x well =>
       upd (num_cells + well) (fun dp => at_ (well_bhp s) well - dp) x)
    (seq 0 (numWells wells)) x.

(** The [if (experimental_jacobian_) ... else ...] block. *)
Definition linearize (iter : nat) (cell_pressure_scalar_initial : list double)
    (s : State) : Step :=
  if experimental_jacobian_ cfg then
    let '(ps, sys, res) := computeResidualJacobian s cell_pressure_scalar_initial in
    let s := log [CallAssemble] (set_psolver ps s) in
    let s := if output_residual_ cfg then log [WriteResidualFile iter res] s else s in
    let '(result, x) :=
      linsolver_ (ls_n sys) (ls_nnz sys) (ls_ia sys) (ls_ja sys) (ls_sa sys)
                 res (ls_x sys) in
    let s := log [CallLinearSolve (converged result)]
                 (set_psolver (poke_x psolver x (psolver_ s)) s) in
    if negb (converged result) then Stop Thrown s
    else
      let x := newton_update (length cell_z) s x in
      Continue (set_psolver (poke_x psolver x (psolver_ s)) s)
  else
    let ps := assemble psolver (assemble_args s cell_pressure_scalar_initial)
                       (psolver_ s) in
    let sys := linearSystem psolver ps in
    let '(res, x) :=
      linsolver_ (ls_n sys) (ls_nnz sys) (ls_ia sys) (ls_ja sys) (ls_sa sys)
                 (ls_b sys) (ls_x sys) in
    let s := log [CallAssemble; CallLinearSolve (converged res)]
                 (set_psolver (poke_x psolver x ps) s) in
    if negb (converged res) then Stop Thrown s else Continue s.

(** "Get pressures and face fluxes." *)
Definition back_substitute (s : State) : State :=
  let r := computePressuresAndFluxes psolver (psolver_ s) in
  {| cell_pressure := cell_pressure s;
     face_pressure := face_pressure s;
     face_flux := pf_face_flux r;
     well_perf_pressures := well_perf_pressures s;
     well_perf_fluxes := pf_well_perf_fluxes r;
     cell_pressure_scalar := pf_cell_pressure r;
     initial_voldiscr := initial_voldiscr s;
     face_pressure_scalar := pf_face_pressure r;
     start_face_flux := start_face_flux s;
     start_face_pressure := start_face_pressure s;
     start_cell_press := start_cell_press s;
     well_bhp := pf_well_bhp r;
     start_perf_flux := start_perf_flux s;
     fp_ := fp_ s;
     psolver_ := psolver_ s;
     perf_pressure_ := perf_pressure_ s;
     perf_A_ := perf_A_ s;
     perf_mob_ := perf_mob_ s;
     perf_sat_ := perf_sat_ s;
     perf_gpot_ := perf_gpot_ s;
     trace := trace s ++ [CallComputePressuresAndFluxes] |}.

(** [for (i < n) cur[i] = ww*cur[i] + (1.0-ww)*start[i]]. *)
Definition relax_vector (ww : double) (n : nat) (cur start : list double)
  : list double :=
  fold_left (fun v i => upd i (fun x => ww * x + (1 - ww) * at_ start i) v)
            (seq 0 n) cur.

(** "Relaxation". *)
Definition relaxation (iter : nat) (s : State) : State :=
  if negb (relax_weight_pressure_iteration_ cfg =? 1) then
    let ww := relax_weight_pressure_iteration_ cfg in
    let faces_too := match iter with O => false | S _ => true end in
    {| cell_pressure := cell_pressure s;
       face_pressure := face_pressure s;
       face_flux :=
         if faces_too
         then relax_vector ww (numFaces grid) (face_flux s) (start_face_flux s)
         else face_flux s;
       well_perf_pressures := well_perf_pressures s;
       well_perf_fluxes := well_perf_fluxes s;
       cell_pressure_scalar :=
         relax_vector ww (length cell_z) (cell_pressure_scalar s) (start_cell_press s);
       initial_voldiscr := initial_voldiscr s;
       face_pressure_scalar :=
         if faces_too
         then relax_vector ww (numFaces grid) (face_pressure_scalar s)
                           (start_face_pressure s)
         else face_pressure_scalar s;
       start_face_flux := start_face_flux s;
       start_face_pressure := start_face_pressure s;
       start_cell_press := start_cell_press s;
       well_bhp := well_bhp s;
       start_perf_flux := start_perf_flux s;
       fp_ := fp_ s;
       psolver_ := psolver_ s;
       perf_pressure_ := perf_pressure_ s;
       perf_A_ := perf_A_ s;
       perf_mob_ := perf_mob_ s;
       perf_sat_ := perf_sat_ s;
       perf_gpot_ := perf_gpot_ s;
       trace := trace s |}
  else s.

(** [for (i < n) phase[i] = scalar[i]]: a [PhaseVec] assigned a scalar has
    it in every component. *)
Definition to_phase_pressures (n : nat) (scalar : list double)
    (phase : list PhaseVec) : list PhaseVec :=
  fold_left (fun v i => upd i (fun _ => repeat (at_ scalar i) np) v) (seq 0 n) phase.

(** "Copy to phase pressures", "Compute well_perf_pressures" and "Update
    internal well pressure vector". *)
Definition publish (s : State) : State :=
  let wpp := computeWellPerfPressures np (numWells wells) perf_wells_ (perf_sat_ s)
               (well_perf_fluxes s) (well_bhp s) (perf_gpot_ s)
               (well_perf_pressures s) in
  {| cell_pressure :=
       to_phase_pressures (length cell_z) (cell_pressure_scalar s) (cell_pressure s);
     face_pressure :=
       to_phase_pressures (numFaces grid) (face_pressure_scalar s) (face_pressure s);
     face_flux := face_flux s;
     well_perf_pressures := wpp;
     well_perf_fluxes := well_perf_fluxes s;
     cell_pressure_scalar := cell_pressure_scalar s;
     initial_voldiscr := initial_voldiscr s;
     face_pressure_scalar := face_pressure_scalar s;
     start_face_flux := start_face_flux s;
     start_face_pressure := start_face_pressure s;
     start_cell_press := start_cell_press s;
     well_bhp := well_bhp s;
     start_perf_flux := start_perf_flux s;
     fp_ := fp_ s;
     psolver_ := psolver_ s;
     perf_pressure_ := wpp;
     perf_A_ := perf_A_ s;
     perf_mob_ := perf_mob_ s;
     perf_sat_ := perf_sat_ s;
     perf_gpot_ := perf_gpot_ s;
     trace := trace s |}.

(** "Compute relative changes for pressure and flux" and "Test for
    convergence". *)
Definition convergence_test (iter : nat) (s : State) : Step :=
  match computeFluxPressChanges (face_flux s) (well_perf_fluxes s)
          (cell_pressure_scalar s)
          (start_face_flux s) (start_perf_flux s) (start_cell_press s) with
  | None => Stop Undefined s
  | Some (flux_rel_difference, press_rel_difference) =>
    let s := log ((match iter with O => [PrintHeader] | S _ => [] end)
                  ++ [PrintRow iter flux_rel_difference press_rel_difference]) s in
    if (flux_rel_difference <? flux_rel_tol_ cfg)
       || (press_rel_difference <? press_rel_tol_ cfg)
    then Stop (Returned SolveOk) (log [PrintConverged (iter + 1)] s)
    else Continue s
  end.

(** The loop body. *)
Definition iteration (cell_pressure_scalar_initial : list double)
    (iter : nat) (s : State) : Step :=
  bind (first_iteration iter (computeFluidProps (snapshot s))) (fun s =>
  bind (linearize iter cell_pressure_scalar_initial s) (fun s =>
  convergence_test iter (publish (relaxation iter (back_substitute s))))).

(** [for (int iter = 0; iter < max_num_iter_; ++iter)] with [n] passes
    left, then [return FailedToConverge]. *)
Fixpoint main_loop (cell_pressure_scalar_initial : list double)
    (n iter : nat) (s : State) : Outcome * State :=
  match n with
  | O => (Returned FailedToConverge, s)
  | S n' =>
      match iteration cell_pressure_scalar_initial iter s with
      | Stop o s' => (o, s')
      | Continue s' => main_loop cell_pressure_scalar_initial n' (S iter) s'
      end
  end.

(** The mutable members as [solve] finds them. *)
Record Members := {
  m_fp : FluidData;
  m_psolver : PS;
  m_perf_A : list double;
  m_perf_mob : list double;
  m_perf_sat : list PhaseVec;
  m_perf_gpot : list double
}.

Definition cell_pressure_scalar_initial_of (cell_pressure0 : list PhaseVec)
  : list double :=
  map (fun cell => at_ (nth cell cell_pressure0 []) (Liquid fluid))
      (seq 0 (length cell_z)).

(** The state on entry to the loop. *)
Definition initial_state (m : Members)
    (cell_pressure0 face_pressure0 : list PhaseVec)
    (well_perf_pressures0 well_perf_fluxes0 : list double) : State :=
  {| cell_pressure := cell_pressure0;
     face_pressure := face_pressure0;
     face_flux := repeat 0 (numFaces grid);
     well_perf_pressures := well_perf_pressures0;
     well_perf_fluxes := well_perf_fluxes0;
     cell_pressure_scalar := cell_pressure_scalar_initial_of cell_pressure0;
     initial_voldiscr := [];
     face_pressure_scalar := repeat 0 (numFaces grid);
     start_face_flux := [];
     start_face_pressure := [];
     start_cell_press := [];
     well_bhp := repeat 0 (numWells wells);
     start_perf_flux := [];
     fp_ := m_fp m;
     psolver_ := m_psolver m;
     perf_pressure_ := well_perf_pressures0;
     perf_A_ := m_perf_A m;
     perf_mob_ := m_perf_mob m;
     perf_sat_ := m_perf_sat m;
     perf_gpot_ := m_perf_gpot m;
     trace := [] |}.

Definition solve (m : Members)
    (cell_pressure0 face_pressure0 : list PhaseVec)
    (well_perf_pressures0 well_perf_fluxes0 : list double) : Outcome * State :=
  main_loop (cell_pressure_scalar_initial_of cell_pressure0)
            (Z.to_nat (max_num_iter_ cfg)) O
            (initial_state m cell_pressure0 face_pressure0
                           well_perf_pressures0 well_perf_fluxes0).

(** *** The unrelaxed path

    The loop of [solve] with the "Relaxation" block left out: the reference
    the specification compares the relaxed iteration with. *)

Definition iteration_unrelaxed (cell_pressure_scalar_initial : list double)
    (iter : nat) (s : State) : Step :=
  bind (first_iteration iter (computeFluidProps (snapshot s))) (fun s =>
  bind (linearize iter cell_pressure_scalar_initial s) (fun s =>
  convergence_test iter (publish (back_substitute s)))).

Fixpoint main_loop_unrelaxed (cell_pressure_scalar_initial : list double)
    (n iter : nat) (s : State) : Outcome * State :=
  match n with
  | O => (Returned FailedToConverge, s)
  | S n' =>
      match iteration_unrelaxed cell_pressure_scalar_initial iter s with
      | Stop o s' => (o, s')
      | Continue s' =>
          main_loop_unrelaxed cell_pressure_scalar_initial n' (S iter) s'
      end
  end.

Definition solve_unrelaxed (m : Members)
    (cell_pressure0 face_pressure0 : list PhaseVec)
    (well_perf_pressures0 well_perf_fluxes0 : list double) : Outcome * State :=
  main_loop_unrelaxed (cell_pressure_scalar_initial_of cell_pressure0)
            (Z.to_nat (max_num_iter_ cfg)) O
            (initial_state m cell_pressure0 face_pressure0
                           well_perf_pressures0 well_perf_fluxes0).

End Driver.

Arguments cell_pressure {E}.
Arguments face_pressure {E}.
Arguments face_flux {E}.
Arguments well_perf_pressures {E}.
Arguments well_perf_fluxes {E}.
Arguments cell_pressure_scalar {E}.
Arguments initial_voldiscr {E}.
Arguments face_pressure_scalar {E}.
Arguments start_face_flux {E}.
Arguments start_face_pressure {E}.
Arguments start_cell_press {E}.
Arguments well_bhp {E}.
Arguments start_perf_flux {E}.
Arguments fp_ {E}.
Arguments psolver_ {E}.
Arguments perf_pressure_ {E}.
Arguments perf_A_ {E}.
Arguments perf_mob_ {E}.
Arguments perf_sat_ {E}.
Arguments perf_gpot_ {E}.
Arguments trace {E}.
Arguments Continue {E}.
Arguments Stop {E}.
Arguments bind {E}.
Arguments log {E}.

(** ** A small concrete driver

    One cell, one face, two phases and two components.  The pressure solver
    keeps the solution vector [x = (cell pressure, bottomhole pressures)] as
    its whole state; the linear solver hands back a fixed vector [sol] and
    reports [ok]; the fluid evaluator echoes the pressure it is given as the
    saturation, so that the pressure a perforation was evaluated at can be
    read off [perf_sat_]. *)

Module Toy.

Definition fluid (relvd : double) : FluidInterface :=
  {| numPhases := 2;
     numComponents := 2;
     Liquid := 1;
     computeState := fun p z =>
       {| saturation_ := p; mobility_ := p; phase_to_comp_ := z ++ z |};
     phaseDensities := fun At => firstn 2 At;
     surfaceDensities := [1; 1];
     fd_compute := fun _ _ _ _ _ _ =>
       {| totcompr := [0]; voldiscr := [0]; relvoldiscr := [relvd];
          cellA := [1; 0; 0; 1]; faceA := [1; 0; 0; 1];
          phasemobf := [1; 1]; phasemobf_deriv := [0; 0; 0; 0];
          gravcapf := [0; 0]; expjacterm := [0];
          totphasevol_density := [1] |} |}.

Definition fluid_data0 : FluidData :=
  {| totcompr := []; voldiscr := []; relvoldiscr := [];
     cellA := []; faceA := []; phasemobf := []; phasemobf_deriv := [];
     gravcapf := []; expjacterm := []; totphasevol_density := [] |}.

Definition grid : GridInterface :=
  {| numCells := 1; numFaces := 1;
     cellCentroid := fun _ => [0; 0; 0];
     cellVolume := fun _ => 1 |}.

Definition rock : RockInterface := {| porosity := fun _ => 0.5 |}.

(** [n] wells of the given type, one perforation each, all in cell 0. *)
Definition wells (n : nat) (t : WellType) : WellsInterface :=
  {| numWells := n;
     numPerforations := fun _ => 1%nat;
     wellCell := fun _ _ => O;
     type := fun _ => t;
     injectionMixture := fun _ => [1; 0];
     referenceDepth := fun _ => 0;
     perforationPressure := fun _ => 0 |}.

(** The solution vector is the cell pressure followed by the bottomhole
    pressures; the face flux is the cell pressure and each perforation
    flux the bottomhole pressure minus the cell pressure. *)
Definition psolver (nwells : nat) : PressureSolver (list double) :=
  {| assemble := fun _ x => x;
     linearSystem := fun x =>
       {| ls_n := length x; ls_nnz := length x;
          ls_ia := seq 0 (S (length x)); ls_ja := seq 0 (length x);
          ls_sa := repeat 1 (length x); ls_b := x; ls_x := x |};
     poke_sa := fun _ x => x;
     poke_x := fun x _ => x;
     computePressuresAndFluxes := fun x =>
       {| pf_cell_pressure := [at_ x 0];
          pf_face_pressure := [at_ x 0];
          pf_face_flux := [at_ x 0];
          pf_well_bhp := firstn nwells (skipn 1 x);
          pf_well_perf_fluxes :=
            map (fun b => b - at_ x 0) (firstn nwells (skipn 1 x)) |} |}.

Definition linsolver (ok : bool) (sol : list double) : LinearSolver :=
  fun _ _ _ _ _ _ _ => ({| converged := ok; iterations := 1; reduction := 0.5 |}, sol).

Definition config (n : Z) (w : double) (jac : bool) : Config :=
  {| inflow_mixture_ := [1; 0];
     flux_rel_tol_ := 0x1p-17;
     press_rel_tol_ := 0x1p-17;
     max_num_iter_ := n;
     max_relative_voldiscr_ := 0.125;
     relax_time_voldiscr_ := 0;
     relax_weight_pressure_iteration_ := w;
     experimental_jacobian_ := jac;
     output_residual_ := false |}.

Definition env (nwells : nat) (t : WellType) (relvd : double)
    (ok : bool) (sol : list double) (n : Z) (w : double) (jac : bool) : Env :=
  {| env_PS := list double;
     env_psolver := psolver nwells;
     env_linsolver := linsolver ok sol;
     env_grid := grid;
     env_rock := rock;
     env_fluid := fluid relvd;
     env_wells := wells nwells t;
     env_cfg := config n w jac;
     env_gravity := [0; 0; 0];
     env_bctypes := [FBC_UNSET];
     env_bcvalues := [0];
     env_perf_wells := seq 0 nwells;
     env_perf_cells := repeat O nwells;
     env_cell_z := [[1; 0]];
     env_src := [0];
     env_dt := 1 |}.

Definition members (E : Env) (ps : env_PS E) (nperf : nat) : Members E :=
  {| m_fp := fluid_data0;
     m_psolver := ps;
     m_perf_A := repeat 0 (nperf * 4);
     m_perf_mob := repeat 0 (nperf * 2);
     m_perf_sat := repeat [] nperf;
     m_perf_gpot := [] |}.

(** A run of [solve] from cell pressure [p0] with [nwells] perforations at
    pressure [0] and flux [0]. *)
Definition run (nwells : nat) (t : WellType) (relvd : double)
    (ok : bool) (sol : list double) (n : Z) (w : double) (jac : bool)
    (p0 : double) :=
  let E := env nwells t relvd ok sol n w jac in
  solve E (members E (p0 :: repeat 0 nwells) nwells)
        [[p0; p0]] [[p0; p0]] (repeat 0 nwells) (repeat 0 nwells).

(** The state a pass leaves behind, whichever way it ends. *)
Definition after {E : Env} (st : Step E) : State E :=
  match st with
  | Continue s => s
  | Stop _ s => s
  end.

(** A relaxed run (weight 0.5) towards the solution [(2, 3)] from cell
    pressure 1: the driver, its state on entry, and its state after pass 0. *)
Definition relaxed_env : Env := env 1 Injector 0 true [2; 3] 15 0.5 false.

Definition relaxed_start : State relaxed_env :=
  initial_state relaxed_env (members relaxed_env [1; 0] 1)
                [[1; 1]] [[1; 1]] [0] [0].

Definition relaxed_after_pass0 : State relaxed_env :=
  after (iteration relaxed_env [1] 0 relaxed_start).

(** Pass 1 of that run up to the linear solve. *)
Definition relaxed_pass1_props : State relaxed_env :=
  after (first_iteration relaxed_env 1
           (computeFluidProps relaxed_env (snapshot relaxed_env relaxed_after_pass0))).

Definition relaxed_pass1_solved : State relaxed_env :=
  after (linearize relaxed_env 1 [1] relaxed_pass1_props).

(** Two injector wells with one perforation each, entered with the
    perforation pressures 100 (well 0) and 200 (well 1). *)
Definition two_injectors_env : Env := env 2 Injector 0 true [2; 3; 4] 15 1 false.

Definition two_injectors_start : State two_injectors_env :=
  initial_state two_injectors_env (members two_injectors_env [1; 0; 0] 2)
                [[1; 1]] [[1; 1]] [100; 200] [0; 0].

End Toy.

(** ** The rest of the header: [init], the boundary conditions of [setup]
    and [volumeDiscrepancyAcceptable] *)

(** [parameter::ParameterGroup] as [init] uses it: [getDefault(name, value)]
    at the types double, int and bool. *)
Record ParameterGroup := {
  getDefault_double : String.string -> double -> double;
  getDefault_int : String.string -> Z -> Z;
  getDefault_bool : String.string -> bool -> bool
}.

Module Init.
Import String.
#[local] Set Warnings "-inexact-float".

(** The inflow mixture of [init]: a [CompVec] of zeros with the entries of
    the named components assigned, for two or three components; [None] is
    the [THROW] of the [default:] case.  [Gas], [Oil] and [Water] are the
    enumerators of the fluid interface. *)
Definition inflow_mixture (nc Gas Oil Water : nat) (param : ParameterGroup)
  : option CompVec :=
  let mix : CompVec := repeat 0 nc in
  let inflow_mixture_gas := getDefault_double param "inflow_mixture_gas"%string 1 in
  let inflow_mixture_oil := getDefault_double param "inflow_mixture_oil"%string 0 in
  match nc with
  | 2%nat =>
      let mix := upd Gas (fun _ => inflow_mixture_gas) mix in
      let mix := upd Oil (fun _ => inflow_mixture_oil) mix in
      Some mix
  | 3%nat =>
      let inflow_mixture_water :=
        getDefault_double param "inflow_mixture_water"%string 0 in
      let mix := upd Water (fun _ => inflow_mixture_water) mix in
      let mix := upd Gas (fun _ => inflow_mixture_gas) mix in
      let mix := upd Oil (fun _ => inflow_mixture_oil) mix in
      Some mix
  | _ => None
  end.

(** The three [getDefault] reads of the mixture, as [init] makes them. *)
Definition gas_parameter (param : ParameterGroup) : double :=
  getDefault_double param "inflow_mixture_gas"%string 1.

Definition oil_parameter (param : ParameterGroup) : double :=
  getDefault_double param "inflow_mixture_oil"%string 0.

Definition water_parameter (param : ParameterGroup) : double :=
  getDefault_double param "inflow_mixture_water"%string 0.

(** [init]: the run-time parameters, or [None] when it throws.  (The call
    [linsolver_.init(param)] configures the linear solver and is not part of
    the model.) *)
Definition init (nc Gas Oil Water : nat) (param : ParameterGroup)
  : option Config :=
  match inflow_mixture nc Gas Oil Water param with
  | None => None
  | Some mix =>
      Some {| inflow_mixture_ := mix;
              flux_rel_tol_ := getDefault_double param "flux_rel_tol"%string 1e-5;
              press_rel_tol_ := getDefault_double param "press_rel_tol"%string 1e-5;
              max_num_iter_ := getDefault_int param "max_num_iter"%string 15;
              max_relative_voldiscr_ :=
                getDefault_double param "max_relative_voldiscr"%string 0.15;
              relax_time_voldiscr_ :=
                getDefault_double param "relax_time_voldiscr"%string 0;
              relax_weight_pressure_iteration_ :=
                getDefault_double param "relax_weight_pressure_iteration"%string 1;
              experimental_jacobian_ :=
                getDefault_bool param "experimental_jacobian"%string false;
              output_residual_ :=
                getDefault_bool param "output_residual"%string false |}
  end.

(** A parameter group that holds nothing: every [getDefault] gives the
    default. *)
Definition no_parameters : ParameterGroup :=
  {| getDefault_double := fun _ d => d;
     getDefault_int := fun _ d => d;
     getDefault_bool := fun _ d => d |}.

End Init.

(** [FlowBC] as [setup] reads it. *)
Record FlowBC := {
  isDirichlet : bool;
  isNeumann : bool;
  pressure : double;
  outflux : double
}.

(** The two [THROW]s of the boundary-condition loop, with the face at which
    the loop was left. *)
Inductive SetupError :=
| NonzeroNeumann (face : nat)
| UnhandledBoundaryCondition (face : nat).

(** The body of the loop "Build bctypes_ and bcvalues_" for one face. *)
Definition setup_bc_face (boundaryId : nat -> nat) (flowCond : nat -> FlowBC)
    (face : nat) (st : list FlowBCTypes * list double)
  : (list FlowBCTypes * list double) + SetupError :=
  let bid := boundaryId face in
  match bid with
  | O => inl (upd face (fun _ => FBC_UNSET) (fst st), snd st)
  | S _ =>
      let face_bc := flowCond bid in
      if isDirichlet face_bc then
        inl (upd face (fun _ => FBC_PRESSURE) (fst st),
             upd face (fun _ => pressure face_bc) (snd st))
      else if isNeumann face_bc then
        if negb (outflux face_bc =? 0) then inr (NonzeroNeumann face)
        else inl (upd face (fun _ => FBC_FLUX) (fst st),
                  upd face (fun _ => outflux face_bc) (snd st))
      else inr (UnhandledBoundaryCondition face)
  end.

Fixpoint setup_bc_loop (boundaryId : nat -> nat) (flowCond : nat -> FlowBC)
    (faces : list nat) (st : list FlowBCTypes * list double)
  : (list FlowBCTypes * list double) + SetupError :=
  match faces with
  | [] => inl st
  | face :: rest =>
      match setup_bc_face boundaryId flowCond face st with
      | inl st' => setup_bc_loop boundaryId flowCond rest st'
      | inr e => inr e
      end
  end.

(** [bctypes_] and [bcvalues_] as [setup] builds them: both resized to
    [num_faces] (unset, 0.0), then one pass over the faces. *)
Definition setup_bc (boundaryId : nat -> nat) (flowCond : nat -> FlowBC)
    (num_faces : nat) : (list FlowBCTypes * list double) + SetupError :=
  setup_bc_loop boundaryId flowCond (seq 0 num_faces)
                (repeat FBC_UNSET num_faces, repeat 0 num_faces).

(** A face that makes [setup] throw. *)
Definition bad_boundary_face (boundaryId : nat -> nat) (flowCond : nat -> FlowBC)
    (face : nat) : bool :=
  match boundaryId face with
  | O => false
  | S _ =>
      let bc := flowCond (boundaryId face) in
      negb (isDirichlet bc)
      && (negb (isNeumann bc) || negb (outflux bc =? 0))
  end.

(** What [setup] stores for a face whose condition it accepts. *)
Definition face_entry (boundaryId : nat -> nat) (flowCond : nat -> FlowBC)
    (face : nat) : FlowBCTypes * double :=
  match boundaryId face with
  | O => (FBC_UNSET, 0)
  | S _ =>
      let bc := flowCond (boundaryId face) in
      if isDirichlet bc then (FBC_PRESSURE, pressure bc) else (FBC_FLUX, outflux bc)
  end.

(** The face a [THROW] of the loop was raised at. *)
Definition error_face (e : SetupError) : nat :=
  match e with
  | NonzeroNeumann face => face
  | UnhandledBoundaryCondition face => face
  end.

(** Why a face is refused. *)
Definition error_cause (bid : nat -> nat) (fc : nat -> FlowBC) (e : SetupError)
  : Prop :=
  match e with
  | NonzeroNeumann face =>
      bid face <> O
      /\ isDirichlet (fc (bid face)) = false /\ isNeumann (fc (bid face)) = true
      /\ (outflux (fc (bid face)) =? 0) = false
  | UnhandledBoundaryCondition face =>
      bid face <> O
      /\ isDirichlet (fc (bid face)) = false /\ isNeumann (fc (bid face)) = false
  end.

(** Two boundary conditions: a pressure and a flux. *)
Definition dirichlet (p : double) : FlowBC :=
  {| isDirichlet := true; isNeumann := false; pressure := p; outflux := 0 |}.

Definition neumann (q : double) : FlowBC :=
  {| isDirichlet := false; isNeumann := true; pressure := 0; outflux := q |}.

(** The perforations in the order [setup] and [computeFluidProps] walk them:
    well by well, each with its index within the well. *)
Definition perforations (wells : WellsInterface) : list (nat * nat) :=
  flat_map (fun well => map (pair well) (seq 0 (numPerforations wells well)))
           (seq 0 (numWells wells)).

(** The fluid state [computeFluidProps] computes for the perforation
    [wp = (well, index within the well)], from the perforation pressures
    [pp] and the phase pressures [php] of the cells: a producer takes the
    state of its cell, an injector the state at [pp[index within the well]]
    with the injection mixture. *)
Definition perf_state (E : Env) (pp : list double) (php : list PhaseVec)
    (wp : nat * nat) : FluidState :=
  let cell := wellCell (env_wells E) (fst wp) (snd wp) in
  if WellType_eqb (type (env_wells E) (fst wp)) Injector
  then computeState (env_fluid E)
         (repeat (at_ pp (snd wp)) (numPhases (env_fluid E)))
         (injectionMixture (env_wells E) cell)
  else computeState (env_fluid E) (nth cell php []) (nth cell (env_cell_z E) []).

(** [volumeDiscrepancyAcceptable]: the verdict together with the value it
    prints, and the state it leaves; [None] when [relvoldiscr] is empty. *)
Definition volumeDiscrepancyAcceptable (E : Env) (s : State E)
  : option (bool * double) * State E :=
  let s := computeFluidProps E s in
  match max_element (relvoldiscr (fp_ s)) with
  | None => (None, s)
  | Some rel_voldiscr =>
      (Some (negb (max_relative_voldiscr_ (env_cfg E) <? rel_voldiscr),
             rel_voldiscr), s)
  end.

(** The state a pass leaves behind, whichever way it ends. *)
Definition state_of {E : Env} (st : Step E) : State E :=
  match st with
  | Continue s => s
  | Stop _ s => s
  end.

(** Counting the events of a kind in a trace. *)
Definition count_events (kind : Event -> bool) (tr : list Event) : nat :=
  length (filter kind tr).

Definition is_assemble (e : Event) : bool :=
  match e with CallAssemble => true | _ => false end.

Definition is_linear_solve (e : Event) : bool :=
  match e with CallLinearSolve _ => true | _ => false end.

Definition is_back_substitution (e : Event) : bool :=
  match e with CallComputePressuresAndFluxes => true | _ => false end.

Definition is_row (e : Event) : bool :=
  match e with PrintRow _ _ _ => true | _ => false end.

(** Output that is no collaborator call and no row: the residual file and
    the header of the table. *)
Definition is_aux (e : Event) : bool :=
  match e with
  | WriteResidualFile _ _ | PrintHeader => true
  | _ => false
  end.

(** The numbers of fluid evaluations, assemblies, linear solves,
    back-substitutions and rows in a stretch of the trace. *)
Definition calls_are (evs : list Event) (c a l b r : nat) : Prop :=
  iterations_performed evs = c
  /\ count_events is_assemble evs = a
  /\ count_events is_linear_solve evs = l
  /\ count_events is_back_substitution evs = b
  /\ count_events is_row evs = r.

(** The way a pass ends ([None]: it falls through to the next pass). *)
Definition ending {E : Env} (st : Step E) : option Outcome :=
  match st with
  | Continue _ => None
  | Stop o _ => Some o
  end.

(** The calls of one pass, by the way it ends. *)
Definition pass_calls (o : option Outcome) (evs : list Event) : Prop :=
  match o with
  | None | Some (Returned SolveOk) => calls_are evs 1 1 1 1 1
  | Some Thrown => calls_are evs 1 1 1 0 0
  | Some (Returned VolumeDiscrepancyTooLarge) => calls_are evs 1 0 0 0 0
  | Some Undefined => calls_are evs 1 0 0 0 0 \/ calls_are evs 1 1 1 1 0
  | Some (Returned FailedToConverge) => False
  end.

(** The calls of a run of the loop, by its outcome, [k] being the number of
    passes that fell through to the next. *)
Definition run_calls (o : Outcome) (evs : list Event) : Prop :=
  exists k,
    match o with
    | Returned SolveOk => calls_are evs (S k) (S k) (S k) (S k) (S k)
    | Returned FailedToConverge => calls_are evs k k k k k
    | Thrown => calls_are evs (S k) (S k) (S k) k k
    | Returned VolumeDiscrepancyTooLarge => calls_are evs (S k) k k k k
    | Undefined =>
        calls_are evs (S k) k k k k \/ calls_are evs (S k) (S k) (S k) (S k) k
    end.

(** The two quantities of the first pass that later passes only read. *)
Definition first_pass_data {E : Env} (s : State E) : list double * list double :=
  (perf_gpot_ s, initial_voldiscr s).

(** What the "Copy to phase pressures" and "Update internal well pressure
    vector" blocks leave behind: every phase pressure of a cell or face is
    the scalar pressure, and the member [perf_pressure_] is the perforation
    pressure handed back to the caller. *)
Definition published {E : Env} (s : State E) : Prop :=
  perf_pressure_ s = well_perf_pressures s
  /\ (forall cell, (cell < length (env_cell_z E))%nat ->
        (cell < length (cell_pressure s))%nat ->
        nth cell (cell_pressure s) []
        = repeat (at_ (cell_pressure_scalar s) cell) (numPhases (env_fluid E)))
  /\ (forall face, (face < numFaces (env_grid E))%nat ->
        (face < length (face_pressure s))%nat ->
        nth face (face_pressure s) []
        = repeat (at_ (face_pressure_scalar s) face) (numPhases (env_fluid E))).

(** The part of the state [published] reads. *)
Definition pressures {E : Env} (s : State E) :=
  (perf_pressure_ s, well_perf_pressures s, cell_pressure s, face_pressure s,
   cell_pressure_scalar s, face_pressure_scalar s).

(** What the loop of [computeResidualJacobian] does to a diagonal entry of
    the row of [cell], and one step of its inner loop. *)
Definition diagonal_update (E : Env) (fp : FluidData) (cell : nat) (a : double)
  : double :=
  (a - at_ (totcompr fp) cell * cellVolume (env_grid E) cell
       * porosity (env_rock E) cell / env_dt E)
  + at_ (expjacterm fp) cell * cellVolume (env_grid E) cell
    * porosity (env_rock E) cell / env_dt E.

Definition row_step (E : Env) (fp : FluidData) (ja : list nat) (cell : nat)
    (sa : list double) (i : nat) : list double :=
  if Nat.eqb (nth i ja O) cell then upd i (diagonal_update E fp cell) sa else sa.

(** * Properties of the driver *)

(** An event after which [solve] is left. *)
Definition is_final (e : Event) : bool :=
  match e with
  | PrintConverged _ | PrintVoldiscrTooLarge _ | CallLinearSolve false => true
  | _ => false
  end.

(** Events of a stretch of the run that neither start an iteration nor end
    the run. *)
Definition inner (evs : list Event) : Prop :=
  Forall (fun e => is_final e = false /\ is_fluid_compute e = false) evs.

(** Events of a stretch of the run that does not end it. *)
Definition quiet (evs : list Event) : Prop :=
  Forall (fun e => is_final e = false) evs.

(** What the events of one pass of the loop body look like, by the way the
    pass ends ([None]: it falls through to the next pass). *)
Definition pass_shape (iter : nat) (o : option Outcome) (evs : list Event) : Prop :=
  match o with
  | None => inner evs
  | Some (Returned SolveOk) =>
      exists evs', evs = evs' ++ [PrintConverged (iter + 1)] /\ inner evs'
  | Some (Returned VolumeDiscrepancyTooLarge) =>
      iter = O /\ exists r, evs = [PrintVoldiscrTooLarge r]
  | Some (Returned FailedToConverge) => False
  | Some Thrown => exists evs', evs = evs' ++ [CallLinearSolve false] /\ inner evs'
  | Some Undefined => inner evs
  end.

(** What the events of a run of the loop look like, by its outcome, when it
    starts at pass [iter] with [n] passes left. *)
Definition run_shape (n iter : nat) (o : Outcome) (evs : list Event) : Prop :=
  iterations_performed evs <= n /\
  match o with
  | Returned FailedToConverge => iterations_performed evs = n /\ quiet evs
  | Returned SolveOk =>
      exists evs', evs = evs' ++ [PrintConverged (iter + iterations_performed evs')]
                   /\ quiet evs'
  | Returned VolumeDiscrepancyTooLarge =>
      iter = O /\ exists r, evs = [CallFluidCompute; PrintVoldiscrTooLarge r]
  | Thrown => exists evs', evs = evs' ++ [CallLinearSolve false] /\ quiet evs'
  | Undefined => quiet evs
  end.

Section DriverFacts.

Variable E : Env.

Lemma inner_nil : inner [].
Proof. constructor. Qed.

Lemma inner_app a b : inner a -> inner b -> inner (a ++ b).
Proof. unfold inner. intros. apply Forall_app. split; assumption. Qed.

Ltac solve_inner :=
  repeat first
    [ assumption
    | apply inner_nil
    | apply inner_app
    | apply Forall_cons; [split; reflexivity|] ].

Lemma inner_quiet evs : inner evs -> quiet evs.
Proof.
  unfold inner, quiet. intros H. eapply Forall_impl; [|exact H].
  intros e [He _]. exact He.
Qed.

Lemma inner_no_iteration evs : inner evs -> iterations_performed evs = O.
Proof.
  unfold iterations_performed. induction 1 as [|e l [_ He] _ IH]; simpl.
  - reflexivity.
  - rewrite He. exact IH.
Qed.

Lemma iterations_performed_app a b :
  iterations_performed (a ++ b) = (iterations_performed a + iterations_performed b)%nat.
Proof. unfold iterations_performed. rewrite filter_app, length_app. reflexivity. Qed.

Lemma trace_snapshot (s : State E) : trace (snapshot E s) = trace s.
Proof. reflexivity. Qed.

Lemma trace_computeFluidProps (s : State E) :
  trace (computeFluidProps E s) = trace s ++ [CallFluidCompute].
Proof.
  unfold computeFluidProps.
  destruct (all_perf_props E _ _ _ _ _) as [[[A mob] sat] n]. reflexivity.
Qed.

Lemma first_iteration_shape iter (s : State E) :
  match first_iteration E iter s with
  | Continue s' => trace s' = trace s
  | Stop o s' => exists evs, trace s' = trace s ++ evs /\
                   match o with
                   | Returned VolumeDiscrepancyTooLarge =>
                       iter = O /\ exists r, evs = [PrintVoldiscrTooLarge r]
                   | Undefined => evs = []
                   | _ => False
                   end
  end.
Proof.
  unfold first_iteration. destruct iter as [|k]; [|reflexivity].
  destruct (max_element _) as [r|].
  - destruct (_ <? r).
    + eexists. split; [reflexivity|]. split; [reflexivity|]. eexists. reflexivity.
    + reflexivity.
  - exists []. simpl. rewrite app_nil_r. split; reflexivity.
Qed.

Lemma linearize_shape iter csi (s : State E) :
  match linearize E iter csi s with
  | Continue s' => exists evs, trace s' = trace s ++ evs /\ inner evs /\
                     Exists (fun e => e = CallLinearSolve true) evs
  | Stop o s' => o = Thrown /\
                 exists evs, trace s' = trace s ++ evs ++ [CallLinearSolve false]
                             /\ inner evs
  end.
Proof.
  unfold linearize. destruct (experimental_jacobian_ _).
  - destruct (computeResidualJacobian E s csi) as [[ps sys] res].
    destruct (env_linsolver E _ _ _ _ _ _ _) as [result x].
    destruct (converged result) eqn:Hc; simpl.
    + destruct (output_residual_ _); simpl; rewrite <- !app_assoc; simpl;
        eexists; (split; [reflexivity|]); split;
        try (repeat constructor; fail);
        repeat (first [apply Exists_cons_hd; reflexivity | apply Exists_cons_tl]).
    + split; [reflexivity|].
      destruct (output_residual_ _); simpl; rewrite <- !app_assoc; simpl.
      * exists [CallAssemble; WriteResidualFile iter res].
        split; [reflexivity|]. repeat constructor.
      * exists [CallAssemble]. split; [reflexivity|]. repeat constructor.
  - destruct (env_linsolver E _ _ _ _ _ _ _) as [result x].
    destruct (converged result) eqn:Hc; simpl.
    + eexists; (split; [reflexivity|]); split.
      * repeat constructor.
      * apply Exists_cons_tl, Exists_cons_hd. reflexivity.
    + split; [reflexivity|]. exists [CallAssemble]. split; [reflexivity|].
      repeat constructor.
Qed.

Lemma trace_back_substitute (s : State E) :
  trace (back_substitute E s) = trace s ++ [CallComputePressuresAndFluxes].
Proof. reflexivity. Qed.

Lemma trace_relaxation iter (s : State E) :
  trace (relaxation E iter s) = trace s.
Proof. unfold relaxation. destruct (negb _); reflexivity. Qed.

Lemma trace_publish (s : State E) : trace (publish E s) = trace s.
Proof. reflexivity. Qed.

Lemma convergence_test_shape iter (s : State E) :
  match convergence_test E iter s with
  | Continue s' => exists evs, trace s' = trace s ++ evs /\ inner evs
  | Stop o s' => exists evs, trace s' = trace s ++ evs /\
                   match o with
                   | Returned SolveOk =>
                       exists evs', evs = evs' ++ [PrintConverged (iter + 1)]
                                    /\ inner evs'
                   | Undefined => evs = []
                   | _ => False
                   end
  end.
Proof.
  unfold convergence_test.
  destruct (computeFluxPressChanges _ _ _ _ _ _) as [[f p]|].
  - destruct (_ || _); simpl.
    + eexists. split; [rewrite <- app_assoc; reflexivity|].
      eexists. split; [reflexivity|].
      destruct iter; repeat constructor.
    + eexists. split; [reflexivity|]. destruct iter; repeat constructor.
  - exists []. rewrite app_nil_r. split; reflexivity.
Qed.

(** One pass of the loop body: it starts with the one call of the fluid
    evaluation, and the events after it have the shape of its exit. *)
Lemma iteration_shape csi iter (s : State E) :
  exists evs,
    (match iteration E csi iter s with
     | Continue s' => trace s' = trace s ++ CallFluidCompute :: evs
                      /\ pass_shape iter None evs
     | Stop o s' => trace s' = trace s ++ CallFluidCompute :: evs
                    /\ pass_shape iter (Some o) evs
     end).
Proof.
  unfold iteration.
  pose proof (first_iteration_shape iter (computeFluidProps E (snapshot E s))) as H1.
  rewrite trace_computeFluidProps, trace_snapshot in H1.
  destruct (first_iteration E iter _) as [s1|o1 s1]; simpl.
  - pose proof (linearize_shape iter csi s1) as H2.
    destruct (linearize E iter csi s1) as [s2|o2 s2]; simpl.
    + destruct H2 as (e2 & H2 & I2 & _).
      pose proof (convergence_test_shape iter
                    (publish E (relaxation E iter (back_substitute E s2)))) as H3.
      rewrite trace_publish, trace_relaxation, trace_back_substitute in H3.
      destruct (convergence_test E iter _) as [s3|o3 s3].
      * destruct H3 as (e3 & H3 & I3).
        exists (e2 ++ [CallComputePressuresAndFluxes] ++ e3).
        split.
        { rewrite H3, H2, H1. rewrite <- !app_assoc. reflexivity. }
        simpl. solve_inner.
      * destruct H3 as (e3 & H3 & S3).
        exists (e2 ++ [CallComputePressuresAndFluxes] ++ e3).
        split.
        { rewrite H3, H2, H1. rewrite <- !app_assoc. reflexivity. }
        destruct o3 as [[| |]| |]; simpl; try contradiction.
        { destruct S3 as (e3' & -> & I3).
          exists (e2 ++ [CallComputePressuresAndFluxes] ++ e3').
          split; [rewrite <- !app_assoc; reflexivity|].
          solve_inner. }
        { subst e3. solve_inner. }
    + destruct H2 as (-> & e2 & H2 & I2).
      exists (e2 ++ [CallLinearSolve false]). split.
      { rewrite H2, H1. rewrite <- !app_assoc. reflexivity. }
      simpl. exists e2. split; [reflexivity|assumption].
  - destruct H1 as (e1 & H1 & S1).
    exists e1. split.
    { rewrite H1. rewrite <- app_assoc. reflexivity. }
    destruct o1 as [[| |]| |]; simpl; try contradiction.
    + exact S1.
    + subst e1. constructor.
Qed.

Lemma iterations_performed_pass evs :
  inner evs -> iterations_performed (CallFluidCompute :: evs) = 1%nat.
Proof.
  intros H. change (CallFluidCompute :: evs) with ([CallFluidCompute] ++ evs).
  rewrite iterations_performed_app, (inner_no_iteration _ H). reflexivity.
Qed.

Lemma quiet_pass evs : inner evs -> quiet (CallFluidCompute :: evs).
Proof. intros H. constructor; [reflexivity|]. apply inner_quiet, H. Qed.

Lemma quiet_app a b : quiet a -> quiet b -> quiet (a ++ b).
Proof. unfold quiet. intros. apply Forall_app. split; assumption. Qed.

(** The loop: by induction on the number of passes left. *)
Lemma main_loop_shape csi n : forall iter (s : State E),
  exists evs,
    trace (snd (main_loop E csi n iter s)) = trace s ++ evs /\
    run_shape n iter (fst (main_loop E csi n iter s)) evs.
Proof.
  induction n as [|n IH]; intros iter s; simpl.
  - exists []. rewrite app_nil_r. split; [reflexivity|].
    split; [apply Nat.le_refl|]. split; [reflexivity|constructor].
  - destruct (iteration_shape csi iter s) as (e1 & H1).
    destruct (iteration E csi iter s) as [s1|o1 s1].
    + destruct H1 as (T1 & I1). simpl in I1.
      destruct (IH (S iter) s1) as (e2 & T2 & R2).
      exists ((CallFluidCompute :: e1) ++ e2). split.
      { rewrite T2, T1. rewrite <- !app_assoc. reflexivity. }
      destruct R2 as (B2 & R2). unfold run_shape.
      rewrite iterations_performed_app, (iterations_performed_pass _ I1).
      split; [lia|].
      destruct (fst (main_loop E csi n (S iter) s1)) as [[| |]| |].
      * destruct R2 as (e2' & -> & Q2).
        exists ((CallFluidCompute :: e1) ++ e2'). split.
        { rewrite iterations_performed_app, (iterations_performed_pass _ I1).
          rewrite <- app_assoc. rewrite Nat.add_succ_l, <- Nat.add_succ_r.
          reflexivity. }
        apply quiet_app; [apply quiet_pass, I1|exact Q2].
      * destruct R2 as (R2 & _). discriminate R2.
      * destruct R2 as (R2 & Q2). split; [lia|].
        apply quiet_app; [apply quiet_pass, I1|exact Q2].
      * destruct R2 as (e2' & -> & Q2).
        exists ((CallFluidCompute :: e1) ++ e2'). split.
        { rewrite <- app_assoc. reflexivity. }
        apply quiet_app; [apply quiet_pass, I1|exact Q2].
      * apply quiet_app; [apply quiet_pass, I1|exact R2].
    + destruct H1 as (T1 & P1). simpl.
      exists (CallFluidCompute :: e1). split; [exact T1|].
      unfold run_shape.
      destruct o1 as [[| |]| |]; simpl in P1.
      * destruct P1 as (e1' & -> & I1).
        change (CallFluidCompute :: e1' ++ [PrintConverged (iter + 1)])
          with ((CallFluidCompute :: e1') ++ [PrintConverged (iter + 1)]).
        rewrite iterations_performed_app, (iterations_performed_pass _ I1).
        split; [unfold iterations_performed; simpl; lia|].
        exists (CallFluidCompute :: e1'). split.
        { rewrite (iterations_performed_pass _ I1). reflexivity. }
        apply quiet_pass, I1.
      * destruct P1 as (-> & r & ->). split; [unfold iterations_performed; simpl; lia|].
        split; [reflexivity|]. exists r. reflexivity.
      * contradiction.
      * destruct P1 as (e1' & -> & I1).
        change (CallFluidCompute :: e1' ++ [CallLinearSolve false])
          with ((CallFluidCompute :: e1') ++ [CallLinearSolve false]).
        rewrite iterations_performed_app, (iterations_performed_pass _ I1).
        split; [unfold iterations_performed; simpl; lia|].
        exists (CallFluidCompute :: e1'). split; [reflexivity|].
        apply quiet_pass, I1.
      * rewrite (iterations_performed_pass _ P1). split; [lia|].
        apply quiet_pass, P1.
Qed.

(** [solve] starts the loop at pass 0 with an empty trace. *)
Lemma solve_shape (m : Members E) cp0 fp0 wpp0 wpf0 :
  run_shape (Z.to_nat (max_num_iter_ (env_cfg E))) O
            (fst (solve E m cp0 fp0 wpp0 wpf0))
            (trace (snd (solve E m cp0 fp0 wpp0 wpf0))).
Proof.
  unfold solve.
  destruct (main_loop_shape (cell_pressure_scalar_initial_of E cp0)
              (Z.to_nat (max_num_iter_ (env_cfg E))) O
              (initial_state E m cp0 fp0 wpp0 wpf0)) as (evs & T & R).
  simpl in T. rewrite T. exact R.
Qed.

End DriverFacts.



(** ** C1: termination within the iteration budget *)




(** ** C2: rejection on the volume discrepancy *)

Lemma fp_computeFluidProps (E : Env) (s : State E) :
  fp_ (computeFluidProps E s)
  = fd_compute (env_fluid E) (fp_ s) (cell_pressure s) (face_pressure s)
               (env_cell_z E) (inflow_mixture_ (env_cfg E)) (env_dt E).
Proof.
  unfold computeFluidProps.
  destruct (all_perf_props E _ _ _ _ _) as [[[A mob] sat] n]. reflexivity.
Qed.

(** C2.  When the loop is entered at all ([max_num_iter_ > 0]) and the
    largest relative volume discrepancy of the first fluid-property
    evaluation exceeds the ceiling, [solve] returns
    [VolumeDiscrepancyTooLarge] having done nothing but that evaluation and
    the printing of the message: no system was assembled, no linear solve
    called.  And whenever [solve] returns [VolumeDiscrepancyTooLarge], the
    run consists of exactly that: it was left in pass 0. *)
Theorem voldiscr_rejection_first_pass_only (E : Env) (m : Members E)
    (cp0 fp0 : list PhaseVec) (wpp0 wpf0 : list double) :
  let r := solve E m cp0 fp0 wpp0 wpf0 in
  let fp := fd_compute (env_fluid E) (m_fp E m) cp0 fp0 (env_cell_z E)
                       (inflow_mixture_ (env_cfg E)) (env_dt E) in
  ((0 < max_num_iter_ (env_cfg E))%Z ->
   forall rel_voldiscr,
     max_element (relvoldiscr fp) = Some rel_voldiscr ->
     (max_relative_voldiscr_ (env_cfg E) <? rel_voldiscr) = true ->
     fst r = Returned VolumeDiscrepancyTooLarge
     /\ trace (snd r) = [CallFluidCompute; PrintVoldiscrTooLarge rel_voldiscr])
  /\ (fst r = Returned VolumeDiscrepancyTooLarge ->
      (exists rel_voldiscr,
         trace (snd r) = [CallFluidCompute; PrintVoldiscrTooLarge rel_voldiscr])
      /\ iterations_performed (trace (snd r)) = 1%nat
      /\ existsb is_linear_work (trace (snd r)) = false).
Proof.
  intros r fp. split.
  - intros Hn rv Hmax Hgt. subst r. unfold solve.
    destruct (Z.to_nat (max_num_iter_ (env_cfg E))) as [|n] eqn:Hz; [lia|].
    simpl. unfold iteration.
    set (s0 := initial_state E m cp0 fp0 wpp0 wpf0).
    assert (Hfp : fp_ (computeFluidProps E (snapshot E s0)) = fp)
      by (rewrite fp_computeFluidProps; reflexivity).
    assert (Htr : trace (computeFluidProps E (snapshot E s0)) = [CallFluidCompute])
      by (rewrite trace_computeFluidProps; reflexivity).
    unfold first_iteration. rewrite Hfp, Hmax, Hgt. simpl.
    rewrite Htr. split; reflexivity.
  - intros Ho. pose proof (solve_shape E m cp0 fp0 wpp0 wpf0) as [_ S].
    fold r in S. rewrite Ho in S. destruct S as (_ & rv & Hev).
    split; [exists rv; exact Hev|]. rewrite Hev. split; reflexivity.
Qed.

(** A first evaluation with relative volume discrepancy 0.5 against the
    ceiling 0.125. *)
Lemma voldiscr_rejection_first_pass_only_witness :
  fst (Toy.run 1 Injector 0.5 true [2; 3] 15 1 false 1)
  = Returned VolumeDiscrepancyTooLarge
  /\ trace (snd (Toy.run 1 Injector 0.5 true [2; 3] 15 1 false 1))
     = [CallFluidCompute; PrintVoldiscrTooLarge 0.5].
Proof.
  refine (proj1
    (voldiscr_rejection_first_pass_only
       (Toy.env 1 Injector 0.5 true [2; 3] 15 1 false)
       (Toy.members (Toy.env 1 Injector 0.5 true [2; 3] 15 1 false) [1; 0] 1)
       [[1; 1]] [[1; 1]] [0] [0]) _ 0.5 _ _).
  - vm_compute. reflexivity.
  - reflexivity.
  - reflexivity.
Defined.

(** ** C5: a failed linear solve is fatal *)



(** ** C7: relaxation weight 1 *)

Lemma relaxation_weight_one (E : Env) iter (s : State E) :
  relax_weight_pressure_iteration_ (env_cfg E) = 1 ->
  relaxation E iter s = s.
Proof. unfold relaxation. intros ->. reflexivity. Qed.

Lemma iteration_weight_one (E : Env) csi iter (s : State E) :
  relax_weight_pressure_iteration_ (env_cfg E) = 1 ->
  iteration E csi iter s = iteration_unrelaxed E csi iter s.
Proof.
  intros Hw. unfold iteration, iteration_unrelaxed.
  destruct (first_iteration E iter _) as [s1|o1 s1]; [|reflexivity]. simpl.
  destruct (linearize E iter csi s1) as [s2|o2 s2]; [|reflexivity]. simpl.
  rewrite (relaxation_weight_one E iter _ Hw). reflexivity.
Qed.

Lemma main_loop_weight_one (E : Env) csi n :
  relax_weight_pressure_iteration_ (env_cfg E) = 1 ->
  forall iter (s : State E),
    main_loop E csi n iter s = main_loop_unrelaxed E csi n iter s.
Proof.
  intros Hw. induction n as [|n IH]; intros iter s; simpl.
  - reflexivity.
  - rewrite (iteration_weight_one E csi iter s Hw).
    destruct (iteration_unrelaxed E csi iter s) as [s1|o1 s1].
    + apply IH.
    + reflexivity.
Qed.

(** C7.  With the relaxation weight equal to 1, [solve] is the loop without
    the relaxation block: the same outcome, the same final pressures, fluxes
    and members, and the same trace, hence the same relative changes printed
    for every pass; and every single pass, from whatever state, leaves the
    same state behind as the pass without the relaxation block. *)
Theorem relaxation_weight_one_is_unrelaxed (E : Env) (m : Members E)
    (cp0 fp0 : list PhaseVec) (wpp0 wpf0 : list double) :
  relax_weight_pressure_iteration_ (env_cfg E) = 1 ->
  solve E m cp0 fp0 wpp0 wpf0 = solve_unrelaxed E m cp0 fp0 wpp0 wpf0
  /\ forall csi iter (s : State E),
       iteration E csi iter s = iteration_unrelaxed E csi iter s.
Proof.
  intros Hw. split.
  - unfold solve, solve_unrelaxed. apply main_loop_weight_one, Hw.
  - intros csi iter s. apply iteration_weight_one, Hw.
Qed.

Lemma relaxation_weight_one_is_unrelaxed_witness :
  let E := Toy.env 1 Injector 0 true [2; 3] 15 1 false in
  solve E (Toy.members E [1; 0] 1) [[1; 1]] [[1; 1]] [0] [0]
  = solve_unrelaxed E (Toy.members E [1; 0] 1) [[1; 1]] [[1; 1]] [0] [0].
Proof.
  exact (proj1 (relaxation_weight_one_is_unrelaxed
           (Toy.env 1 Injector 0 true [2; 3] 15 1 false)
           (Toy.members (Toy.env 1 Injector 0 true [2; 3] 15 1 false) [1; 0] 1)
           [[1; 1]] [[1; 1]] [0] [0] eq_refl)).
Defined.

(** ** C6: the relaxation formula *)

Lemma length_upd {A : Type} (f : A -> A) (v : list A) :
  forall i, length (upd i f v) = length v.
Proof.
  induction v as [|x t IH]; intros [|j]; simpl; try reflexivity.
  rewrite IH. reflexivity.
Qed.

Lemma nth_upd_same {A : Type} (f : A -> A) (d : A) (v : list A) :
  forall i, (i < length v)%nat -> nth i (upd i f v) d = f (nth i v d).
Proof.
  induction v as [|x t IH]; intros [|j] H; simpl in *; try lia.
  - reflexivity.
  - apply IH. lia.
Qed.

Lemma nth_upd_other {A : Type} (f : A -> A) (d : A) (v : list A) :
  forall i j, i <> j -> nth j (upd i f v) d = nth j v d.
Proof.
  induction v as [|x t IH]; intros [|i] [|j] H; simpl; try reflexivity.
  - contradiction.
  - apply IH. intros ->. apply H. reflexivity.
Qed.

Lemma relax_vector_succ ww n cur start :
  relax_vector ww (S n) cur start
  = upd n (fun x => ww * x + (1 - ww) * at_ start n) (relax_vector ww n cur start).
Proof. unfold relax_vector. rewrite seq_S, fold_left_app. reflexivity. Qed.

Lemma length_relax_vector ww n cur start :
  length (relax_vector ww n cur start) = length cur.
Proof.
  induction n as [|n IH]; [reflexivity|].
  rewrite relax_vector_succ, length_upd. exact IH.
Qed.

Lemma relax_vector_untouched ww n cur start i :
  (n <= i)%nat -> at_ (relax_vector ww n cur start) i = at_ cur i.
Proof.
  induction n as [|n IH]; intros H; [reflexivity|].
  rewrite relax_vector_succ. unfold at_ in *.
  rewrite nth_upd_other by lia. apply IH. lia.
Qed.

Lemma relax_vector_blend ww n cur start i :
  (i < n)%nat -> (i < length cur)%nat ->
  at_ (relax_vector ww n cur start) i = ww * at_ cur i + (1 - ww) * at_ start i.
Proof.
  induction n as [|n IH]; intros Hn Hl; [lia|].
  rewrite relax_vector_succ. unfold at_ in *.
  destruct (Nat.eq_dec i n) as [->|Hne].
  - rewrite nth_upd_same by (rewrite length_relax_vector; exact Hl).
    pose proof (relax_vector_untouched ww n cur start n (Nat.le_refl n)) as U.
    unfold at_ in U. rewrite U. reflexivity.
  - rewrite nth_upd_other by (intros Heq; apply Hne; symmetry; exact Heq).
    apply IH; lia.
Qed.

Lemma first_iteration_frame (E : Env) iter (s s' : State E) :
  first_iteration E iter s = Continue s' ->
  start_cell_press s' = start_cell_press s
  /\ start_face_pressure s' = start_face_pressure s
  /\ start_face_flux s' = start_face_flux s.
Proof.
  unfold first_iteration. destruct iter as [|k].
  - destruct (max_element _) as [r|]; [|discriminate].
    destruct (_ <? r); [discriminate|].
    intros H. injection H as <-. repeat split.
  - intros H. injection H as <-. repeat split.
Qed.

Lemma computeFluidProps_frame (E : Env) (s : State E) :
  start_cell_press (computeFluidProps E s) = start_cell_press s
  /\ start_face_pressure (computeFluidProps E s) = start_face_pressure s
  /\ start_face_flux (computeFluidProps E s) = start_face_flux s.
Proof.
  unfold computeFluidProps.
  destruct (all_perf_props E _ _ _ _ _) as [[[A mob] sat] n]. repeat split.
Qed.

Lemma linearize_frame (E : Env) iter csi (s s' : State E) :
  linearize E iter csi s = Continue s' ->
  start_cell_press s' = start_cell_press s
  /\ start_face_pressure s' = start_face_pressure s
  /\ start_face_flux s' = start_face_flux s.
Proof.
  unfold linearize. destruct (experimental_jacobian_ _).
  - destruct (computeResidualJacobian E s csi) as [[ps sys] res].
    destruct (env_linsolver E _ _ _ _ _ _ _) as [result x].
    destruct (negb (converged result)); [discriminate|].
    intros H. injection H as <-.
    destruct (output_residual_ _); repeat split.
  - destruct (env_linsolver E _ _ _ _ _ _ _) as [result x].
    destruct (negb (converged result)); [discriminate|].
    intros H. injection H as <-. repeat split.
Qed.

(** C6.  Take a pass of the loop, number [iter], that starts in state [s]
    and reaches the relaxation block with a weight [ww] for which
    [ww != 1.0] holds.  Let [fresh] be what [computePressuresAndFluxes]
    hands back in this pass.  Then the state [s3] that goes on to the
    convergence test has every cell pressure equal to
    [ww*fresh + (1-ww)*old], where [old] is the cell pressure at the start of
    the pass; in pass 0 its face pressures and face fluxes are the fresh
    ones; in every later pass they are blended by the same formula. *)
Theorem relaxation_blend (E : Env) (csi : list double) (iter : nat)
    (s s1 s2 : State E) :
  first_iteration E iter (computeFluidProps E (snapshot E s)) = Continue s1 ->
  linearize E iter csi s1 = Continue s2 ->
  negb (relax_weight_pressure_iteration_ (env_cfg E) =? 1) = true ->
  let ww := relax_weight_pressure_iteration_ (env_cfg E) in
  let fresh := computePressuresAndFluxes (env_psolver E) (psolver_ s2) in
  let s3 := relaxation E iter (back_substitute E s2) in
  iteration E csi iter s = convergence_test E iter (publish E s3)
  /\ (forall cell,
        (cell < length (env_cell_z E))%nat ->
        (cell < length (pf_cell_pressure fresh))%nat ->
        at_ (cell_pressure_scalar s3) cell
        = ww * at_ (pf_cell_pressure fresh) cell
          + (1 - ww) * at_ (cell_pressure_scalar s) cell)
  /\ (iter = O ->
      face_pressure_scalar s3 = pf_face_pressure fresh
      /\ face_flux s3 = pf_face_flux fresh)
  /\ (iter <> O ->
      forall face,
        (face < numFaces (env_grid E))%nat ->
        ((face < length (pf_face_pressure fresh))%nat ->
         at_ (face_pressure_scalar s3) face
         = ww * at_ (pf_face_pressure fresh) face
           + (1 - ww) * at_ (face_pressure_scalar s) face)
        /\ ((face < length (pf_face_flux fresh))%nat ->
            at_ (face_flux s3) face
            = ww * at_ (pf_face_flux fresh) face
              + (1 - ww) * at_ (face_flux s) face)).
Proof.
  intros H1 H2 Hw ww fresh s3.
  destruct (first_iteration_frame E iter _ s1 H1) as (F1 & F2 & F3).
  destruct (computeFluidProps_frame E (snapshot E s)) as (C1 & C2 & C3).
  destruct (linearize_frame E iter csi s1 s2 H2) as (L1 & L2 & L3).
  assert (Sc : start_cell_press s2 = cell_pressure_scalar s)
    by (rewrite L1, F1, C1; reflexivity).
  assert (Sp : start_face_pressure s2 = face_pressure_scalar s)
    by (rewrite L2, F2, C2; reflexivity).
  assert (Sf : start_face_flux s2 = face_flux s)
    by (rewrite L3, F3, C3; reflexivity).
  split.
  { unfold iteration. rewrite H1. simpl. rewrite H2. reflexivity. }
  subst s3. unfold relaxation. rewrite Hw. simpl. fold fresh. fold ww.
  rewrite Sc, Sp, Sf.
  split; [|split].
  - intros cell Hc Hl. apply relax_vector_blend; assumption.
  - intros ->. split; reflexivity.
  - intros Hi face Hf. destruct iter as [|k]; [contradiction|].
    split; intros Hl; apply relax_vector_blend; assumption.
Qed.

(** Pass 1 of the relaxed run: the cell pressure 1.5 left by pass 0 and the
    fresh value 2 give 0.5*2 + 0.5*1.5. *)
Lemma relaxation_blend_witness :
  at_ (cell_pressure_scalar
         (relaxation Toy.relaxed_env 1
            (back_substitute Toy.relaxed_env Toy.relaxed_pass1_solved))) 0
  = 0.5 * 2 + (1 - 0.5) * 1.5.
Proof.
  refine (proj1 (proj2
    (relaxation_blend Toy.relaxed_env [1] 1 Toy.relaxed_after_pass0
       Toy.relaxed_pass1_props Toy.relaxed_pass1_solved _ _ _)) 0%nat _ _).
  - vm_compute. reflexivity.
  - vm_compute. reflexivity.
  - reflexivity.
  - vm_compute. lia.
  - vm_compute. lia.
Defined.

(** ** C3: the pressure a perforation is evaluated at *)

(** C3 does not hold of the code.  The fluid state of an injector
    perforation is computed at [perf_pressure_[perf]] with [perf] the index
    of the perforation within its well, while [perf_pressure_] is indexed by
    the running perforation count like [perf_A_], [perf_mob_] and
    [perf_sat_].  With two injectors of one perforation each, at pressures
    100 and 200, both perforations are evaluated at 100 (the toy fluid
    echoes the pressure as the saturation). *)
Lemma computeFluidProps_two_injectors :
  perf_pressure_ Toy.two_injectors_start = [100; 200]
  /\ perf_sat_ (computeFluidProps Toy.two_injectors_env Toy.two_injectors_start)
     = [[100; 100]; [100; 100]].
Proof. split; vm_compute; reflexivity. Qed.

(** * Binary64 facts *)

(** ** The order of [<] *)

Lemma SFltb_rank (x y : spec_float) :
  x <> S754_nan -> y <> S754_nan ->
  (SFltb x y = true <-> rank_lt (sf_rank x) (sf_rank y)).
Proof.
  intros Hx Hy. unfold SFltb, rank_lt.
  destruct x as [sx|sx| |sx mx ex]; destruct y as [sy|sy| |sy my ey];
    try congruence;
    try destruct sx; try destruct sy; simpl;
    try (split; [discriminate|lia]);
    try (split; [lia|reflexivity]).
  - destruct (Z.compare_spec ex ey); rewrite ?Pos.compare_cont_spec; simpl;
      try destruct (Pos.compare_spec mx my); simpl; split; try discriminate; try lia; reflexivity.
  - destruct (Z.compare_spec ex ey); rewrite ?Pos.compare_cont_spec; simpl;
      try destruct (Pos.compare_spec mx my); simpl; split; try discriminate; try lia; reflexivity.
Qed.

Lemma not_nan_spec x : not_nan x = true <-> Prim2SF x <> S754_nan.
Proof.
  unfold not_nan. destruct (Prim2SF x); split; congruence.
Qed.

Lemma ltb_rank x y :
  not_nan x = true -> not_nan y = true ->
  ((x <? y) = true <-> rank_lt (rank x) (rank y)).
Proof.
  intros Hx Hy. rewrite ltb_spec. apply SFltb_rank; apply not_nan_spec; assumption.
Qed.

Lemma ltb_false_rank x y :
  not_nan x = true -> not_nan y = true ->
  ((x <? y) = false <-> rank_le (rank y) (rank x)).
Proof.
  intros Hx Hy. unfold rank_le. rewrite <- (ltb_rank x y Hx Hy).
  destruct (x <? y); split; congruence.
Qed.

Lemma rank_le_refl a : rank_le a a.
Proof. unfold rank_le, rank_lt. lia. Qed.

Lemma rank_le_trans a b c : rank_le a b -> rank_le b c -> rank_le a c.
Proof. unfold rank_le, rank_lt. lia. Qed.

Lemma rank_le_total a b : rank_le a b \/ rank_le b a.
Proof. unfold rank_le, rank_lt. lia. Qed.

Lemma rank_le_antisym a b : rank_le a b -> rank_le b a -> a = b.
Proof.
  destruct a as [a1 a2 a3], b as [b1 b2 b3]. unfold rank_le, rank_lt. simpl.
  intros H1 H2. f_equal; lia.
Qed.

(** The class 0 is that of the two zeros (and of NaN): nothing else in it. *)
Lemma rank_zero_class x :
  r_class (rank x) = 0%Z -> r_exp (rank x) = 0%Z /\ r_man (rank x) = 0%Z.
Proof.
  unfold rank. destruct (Prim2SF x) as [s|[|]| |[|] m e]; simpl; intros H;
    try discriminate H; split; reflexivity.
Qed.

Lemma rank_of_abs x : rank (abs x) = rank_abs (rank x).
Proof.
  unfold rank. rewrite abs_spec.
  destruct (Prim2SF x) as [s|[|]| |[|] m e]; try reflexivity.
  unfold rank_abs. simpl. rewrite Z.opp_involutive. reflexivity.
Qed.

Lemma not_nan_abs x : not_nan (abs x) = not_nan x.
Proof.
  unfold not_nan. rewrite abs_spec. destruct (Prim2SF x); reflexivity.
Qed.

Lemma abs_rank_inj x y :
  not_nan x = true -> not_nan y = true ->
  rank (abs x) = rank (abs y) -> abs x = abs y.
Proof.
  unfold not_nan, rank. intros Hx Hy H. apply Prim2SF_inj.
  rewrite !abs_spec in *.
  destruct (Prim2SF x) as [s|[|]| |[|] m e]; try discriminate Hx;
    destruct (Prim2SF y) as [s'|[|]| |[|] m' e']; try discriminate Hy;
    simpl in *; try discriminate H; try reflexivity;
    injection H as -> ->; reflexivity.
Qed.

(** Between two bounds, the absolute value is below that of one of them. *)
Lemma rank_abs_between m y M :
  (r_class y = 0 -> r_exp y = 0 /\ r_man y = 0)%Z ->
  (r_class M = 0 -> r_exp M = 0 /\ r_man M = 0)%Z ->
  rank_le m y -> rank_le y M ->
  rank_le (rank_abs y) (rank_abs m) \/ rank_le (rank_abs y) (rank_abs M).
Proof.
  destruct m as [m1 m2 m3], y as [y1 y2 y3], M as [M1 M2 M3].
  unfold rank_le, rank_lt, rank_abs. simpl. intros Wy WM H1 H2.
  destruct (Z.ltb_spec m1 0), (Z.ltb_spec y1 0), (Z.ltb_spec M1 0); simpl; lia.
Qed.

Lemma rank_abs_nonneg r :
  (r_class r = 0 -> r_exp r = 0 /\ r_man r = 0)%Z ->
  rank_le {| r_class := 0; r_exp := 0; r_man := 0 |} (rank_abs r).
Proof.
  destruct r as [a b c]. unfold rank_le, rank_lt, rank_abs. simpl. intros W.
  destruct (Z.ltb_spec a 0); simpl; lia.
Qed.

Lemma rank_lt_le a b : rank_lt a b -> rank_le a b.
Proof. unfold rank_le, rank_lt. lia. Qed.

Lemma std_max_spec a b :
  not_nan a = true -> not_nan b = true ->
  (std_max a b = a \/ std_max a b = b)
  /\ rank_le (rank a) (rank (std_max a b))
  /\ rank_le (rank b) (rank (std_max a b)).
Proof.
  intros Ha Hb. unfold std_max. destruct (a <? b) eqn:H.
  - split; [right; reflexivity|]. split; [|apply rank_le_refl].
    apply rank_lt_le. apply ltb_rank; assumption.
  - split; [left; reflexivity|]. split; [apply rank_le_refl|].
    apply ltb_false_rank in H; assumption.
Qed.

Lemma min_element_from_spec l : forall x,
  not_nan x = true -> all_not_nan l ->
  In (min_element_from x l) (x :: l)
  /\ forall y, In y (x :: l) -> rank_le (rank (min_element_from x l)) (rank y).
Proof.
  induction l as [|a l IH]; intros x Hx Hl; simpl.
  - split; [left; reflexivity|]. intros y [<-|[]]. apply rank_le_refl.
  - inversion Hl as [|? ? Ha Hl']; subst.
    destruct (a <? x) eqn:H.
    + destruct (IH a Ha Hl') as [I B]. split.
      * right. exact I.
      * intros y [<-|Hy]; [|apply B; exact Hy].
        apply rank_le_trans with (rank a); [apply B; left; reflexivity|].
        apply rank_lt_le. apply ltb_rank; assumption.
    + destruct (IH x Hx Hl') as [I B]. split.
      * destruct I as [I|I]; [left; exact I|right; right; exact I].
      * intros y [<-|[<-|Hy]].
        -- apply B. left. reflexivity.
        -- apply rank_le_trans with (rank x); [apply B; left; reflexivity|].
           apply ltb_false_rank in H; assumption.
        -- apply B. right. exact Hy.
Qed.

Lemma max_element_from_spec l : forall x,
  not_nan x = true -> all_not_nan l ->
  In (max_element_from x l) (x :: l)
  /\ forall y, In y (x :: l) -> rank_le (rank y) (rank (max_element_from x l)).
Proof.
  induction l as [|a l IH]; intros x Hx Hl; simpl.
  - split; [left; reflexivity|]. intros y [<-|[]]. apply rank_le_refl.
  - inversion Hl as [|? ? Ha Hl']; subst.
    destruct (x <? a) eqn:H.
    + destruct (IH a Ha Hl') as [I B]. split.
      * right. exact I.
      * intros y [<-|Hy]; [|apply B; exact Hy].
        apply rank_le_trans with (rank a); [|apply B; left; reflexivity].
        apply rank_lt_le. apply ltb_rank; assumption.
    + destruct (IH x Hx Hl') as [I B]. split.
      * destruct I as [I|I]; [left; exact I|right; right; exact I].
      * intros y [<-|[<-|Hy]].
        -- apply B. left. reflexivity.
        -- apply rank_le_trans with (rank x); [|apply B; left; reflexivity].
           apply ltb_false_rank in H; assumption.
        -- apply B. right. exact Hy.
Qed.

Lemma all_not_nan_in l x : all_not_nan l -> In x l -> not_nan x = true.
Proof. unfold all_not_nan. rewrite Forall_forall. intros H I. apply H, I. Qed.

Lemma abs_max_unique l r1 r2 :
  all_not_nan l -> abs_max_of r1 l -> abs_max_of r2 l -> r1 = r2.
Proof.
  intros Hl [(z1 & I1 & ->) B1] [(z2 & I2 & ->) B2].
  apply abs_rank_inj; try (apply (all_not_nan_in l); assumption).
  apply rank_le_antisym; [apply B2|apply B1]; assumption.
Qed.

Lemma abs_max_of_incl r l l' :
  abs_max_of r l -> (forall y, In y l <-> In y l') -> abs_max_of r l'.
Proof.
  intros [(z & I & E) B] H. split.
  - exists z. split; [apply H, I|exact E].
  - intros y Hy. apply B, H, Hy.
Qed.

Lemma max_abs_extremes_spec l r :
  all_not_nan l -> max_abs_extremes l = Some r -> abs_max_of r l.
Proof.
  intros Hl. unfold max_abs_extremes, min_element, max_element.
  destruct l as [|x t]; [discriminate|].
  inversion Hl as [|? ? Hx Ht]; subst.
  destruct (min_element_from_spec t x Hx Ht) as [Ilo Blo].
  destruct (max_element_from_spec t x Hx Ht) as [Ihi Bhi].
  set (lo := min_element_from x t) in *. set (hi := max_element_from x t) in *.
  intros H. injection H as <-. unfold fabs.
  assert (Nlo : not_nan (abs lo) = true)
    by (rewrite not_nan_abs; apply (all_not_nan_in (x :: t)); assumption).
  assert (Nhi : not_nan (abs hi) = true)
    by (rewrite not_nan_abs; apply (all_not_nan_in (x :: t)); assumption).
  destruct (std_max_spec (abs lo) (abs hi) Nlo Nhi) as (C & L1 & L2).
  split.
  - destruct C as [-> | ->]; [exists lo|exists hi]; split; auto.
  - intros y Hy.
    destruct (rank_abs_between (rank lo) (rank y) (rank hi)
                (rank_zero_class y) (rank_zero_class hi) (Blo y Hy) (Bhi y Hy))
      as [H|H]; rewrite <- !rank_of_abs in H.
    + eapply rank_le_trans; [exact H|exact L1].
    + eapply rank_le_trans; [exact H|exact L2].
Qed.

Lemma rank_abs_zero_le x : rank_le (rank (abs 0)) (rank (abs x)).
Proof.
  rewrite (rank_of_abs x). apply (rank_abs_nonneg (rank x)), rank_zero_class.
Qed.

Lemma abs_max_of_zero_cons r l :
  abs_max_of r l -> abs_max_of r (0 :: l).
Proof.
  intros [(z & I & E) B]. split.
  - exists z. split; [right; exact I|exact E].
  - intros y [<-|Hy]; [|apply B, Hy]. subst r. apply rank_abs_zero_le.
Qed.

Lemma fold_max_abs_spec l : forall m z0,
  m = abs z0 -> not_nan z0 = true -> all_not_nan l ->
  abs_max_of (fold_left (fun m x => std_max m (fabs x)) l m) (z0 :: l).
Proof.
  induction l as [|a l IH]; intros m z0 Hm Hz Hl; simpl.
  - subst m. split; [exists z0; split; [left|]; reflexivity|].
    intros y [<-|[]]. apply rank_le_refl.
  - inversion Hl as [|? ? Ha Hl']; subst. unfold fabs at 2.
    assert (N0 : not_nan (abs z0) = true) by (rewrite not_nan_abs; exact Hz).
    assert (Na : not_nan (abs a) = true) by (rewrite not_nan_abs; exact Ha).
    destruct (std_max_spec (abs z0) (abs a) N0 Na) as (C & L1 & L2).
    set (m' := std_max (abs z0) (abs a)) in *.
    assert (exists z', (z' = z0 \/ z' = a) /\ m' = abs z' /\ not_nan z' = true)
      as (z' & Hz' & Em & Nz').
    { destruct C as [C|C]; [exists z0|exists a]; auto. }
    destruct (IH m' z' Em Nz' Hl') as [(z & I & E) B].
    pose proof (B z' (or_introl eq_refl)) as Bz. rewrite <- Em in Bz. split.
    + exists z. split; [|exact E].
      destruct I as [<-|I]; [|right; right; exact I].
      destruct Hz' as [-> | ->]; [left|right; left]; reflexivity.
    + intros y [<-|[<-|Hy]].
      * eapply rank_le_trans; [exact L1|exact Bz].
      * eapply rank_le_trans; [exact L2|exact Bz].
      * apply B. right. exact Hy.
Qed.

Lemma linf_spec l : all_not_nan l -> abs_max_of (linf l) (0 :: l).
Proof. intros Hl. apply fold_max_abs_spec; [reflexivity|reflexivity|exact Hl]. Qed.

Lemma abs_max_of_join a b l1 l2 :
  all_not_nan l1 -> all_not_nan l2 ->
  abs_max_of a (0 :: l1) -> abs_max_of b (0 :: l2) ->
  abs_max_of (std_max a b) (0 :: l1 ++ l2).
Proof.
  intros H1 H2 [(za & Ia & Ea) Ba] [(zb & Ib & Eb) Bb].
  assert (Nza : not_nan za = true).
  { destruct Ia as [<-|Ia]; [reflexivity|apply (all_not_nan_in l1); assumption]. }
  assert (Nzb : not_nan zb = true).
  { destruct Ib as [<-|Ib]; [reflexivity|apply (all_not_nan_in l2); assumption]. }
  assert (Na : not_nan a = true) by (subst a; rewrite not_nan_abs; exact Nza).
  assert (Nb : not_nan b = true) by (subst b; rewrite not_nan_abs; exact Nzb).
  destruct (std_max_spec a b Na Nb) as (C & L1 & L2). split.
  - destruct C as [-> | ->]; [exists za|exists zb]; (split; [|assumption]).
    + destruct Ia as [<-|Ia]; [left; reflexivity|right; apply in_or_app; left; exact Ia].
    + destruct Ib as [<-|Ib]; [left; reflexivity|right; apply in_or_app; right; exact Ib].
  - intros y [<-|Hy].
    + eapply rank_le_trans; [apply Ba; left; reflexivity|exact L1].
    + apply in_app_or in Hy. destruct Hy as [Hy|Hy].
      * eapply rank_le_trans; [apply Ba; right; exact Hy|exact L1].
      * eapply rank_le_trans; [apply Bb; right; exact Hy|exact L2].
Qed.

(** ** Arithmetic on values that are not finite, and on zeros *)

Lemma isfinite_add_l a b : isfinite a = false -> isfinite (a + b) = false.
Proof.
  unfold isfinite. rewrite add_spec. unfold SF64add.
  destruct (Prim2SF a) as [s|[|]| |s m e]; try discriminate; intros _;
    destruct (Prim2SF b) as [s'|[|]| |s' m' e']; reflexivity.
Qed.

Lemma isfinite_add_r a b : isfinite b = false -> isfinite (a + b) = false.
Proof.
  unfold isfinite. rewrite add_spec. unfold SF64add.
  destruct (Prim2SF b) as [s'|[|]| |s' m' e']; try discriminate; intros _;
    destruct (Prim2SF a) as [s|[|]| |s m e]; reflexivity.
Qed.

Lemma isfinite_mul_l a b : isfinite a = false -> isfinite (a * b) = false.
Proof.
  unfold isfinite. rewrite mul_spec. unfold SF64mul.
  destruct (Prim2SF a) as [s|s| |s m e]; try discriminate; intros _;
    destruct (Prim2SF b) as [s'|s'| |s' m' e']; reflexivity.
Qed.

Lemma isfinite_mul_r a b : isfinite b = false -> isfinite (a * b) = false.
Proof.
  unfold isfinite. rewrite mul_spec. unfold SF64mul.
  destruct (Prim2SF b) as [s'|s'| |s' m' e']; try discriminate; intros _;
    destruct (Prim2SF a) as [s|s| |s m e]; reflexivity.
Qed.

Lemma iszero_spec x : iszero x = true <-> exists s, Prim2SF x = S754_zero s.
Proof.
  unfold iszero. rewrite eqb_spec.
  change (Prim2SF 0) with (S754_zero false). unfold SFeqb. split.
  - destruct (Prim2SF x) as [s|[|]| |[|] m e]; simpl; try discriminate.
    intros _. exists s. reflexivity.
  - intros [s ->]. reflexivity.
Qed.

(** [1.0/f] for a zero [f] is an infinity. *)
Lemma isfinite_one_over_zero f : iszero f = true -> isfinite (1 / f) = false.
Proof.
  intros H. apply iszero_spec in H. destruct H as [s Hs].
  unfold isfinite. rewrite div_spec, Hs. reflexivity.
Qed.

Lemma iszero_mul_finite a b :
  isfinite a = true -> iszero b = true -> iszero (a * b) = true.
Proof.
  unfold isfinite. intros Ha Hb. apply iszero_spec in Hb. destruct Hb as [s Hs].
  apply iszero_spec. rewrite mul_spec, Hs. unfold SF64mul.
  destruct (Prim2SF a) as [s'|s'| |s' m' e']; try discriminate Ha; eexists; reflexivity.
Qed.

Lemma eqb_add_zero x a z :
  (x =? a) = true -> iszero z = true -> (x + z =? a) = true.
Proof.
  intros Hx Hz. apply iszero_spec in Hz. destruct Hz as [s Hs].
  rewrite eqb_spec in *. rewrite add_spec, Hs. unfold SF64add, SFeqb in *.
  destruct (Prim2SF x) as [[|]|[|]| |[|] mx ex];
    destruct (Prim2SF a) as [sa|[|]| |[|] ma ea];
    destruct s; simpl in *; solve [discriminate Hx | reflexivity | exact Hx].
Qed.

Lemma eqb_refl x : not_nan x = true -> (x =? x) = true.
Proof.
  unfold not_nan. rewrite eqb_spec. unfold SFeqb.
  destruct (Prim2SF x) as [s|[|]| |[|] m e]; simpl; try discriminate; intros _;
    try reflexivity;
    rewrite Z.compare_refl, Pos.compare_cont_refl; reflexivity.
Qed.


(** * The relative changes *)

Lemma all_not_nan_app l1 l2 :
  all_not_nan l1 -> all_not_nan l2 -> all_not_nan (l1 ++ l2).
Proof. unfold all_not_nan. intros. apply Forall_app. split; assumption. Qed.

(** The largest absolute flux of the pass, as the code computes it from the
    extreme elements of the two vectors, is the infinity norm of the face
    fluxes followed by the perforation fluxes. *)
Lemma max_flux_is_linf ff wpf mf mp :
  all_not_nan ff -> all_not_nan wpf ->
  max_abs_extremes ff = Some mf ->
  match wpf with [] => Some 0 | _ => max_abs_extremes wpf end = Some mp ->
  std_max mf mp = linf (ff ++ wpf).
Proof.
  intros Hf Hp Ef Ep.
  apply (abs_max_unique (0 :: ff ++ wpf)).
  - constructor; [reflexivity|]. apply all_not_nan_app; assumption.
  - apply abs_max_of_join; try assumption.
    + apply abs_max_of_zero_cons, max_abs_extremes_spec; assumption.
    + destruct wpf as [|p wpf'].
      * injection Ep as <-. split.
        -- exists 0. split; [left|]; reflexivity.
        -- intros y [<-|[]]. apply rank_le_refl.
      * apply abs_max_of_zero_cons, max_abs_extremes_spec; assumption.
  - apply linf_spec, all_not_nan_app; assumption.
Qed.

Lemma max_press_is_linf cps mp :
  all_not_nan cps -> max_abs_extremes cps = Some mp -> mp = linf cps.
Proof.
  intros Hc Ec. apply (abs_max_unique (0 :: cps)).
  - constructor; [reflexivity|exact Hc].
  - apply abs_max_of_zero_cons, max_abs_extremes_spec; assumption.
  - apply linf_spec, Hc.
Qed.

Lemma max_abs_extremes_some l : l <> [] -> exists r, max_abs_extremes l = Some r.
Proof.
  destruct l as [|x t]; [congruence|]. intros _. eexists. reflexivity.
Qed.

Lemma change_infnorm_fold cur : forall start n,
  length start = length cur ->
  change_infnorm n cur start
  = Some (fold_left (fun m x => std_max m (fabs x)) (vsub cur start) n).
Proof.
  induction cur as [|x cur IH]; intros [|y start] n H; simpl in *;
    try discriminate H; [reflexivity|].
  apply IH. lia.
Qed.

Lemma vsub_app a : forall b c d,
  length b = length a -> vsub (a ++ c) (b ++ d) = vsub a b ++ vsub c d.
Proof.
  induction a as [|x a IH]; intros [|y b] c d H; simpl in *;
    try discriminate H; [reflexivity|].
  rewrite IH by lia. reflexivity.
Qed.

(** ** C4: what the two relative changes are *)

(** C4, as the code has it.  For vectors without NaN (the start vectors as
    long as the current ones, at least one face and one cell), the relative
    flux change is the infinity norm of the flux change, taken over the face
    fluxes followed by the perforation fluxes, divided by the largest
    absolute flux of the current pass over the same entries; the start
    fluxes do not enter the divisor.  The relative pressure change is the
    infinity norm of the cell pressure change divided by the largest absolute
    cell pressure of the current pass, as the specification words it. *)
Theorem relative_changes_formula
    (face_flux well_perf_fluxes cell_pressure_scalar
     start_face_flux start_perf_flux start_cell_press : list double) :
  face_flux <> [] -> cell_pressure_scalar <> [] ->
  length start_face_flux = length face_flux ->
  length start_perf_flux = length well_perf_fluxes ->
  length start_cell_press = length cell_pressure_scalar ->
  all_not_nan face_flux -> all_not_nan well_perf_fluxes ->
  all_not_nan cell_pressure_scalar ->
  computeFluxPressChanges face_flux well_perf_fluxes cell_pressure_scalar
                          start_face_flux start_perf_flux start_cell_press
  = Some (linf (vsub (face_flux ++ well_perf_fluxes)
                     (start_face_flux ++ start_perf_flux))
          / linf (face_flux ++ well_perf_fluxes),
          spec_press_rel_difference cell_pressure_scalar start_cell_press).
Proof.
  intros Nf Nc Lf Lp Lc Hf Hp Hc.
  unfold computeFluxPressChanges, spec_press_rel_difference.
  destruct (max_abs_extremes_some face_flux Nf) as [mf Ef]. rewrite Ef.
  assert (exists mp, match well_perf_fluxes with
                     | [] => Some 0
                     | _ => max_abs_extremes well_perf_fluxes
                     end = Some mp) as [mp Ep].
  { destruct well_perf_fluxes as [|p t]; [exists 0; reflexivity|].
    apply max_abs_extremes_some. discriminate. }
  rewrite Ep.
  destruct (max_abs_extremes_some cell_pressure_scalar Nc) as [mc Ec]. rewrite Ec.
  rewrite (change_infnorm_fold face_flux start_face_flux 0 Lf).
  rewrite (change_infnorm_fold well_perf_fluxes start_perf_flux _ Lp).
  rewrite (change_infnorm_fold cell_pressure_scalar start_cell_press 0 Lc).
  rewrite <- fold_left_app, <- (vsub_app _ _ _ _ Lf).
  rewrite (max_flux_is_linf _ _ _ _ Hf Hp Ef Ep).
  rewrite (max_press_is_linf _ _ Hc Ec).
  reflexivity.
Qed.

(** Two faces, one perforation, one cell. *)
Lemma relative_changes_formula_witness :
  computeFluxPressChanges [1; -4] [2] [8] [3; -4] [2] [6]
  = Some (linf (vsub ([1; -4] ++ [2]) ([3; -4] ++ [2])) / linf ([1; -4] ++ [2]),
          spec_press_rel_difference [8] [6]).
Proof.
  apply relative_changes_formula;
    try discriminate; try reflexivity; repeat constructor.
Defined.

(** C4, as stated, fails: from the face flux 3 to the face flux 1 the code
    reports the change 2/1, while the larger of the two passes' largest
    absolute flux is 3 and the stated quotient 2/3. *)
Lemma relative_flux_change_uses_current_pass_only :
  computeFluxPressChanges [1] [] [1] [3] [] [1] = Some (2, 0)
  /\ spec_flux_rel_difference [1] [] [3] [] = 2 / 3
  /\ (2 =? 2 / 3) = false.
Proof. repeat split. Qed.

(** ** C9: identical passes *)

Lemma isfinite_not_nan x : isfinite x = true -> not_nan x = true.
Proof. unfold isfinite, not_nan. destruct (Prim2SF x); congruence. Qed.

Lemma all_finite_not_nan l : all_finite l -> all_not_nan l.
Proof.
  unfold all_finite, all_not_nan. intros H. eapply Forall_impl; [|exact H].
  intros x. apply isfinite_not_nan.
Qed.

Lemma sub_self x : isfinite x = true -> x - x = 0.
Proof.
  unfold isfinite. intros H. apply Prim2SF_inj. rewrite sub_spec.
  change (Prim2SF 0) with (S754_zero false). unfold SF64sub.
  destruct (Prim2SF x) as [[|]|s| |s m e]; try discriminate H; try reflexivity.
  unfold SFsub. rewrite Z.sub_diag. reflexivity.
Qed.

Lemma vsub_self_zero l : all_finite l -> vsub l l = repeat 0 (length l).
Proof.
  induction 1 as [|x l Hx _ IH]; simpl; [reflexivity|].
  rewrite (sub_self x Hx), IH. reflexivity.
Qed.

Lemma fold_max_zeros n :
  fold_left (fun m x => std_max m (fabs x)) (repeat 0 n) 0 = 0.
Proof. induction n as [|n IH]; simpl; [reflexivity|]. exact IH. Qed.

Lemma linf_all_zero l :
  all_not_nan l -> forallb iszero l = true -> linf l = 0.
Proof.
  intros Hl Hz. destruct (linf_spec l Hl) as [(z & I & E) _]. rewrite E.
  assert (Zz : iszero z = true).
  { destruct I as [<-|I]; [reflexivity|].
    rewrite forallb_forall in Hz. apply Hz, I. }
  apply iszero_spec in Zz. destruct Zz as [s Zs].
  apply Prim2SF_inj. rewrite abs_spec, Zs. reflexivity.
Qed.

Lemma zero_div_positive m :
  (0 < r_class (rank m))%Z -> 0 / m = 0.
Proof.
  unfold rank. intros H. apply Prim2SF_inj. rewrite div_spec.
  change (Prim2SF 0) with (S754_zero false). unfold SF64div.
  destruct (Prim2SF m) as [s|[|]| |[|] mm e]; simpl in H; try lia; reflexivity.
Qed.

Lemma rank_class_positive y :
  not_nan y = true -> iszero y = false -> (0 < r_class (rank (abs y)))%Z.
Proof.
  unfold not_nan. intros Hn Hz.
  destruct (iszero y) eqn:Z; [discriminate|]. clear Hz.
  assert (forall s, Prim2SF y <> S754_zero s) as NZ.
  { intros s Hs. assert (iszero y = true) by (apply iszero_spec; eauto).
    congruence. }
  rewrite rank_of_abs. unfold rank, rank_abs.
  destruct (Prim2SF y) as [s|[|]| |[|] mm e]; simpl; try lia;
    try discriminate Hn. exfalso. apply (NZ s). reflexivity.
Qed.

Lemma linf_not_all_zero l :
  all_not_nan l -> forallb iszero l = false -> (0 < r_class (rank (linf l)))%Z.
Proof.
  intros Hl Hz. destruct (linf_spec l Hl) as [_ B].
  assert (exists y, In y l /\ iszero y = false) as (y & Iy & Zy).
  { clear -Hz. induction l as [|a l IH]; simpl in Hz; [discriminate|].
    destruct (iszero a) eqn:Za.
    - destruct (IH Hz) as (y & I & Z). exists y. split; [right; exact I|exact Z].
    - exists a. split; [left; reflexivity|exact Za]. }
  pose proof (rank_class_positive y (all_not_nan_in l y Hl Iy) Zy) as P.
  specialize (B y (or_intror Iy)). unfold rank_le, rank_lt in B. lia.
Qed.

Lemma zero_over_linf l :
  all_not_nan l -> 0 / linf l = if forallb iszero l then nan else 0.
Proof.
  intros Hl. destruct (forallb iszero l) eqn:Hz.
  - rewrite (linf_all_zero l Hl Hz). reflexivity.
  - apply zero_div_positive, linf_not_all_zero; assumption.
Qed.

(** C9, as the code has it.  When two consecutive passes have the same
    finite face fluxes, perforation fluxes and cell pressures, the relative
    flux change is 0 if some flux is not zero and NaN (0/0) if all fluxes are
    zero; likewise the relative pressure change is 0 if some cell pressure is
    not zero and NaN if all are zero. *)
Theorem identical_passes_relative_changes
    (face_flux well_perf_fluxes cell_pressure_scalar : list double) :
  face_flux <> [] -> cell_pressure_scalar <> [] ->
  all_finite face_flux -> all_finite well_perf_fluxes ->
  all_finite cell_pressure_scalar ->
  computeFluxPressChanges face_flux well_perf_fluxes cell_pressure_scalar
                          face_flux well_perf_fluxes cell_pressure_scalar
  = Some (if forallb iszero (face_flux ++ well_perf_fluxes) then nan else 0,
          if forallb iszero cell_pressure_scalar then nan else 0).
Proof.
  intros Nf Nc Hf Hp Hc.
  pose proof (all_finite_not_nan _ Hf) as Af.
  pose proof (all_finite_not_nan _ Hp) as Ap.
  pose proof (all_finite_not_nan _ Hc) as Ac.
  unfold computeFluxPressChanges.
  destruct (max_abs_extremes_some face_flux Nf) as [mf Ef]. rewrite Ef.
  assert (exists mp, match well_perf_fluxes with
                     | [] => Some 0
                     | _ => max_abs_extremes well_perf_fluxes
                     end = Some mp) as [mp Ep].
  { destruct well_perf_fluxes as [|p t]; [exists 0; reflexivity|].
    apply max_abs_extremes_some. discriminate. }
  rewrite Ep.
  destruct (max_abs_extremes_some cell_pressure_scalar Nc) as [mc Ec]. rewrite Ec.
  rewrite !change_infnorm_fold by reflexivity.
  rewrite (vsub_self_zero _ Hf), (vsub_self_zero _ Hp), (vsub_self_zero _ Hc).
  rewrite !fold_max_zeros.
  rewrite (max_flux_is_linf _ _ _ _ Af Ap Ef Ep), (max_press_is_linf _ _ Ac Ec).
  rewrite (zero_over_linf _ (all_not_nan_app _ _ Af Ap)), (zero_over_linf _ Ac).
  reflexivity.
Qed.

(** Identical passes with a nonzero flux and a nonzero pressure. *)
Lemma identical_passes_relative_changes_witness :
  computeFluxPressChanges [1; -4] [2] [8; 0] [1; -4] [2] [8; 0] = Some (0, 0).
Proof.
  apply (identical_passes_relative_changes [1; -4] [2] [8; 0]);
    try discriminate; repeat constructor.
Defined.

(** C9, as stated, fails in both directions: identical all-zero passes have
    the relative changes NaN, not zero; and two passes that differ in a face
    flux (by the smallest positive double, against a largest flux of 4) have
    both relative changes zero, the quotient being rounded to zero. *)
Lemma zero_change_not_iff_identical :
  computeFluxPressChanges [0] [] [0] [0] [] [0] = Some (nan, nan)
  /\ iszero nan = false
  /\ computeFluxPressChanges [4; 0x1p-1074] [] [1] [4; 0] [] [1] = Some (0, 0)
  /\ (0x1p-1074 =? 0) = false.
Proof. repeat split. Qed.

(** * The perforation pressures *)

Lemma length_pv_add u : forall v, length (pv_add u v) = length u.
Proof.
  induction u as [|x u IH]; intros [|y v]; simpl; try reflexivity.
  rewrite IH. reflexivity.
Qed.

Lemma length_pv_scale v k : length (pv_scale v k) = length v.
Proof. unfold pv_scale. apply length_map. Qed.

Lemma at_pv_scale v k i :
  (i < length v)%nat -> at_ (pv_scale v k) i = at_ v i * k.
Proof.
  unfold at_, pv_scale. intros H.
  rewrite (nth_indep _ 0 (0 * k)) by (rewrite length_map; exact H).
  apply (map_nth (fun x => x * k)).
Qed.

Section WellFacts.

Variable numPhases : nat.
Variable perf_wells_ : list nat.
Variable perf_sat_ : list PhaseVec.

Lemma accumulate_wells_length fl : forall p acc,
  length (fst (accumulate_wells perf_wells_ perf_sat_ fl p acc)) = length (fst acc)
  /\ length (snd (accumulate_wells perf_wells_ perf_sat_ fl p acc)) = length (snd acc).
Proof.
  induction fl as [|flux rest IH]; intros p acc; simpl; [split; reflexivity|].
  match goal with
  | |- context [accumulate_wells _ _ rest (S p) ?a] =>
      destruct (IH (S p) a) as [H1 H2]
  end.
  rewrite H1, H2. simpl. rewrite !length_upd. split; reflexivity.
Qed.

Lemma accumulate_wells_flux fl : forall p acc well,
  (well < length (snd acc))%nat ->
  nth well (snd (accumulate_wells perf_wells_ perf_sat_ fl p acc)) 0
  = fold_left
      (fun sum pf => if Nat.eqb (nth (fst pf) perf_wells_ O) well
                     then sum + snd pf else sum)
      (combine (seq p (length fl)) fl) (nth well (snd acc) 0).
Proof.
  induction fl as [|flux rest IH]; intros p acc well Hw; simpl; [reflexivity|].
  rewrite IH by (simpl; rewrite length_upd; exact Hw). simpl.
  f_equal. destruct (Nat.eqb_spec (nth p perf_wells_ O) well) as [->|Hne].
  - rewrite nth_upd_same by exact Hw. reflexivity.
  - rewrite nth_upd_other by exact Hne. reflexivity.
Qed.

Lemma accumulate_wells_sat fl : forall p acc well,
  (well < length (fst acc))%nat ->
  nth well (fst (accumulate_wells perf_wells_ perf_sat_ fl p acc)) []
  = fold_left
      (fun sum pf => if Nat.eqb (nth (fst pf) perf_wells_ O) well
                     then pv_add sum (pv_scale (nth (fst pf) perf_sat_ []) (snd pf))
                     else sum)
      (combine (seq p (length fl)) fl) (nth well (fst acc) []).
Proof.
  induction fl as [|flux rest IH]; intros p acc well Hw; simpl; [reflexivity|].
  rewrite IH by (simpl; rewrite length_upd; exact Hw). simpl.
  f_equal. destruct (Nat.eqb_spec (nth p perf_wells_ O) well) as [->|Hne].
  - rewrite nth_upd_same by exact Hw. reflexivity.
  - rewrite nth_upd_other by exact Hne. reflexivity.
Qed.

Lemma average_wells_nth ws : forall wf well,
  (well < length ws)%nat -> (well < length wf)%nat ->
  nth well (average_wells ws wf) [] = pv_scale (nth well ws []) (1 / nth well wf 0).
Proof.
  induction ws as [|s ws IH]; intros [|f wf] [|w] H1 H2; simpl in *; try lia.
  - reflexivity.
  - apply IH; lia.
Qed.

Lemma nth_repeat_lt {A : Type} (x d : A) n i : (i < n)%nat -> nth i (repeat x n) d = x.
Proof.
  revert i. induction n as [|n IH]; intros [|i] H; simpl; try lia.
  - reflexivity.
  - apply IH. lia.
Qed.

(** After the first two loops [well_sat[well]] is the flux-weighted average
    saturation of the well. *)
Lemma well_sat_of_nth numWells wpf well :
  (well < numWells)%nat ->
  nth well (well_sat_of numPhases numWells perf_wells_ perf_sat_ wpf) []
  = well_average_sat numPhases perf_wells_ perf_sat_ wpf well.
Proof.
  intros Hw. unfold well_sat_of, well_average_sat, well_sat_sum, well_flux_sum.
  set (acc0 := (repeat (repeat 0 numPhases) numWells, repeat 0 numWells)).
  destruct (accumulate_wells_length wpf O acc0) as [L1 L2].
  simpl in L1, L2. rewrite repeat_length in L1, L2.
  rewrite average_wells_nth by lia.
  rewrite accumulate_wells_sat by (simpl; rewrite repeat_length; exact Hw).
  rewrite accumulate_wells_flux by (simpl; rewrite repeat_length; exact Hw).
  simpl. rewrite !nth_repeat_lt by exact Hw. reflexivity.
Qed.

Lemma length_well_sat_sum wpf well :
  length (well_sat_sum numPhases perf_wells_ perf_sat_ wpf well) = numPhases.
Proof.
  unfold well_sat_sum.
  generalize (combine (seq 0 (length wpf)) wpf). intros l.
  assert (forall v, length (fold_left
            (fun sum pf => if Nat.eqb (nth (fst pf) perf_wells_ O) well
                           then pv_add sum (pv_scale (nth (fst pf) perf_sat_ []) (snd pf))
                           else sum) l v) = length v) as H.
  { induction l as [|pf l IH]; intros v; simpl; [reflexivity|].
    rewrite IH. destruct (Nat.eqb _ _); [apply length_pv_add|reflexivity]. }
  rewrite H. apply repeat_length.
Qed.

Lemma length_well_average_sat wpf well :
  length (well_average_sat numPhases perf_wells_ perf_sat_ wpf well) = numPhases.
Proof. unfold well_average_sat. rewrite length_pv_scale. apply length_well_sat_sum. Qed.

(** The third loop writes entry [perf] once, for every [perf] below the
    number of perforation fluxes. *)
Lemma write_range_nth (g : nat -> double) n : forall (out : list double) perf,
  (perf < n)%nat -> (perf < length out)%nat ->
  nth perf (fold_left (fun out perf => upd perf (fun _ => g perf) out) (seq 0 n) out) 0
  = g perf.
Proof.
  induction n as [|n IH]; intros out perf Hn Hl; [lia|].
  rewrite seq_S, fold_left_app. simpl.
  assert (forall m (o : list double),
            length (fold_left (fun out perf => upd perf (fun _ => g perf) out)
                              (seq 0 m) o) = length o) as Len.
  { induction m as [|m IHm]; intros o; [reflexivity|].
    rewrite seq_S, fold_left_app. simpl. rewrite length_upd. apply IHm. }
  destruct (Nat.eq_dec perf n) as [->|Hne].
  - rewrite nth_upd_same by (rewrite Len; exact Hl). reflexivity.
  - rewrite nth_upd_other by (intros Heq; apply Hne; symmetry; exact Heq).
    apply IH; lia.
Qed.

Lemma computeWellPerfPressures_nth numWells wpf bhp gpot wpp perf :
  (perf < length wpf)%nat -> (perf < length wpp)%nat ->
  nth perf (computeWellPerfPressures numPhases numWells perf_wells_ perf_sat_
              wpf bhp gpot wpp) 0
  = perf_pressure_of numPhases perf_wells_
      (well_sat_of numPhases numWells perf_wells_ perf_sat_ wpf) bhp gpot perf.
Proof.
  intros H1 H2. unfold computeWellPerfPressures.
  apply (write_range_nth
           (perf_pressure_of numPhases perf_wells_
              (well_sat_of numPhases numWells perf_wells_ perf_sat_ wpf) bhp gpot));
    assumption.
Qed.

End WellFacts.

(** ** C8: the perforation pressure *)

(** C8, as the code has it.  The pressure written for perforation [perf] of
    well [well] is the bottomhole pressure of the well to which are added, phase
    by phase, the well's flux-weighted average saturation of the phase times
    the gravity potential of the perforation for the phase.  When these
    gravity potentials are all zero, the average saturations of the well are
    finite and the bottomhole pressure is a number, the perforation pressure
    compares equal to the bottomhole pressure. *)
Theorem perforation_pressure_formula
    (numPhases numWells : nat) (perf_wells_ : list nat) (perf_sat_ : list PhaseVec)
    (well_perf_fluxes well_bhp wellperf_gpot well_perf_pressures : list double)
    (perf : nat) :
  (perf < length well_perf_fluxes)%nat ->
  (perf < length well_perf_pressures)%nat ->
  (nth perf perf_wells_ O < numWells)%nat ->
  let well := nth perf perf_wells_ O in
  let sat := well_average_sat numPhases perf_wells_ perf_sat_ well_perf_fluxes well in
  let p := nth perf (computeWellPerfPressures numPhases numWells perf_wells_ perf_sat_
                       well_perf_fluxes well_bhp wellperf_gpot well_perf_pressures) 0 in
  p = fold_left
        (fun p phase => p + at_ sat phase * at_ wellperf_gpot (numPhases * perf + phase))
        (seq 0 numPhases) (at_ well_bhp well)
  /\ ((forall phase, (phase < numPhases)%nat ->
         iszero (at_ wellperf_gpot (numPhases * perf + phase)) = true) ->
      (forall phase, (phase < numPhases)%nat -> isfinite (at_ sat phase) = true) ->
      not_nan (at_ well_bhp well) = true ->
      (p =? at_ well_bhp well) = true).
Proof.
  intros H1 H2 Hw well sat p.
  assert (Ep : p = fold_left
        (fun p phase => p + at_ sat phase * at_ wellperf_gpot (numPhases * perf + phase))
        (seq 0 numPhases) (at_ well_bhp well)).
  { subst p. rewrite computeWellPerfPressures_nth by assumption.
    unfold perf_pressure_of. fold well.
    rewrite (well_sat_of_nth numPhases perf_wells_ perf_sat_ numWells
               well_perf_fluxes well Hw).
    reflexivity. }
  split; [exact Ep|].
  intros Hg Hs Hb. rewrite Ep.
  assert (forall l acc,
            (forall phase, In phase l -> (phase < numPhases)%nat) ->
            (acc =? at_ well_bhp well) = true ->
            (fold_left
               (fun p phase =>
                  p + at_ sat phase * at_ wellperf_gpot (numPhases * perf + phase))
               l acc =? at_ well_bhp well) = true) as Inv.
  { induction l as [|ph l IH]; intros acc Hl Hacc; simpl; [exact Hacc|].
    apply IH.
    - intros phase Hin. apply Hl. right. exact Hin.
    - apply eqb_add_zero; [exact Hacc|].
      apply iszero_mul_finite; [apply Hs|apply Hg]; apply Hl; left; reflexivity. }
  apply Inv.
  - intros phase Hin. apply in_seq in Hin. lia.
  - apply eqb_refl, Hb.
Qed.

(** One well with one perforation of flux 2 on a flat grid. *)
Lemma perforation_pressure_formula_witness :
  (nth 0 (computeWellPerfPressures 2 1 [O] [[0.25; 0.75]] [2] [5] [0; 0] [0]) 0 =? 5)
  = true.
Proof.
  refine (proj2 (perforation_pressure_formula 2 1 [O] [[0.25; 0.75]]
                   [2] [5] [0; 0] [0] 0 _ _ _) _ _ _).
  - simpl. lia.
  - simpl. lia.
  - simpl. lia.
  - intros [|[|phase]] H; try reflexivity. simpl in H. lia.
  - intros [|[|phase]] H; try reflexivity. simpl in H. lia.
  - reflexivity.
Defined.

(** C8, as stated, fails: one well with one perforation on a flat grid (all
    gravity potentials zero) whose flux is zero gets the perforation pressure
    NaN, not the bottomhole pressure 5. *)
Lemma perforation_pressure_zero_flux_well :
  computeWellPerfPressures 2 1 [O] [[0.25; 0.75]] [0] [5] [0; 0] [0] = [nan]
  /\ (nan =? 5) = false.
Proof. split; reflexivity. Qed.

(** ** C10: wells whose flux sums to zero *)

(** C10.  For a well whose perforation fluxes, summed in the order of the
    perforations, give zero, every phase of the averaged saturation is
    infinite or NaN (it is a product with [1.0/0.0]); and with at least one
    phase, so is the pressure written for every perforation of that well. *)
Theorem zero_flux_well_not_finite
    (numPhases numWells : nat) (perf_wells_ : list nat) (perf_sat_ : list PhaseVec)
    (well_perf_fluxes well_bhp wellperf_gpot well_perf_pressures : list double)
    (well : nat) :
  (well < numWells)%nat ->
  iszero (well_flux_sum perf_wells_ well_perf_fluxes well) = true ->
  (forall phase, (phase < numPhases)%nat ->
     isfinite (at_ (nth well (well_sat_of numPhases numWells perf_wells_ perf_sat_
                                well_perf_fluxes) []) phase) = false)
  /\ (forall perf,
        (perf < length well_perf_fluxes)%nat ->
        (perf < length well_perf_pressures)%nat ->
        nth perf perf_wells_ O = well ->
        (0 < numPhases)%nat ->
        isfinite (nth perf (computeWellPerfPressures numPhases numWells perf_wells_
                              perf_sat_ well_perf_fluxes well_bhp wellperf_gpot
                              well_perf_pressures) 0) = false).
Proof.
  intros Hw Hz.
  assert (S1 : forall phase, (phase < numPhases)%nat ->
     isfinite (at_ (nth well (well_sat_of numPhases numWells perf_wells_ perf_sat_
                                well_perf_fluxes) []) phase) = false).
  { intros phase Hp. rewrite well_sat_of_nth by exact Hw.
    unfold well_average_sat.
    rewrite at_pv_scale by (rewrite length_well_sat_sum; exact Hp).
    apply isfinite_mul_r, isfinite_one_over_zero, Hz. }
  split; [exact S1|].
  intros perf H1 H2 Hperf Hnp.
  rewrite computeWellPerfPressures_nth by assumption.
  unfold perf_pressure_of, add_potentials. rewrite Hperf.
  destruct numPhases as [|n]; [lia|].
  change (seq 0 (S n)) with (O :: seq 1 n). simpl fold_left.
  generalize (seq 1 n). intros l.
  assert (forall (f : nat -> double) l acc,
            isfinite acc = false ->
            isfinite (fold_left (fun p phase => p + f phase) l acc) = false) as Inv.
  { intros f l0. induction l0 as [|ph l0 IH]; intros acc Hacc; simpl; [exact Hacc|].
    apply IH, isfinite_add_l, Hacc. }
  apply (Inv (fun phase =>
                at_ (nth well (well_sat_of (S n) numWells perf_wells_ perf_sat_
                                 well_perf_fluxes) []) phase
                * at_ wellperf_gpot (S n * perf + phase))).
  apply isfinite_add_r, isfinite_mul_l, S1. lia.
Qed.

(** One well with the perforation fluxes 2 and -2. *)
Lemma zero_flux_well_not_finite_witness :
  isfinite (nth 0 (computeWellPerfPressures 2 1 [O; O] [[0.25; 0.75]; [0.5; 0.5]]
                     [2; -2] [5] [1; 1; 1; 1] [0; 0]) 0) = false.
Proof.
  refine (proj2 (zero_flux_well_not_finite 2 1 [O; O] [[0.25; 0.75]; [0.5; 0.5]]
                   [2; -2] [5] [1; 1; 1; 1] [0; 0] 0 _ _) 0%nat _ _ _ _).
  - lia.
  - reflexivity.
  - simpl. lia.
  - simpl. lia.
  - reflexivity.
  - lia.
Defined.

(** * More of the header

    The properties below cover the code the sections above leave out:
    [init], the two loops of [setup], [volumeDiscrepancyAcceptable], the
    calls and the state of [solve], and the private helpers
    [computeFluidProps], [computeResidualJacobian] and
    [computeWellPotentials]. *)

(** ** Vectors written in a loop *)

Lemma length_fold_upd {A : Type} (g : nat -> nat) (f : nat -> A -> A) l :
  forall v, length (fold_left (fun v j => upd (g j) (f j) v) l v) = length v.
Proof.
  induction l as [|j l IH]; intros v; simpl; [reflexivity|].
  rewrite IH, length_upd. reflexivity.
Qed.

Lemma nth_fold_upd_out {A : Type} (g : nat -> nat) (f : nat -> A -> A) (d : A) l i :
  (forall j, In j l -> g j <> i) ->
  forall v, nth i (fold_left (fun v j => upd (g j) (f j) v) l v) d = nth i v d.
Proof.
  induction l as [|j l IH]; intros H v; simpl; [reflexivity|].
  rewrite IH by (intros j' Hj'; apply H; right; exact Hj').
  apply nth_upd_other. apply H. left. reflexivity.
Qed.

Lemma nth_fold_upd_in {A : Type} (f : nat -> A -> A) (d : A) n a i :
  forall v, (i < n)%nat -> (a + i < length v)%nat ->
  nth (a + i) (fold_left (fun v j => upd (a + j) (f j) v) (seq 0 n) v) d
  = f i (nth (a + i) v d).
Proof.
  induction n as [|n IH]; intros v Hn Hl; [lia|].
  rewrite seq_S, fold_left_app. simpl.
  destruct (Nat.eq_dec i n) as [->|Hne].
  - rewrite nth_upd_same by (rewrite length_fold_upd; exact Hl).
    f_equal. apply (nth_fold_upd_out (fun j => (a + j)%nat)).
    intros j Hj. apply in_seq in Hj. lia.
  - rewrite nth_upd_other by lia. apply IH; lia.
Qed.


Lemma at_upd_same i (x : double) (v : list double) :
  (i < length v)%nat -> at_ (upd i (fun _ => x) v) i = x.
Proof.
  intros H. unfold at_.
  exact (nth_upd_same (fun _ => x) 0 v i H).
Qed.

Lemma at_upd_other i j (x : double) (v : list double) :
  i <> j -> at_ (upd i (fun _ => x) v) j = at_ v j.
Proof.
  intros H. unfold at_. apply nth_upd_other. exact H.
Qed.

Lemma at_zeros n i : at_ (repeat 0 n) i = 0.
Proof.
  unfold at_. revert i. induction n as [|n IH]; intros [|i]; simpl; auto.
Qed.

Lemma fold_left_flat_map {A B C : Type} (f : A -> C -> A) (g : B -> list C) l :
  forall a, fold_left f (flat_map g l) a
            = fold_left (fun a b => fold_left f (g b) a) l a.
Proof.
  induction l as [|b l IH]; intros a; simpl; [reflexivity|].
  rewrite fold_left_app. apply IH.
Qed.

Lemma fold_left_map {A B C : Type} (f : A -> C -> A) (g : B -> C) l :
  forall a, fold_left f (map g l) a = fold_left (fun a b => f a (g b)) l a.
Proof. induction l as [|b l IH]; intros a; simpl; [reflexivity|]. apply IH. Qed.

Lemma map_fst_pair {A B : Type} (a : A) (l : list B) :
  map fst (map (pair a) l) = repeat a (length l).
Proof. induction l as [|b l IH]; simpl; [reflexivity|]. rewrite IH. reflexivity. Qed.

Lemma length_write_at {A : Type} (src : list A) : forall dst off,
  length (write_at off src dst) = length dst.
Proof.
  induction src as [|x src IH]; intros dst.
  - induction dst as [|d dst IHd]; intros [|off]; simpl; try reflexivity.
    rewrite IHd. reflexivity.
  - induction dst as [|d dst IHd]; intros [|off]; simpl; try reflexivity.
    + rewrite IH. reflexivity.
    + rewrite IHd. reflexivity.
Qed.

Lemma length_flat_map_uniform {A B : Type} (f : A -> list B) n l :
  (forall a, length (f a) = n) -> length (flat_map f l) = (length l * n)%nat.
Proof.
  intros H. induction l as [|a l IH]; simpl; [reflexivity|].
  rewrite length_app, H, IH. reflexivity.
Qed.

Lemma nth_flat_map_uniform {B : Type} (f : nat -> list B) (d : B) n m :
  (forall a, length (f a) = n) ->
  forall a i j, (i < m)%nat -> (j < n)%nat ->
  nth (n * i + j) (flat_map f (seq a m)) d = nth j (f (a + i)%nat) d.
Proof.
  intros H. induction m as [|m IH]; intros a i j Hi Hj; [lia|]. simpl.
  destruct i as [|i].
  - rewrite Nat.mul_0_r, Nat.add_0_r. simpl.
    rewrite app_nth1 by (rewrite H; exact Hj). reflexivity.
  - rewrite app_nth2 by (rewrite H; nia). rewrite H.
    replace (n * S i + j - n)%nat with (n * i + j)%nat by nia.
    rewrite IH by lia. f_equal. f_equal. lia.
Qed.

(** ** [init] *)

(** X1: [init] throws exactly when the fluid has neither two nor three
    components.  Otherwise the inflow mixture has one entry per component;
    the entry of [Oil] is the parameter [inflow_mixture_oil] (default 0),
    the entry of [Gas], when [Gas] is not [Oil], the parameter
    [inflow_mixture_gas] (default 1), with three components the entry of
    [Water], when it is neither, the parameter [inflow_mixture_water]
    (default 0); every other entry is 0, and with two components the water
    parameter has no effect. *)
Theorem init_inflow_mixture (nc Gas Oil Water : nat) (param : ParameterGroup) :
  let gas := Init.gas_parameter param in
  let oil := Init.oil_parameter param in
  let water := Init.water_parameter param in
  match Init.init nc Gas Oil Water param with
  | None => nc <> 2%nat /\ nc <> 3%nat
  | Some cfg =>
      let mix := inflow_mixture_ cfg in
      (nc = 2%nat \/ nc = 3%nat)
      /\ length mix = nc
      /\ ((Oil < nc)%nat -> at_ mix Oil = oil)
      /\ ((Gas < nc)%nat -> Gas <> Oil -> at_ mix Gas = gas)
      /\ (nc = 3%nat -> (Water < nc)%nat -> Water <> Gas -> Water <> Oil ->
          at_ mix Water = water)
      /\ (forall i, i <> Gas -> i <> Oil -> nc = 2%nat \/ i <> Water ->
          at_ mix i = 0)
  end.
Proof.
  intros gas oil water. unfold Init.init, Init.inflow_mixture.
  subst gas oil water.
  unfold Init.gas_parameter, Init.oil_parameter, Init.water_parameter.
  destruct nc as [|[|[|[|nc]]]]; try (split; intros H; discriminate H).
  - cbv zeta. cbn [inflow_mixture_].
    split; [left; reflexivity|].
    split; [rewrite !length_upd; reflexivity|].
    split; [intros H; apply at_upd_same; rewrite length_upd; exact H|].
    split.
    { intros H Hne. rewrite at_upd_other by congruence.
      apply at_upd_same. exact H. }
    split; [intros H; discriminate H|].
    intros i H1 H2 _. rewrite !at_upd_other by congruence. apply at_zeros.
  - cbv zeta. cbn [inflow_mixture_].
    split; [right; reflexivity|].
    split; [rewrite !length_upd; reflexivity|].
    split; [intros H; apply at_upd_same; rewrite !length_upd; exact H|].
    split.
    { intros H Hne. rewrite at_upd_other by congruence.
      apply at_upd_same. rewrite length_upd. exact H. }
    split.
    { intros _ H Hg Ho. rewrite !at_upd_other by congruence.
      apply at_upd_same. exact H. }
    intros i H1 H2 [H3|H3]; [discriminate H3|].
    rewrite !at_upd_other by congruence. apply at_zeros.
Qed.

(** ** [setup]: the boundary conditions *)

Lemma setup_bc_face_ok bid fc face st :
  bad_boundary_face bid fc face = false ->
  (face < length (fst st))%nat -> (face < length (snd st))%nat ->
  nth face (snd st) 0 = 0 ->
  exists st',
    setup_bc_face bid fc face st = inl st'
    /\ length (fst st') = length (fst st) /\ length (snd st') = length (snd st)
    /\ (nth face (fst st') FBC_UNSET, nth face (snd st') 0) = face_entry bid fc face
    /\ forall j, j <> face ->
         nth j (fst st') FBC_UNSET = nth j (fst st) FBC_UNSET
         /\ nth j (snd st') 0 = nth j (snd st) 0.
Proof.
  unfold bad_boundary_face, setup_bc_face, face_entry. intros Hb H1 H2 H0.
  destruct (bid face) as [|b] eqn:Hbid.
  - eexists. split; [reflexivity|]. simpl. rewrite length_upd.
    repeat split.
    + rewrite nth_upd_same by exact H1. f_equal. exact H0.
    + apply nth_upd_other. intros Heq. apply H. symmetry. exact Heq.
  - destruct (isDirichlet (fc (S b))) eqn:Hd.
    + eexists. split; [reflexivity|]. simpl. rewrite !length_upd.
      repeat split.
      * rewrite !nth_upd_same by assumption. reflexivity.
      * apply nth_upd_other. intros Heq. apply H. symmetry. exact Heq.
      * apply nth_upd_other. intros Heq. apply H. symmetry. exact Heq.
    + simpl in Hb. destruct (isNeumann (fc (S b))) eqn:Hn; simpl in Hb;
        [|discriminate Hb].
      rewrite Hb. eexists. split; [reflexivity|]. simpl. rewrite !length_upd.
      repeat split.
      * rewrite !nth_upd_same by assumption. reflexivity.
      * apply nth_upd_other. intros Heq. apply H. symmetry. exact Heq.
      * apply nth_upd_other. intros Heq. apply H. symmetry. exact Heq.
Qed.

Lemma setup_bc_face_bad bid fc face st :
  bad_boundary_face bid fc face = true ->
  exists e, setup_bc_face bid fc face st = inr e
            /\ (e = NonzeroNeumann face \/ e = UnhandledBoundaryCondition face)
            /\ error_cause bid fc e.
Proof.
  unfold bad_boundary_face, setup_bc_face. intros Hb.
  destruct (bid face) as [|b] eqn:Hbid; [discriminate Hb|].
  destruct (isDirichlet (fc (S b))) eqn:Hd; [discriminate Hb|]. simpl in Hb.
  destruct (isNeumann (fc (S b))) eqn:Hn; simpl in Hb.
  - rewrite Hb. eexists. split; [reflexivity|]. split; [left; reflexivity|].
    simpl. rewrite Hbid, Hd, Hn. apply negb_true_iff in Hb.
    repeat split; auto.
  - eexists. split; [reflexivity|]. split; [right; reflexivity|].
    simpl. rewrite Hbid, Hd, Hn. repeat split; auto.
Qed.

Lemma setup_bc_loop_spec bid fc k : forall a st,
  (a + k <= length (fst st))%nat -> (a + k <= length (snd st))%nat ->
  (forall j, (a <= j < a + k)%nat -> nth j (snd st) 0 = 0) ->
  match setup_bc_loop bid fc (seq a k) st with
  | inl st' =>
      length (fst st') = length (fst st) /\ length (snd st') = length (snd st)
      /\ (forall j, (a <= j < a + k)%nat ->
            bad_boundary_face bid fc j = false
            /\ (nth j (fst st') FBC_UNSET, nth j (snd st') 0) = face_entry bid fc j)
      /\ (forall j, ~ (a <= j < a + k)%nat ->
            nth j (fst st') FBC_UNSET = nth j (fst st) FBC_UNSET
            /\ nth j (snd st') 0 = nth j (snd st) 0)
  | inr e =>
      (a <= error_face e < a + k)%nat
      /\ error_cause bid fc e
      /\ forall j, (a <= j < error_face e)%nat -> bad_boundary_face bid fc j = false
  end.
Proof.
  induction k as [|k IH]; intros a st H1 H2 H0; simpl.
  - repeat split; try lia. 
  - destruct (bad_boundary_face bid fc a) eqn:Hb.
    + destruct (setup_bc_face_bad bid fc a st Hb) as (e & -> & He & Hc).
      assert (error_face e = a) as -> by (destruct He as [-> | ->]; reflexivity).
      split; [lia|]. split; [exact Hc|]. intros j Hj. lia.
    + destruct (setup_bc_face_ok bid fc a st Hb) as (st1 & -> & L1 & L2 & Ea & Fr);
        try lia.
      { apply H0. lia. }
      assert (P3 : forall j, (S a <= j < S a + k)%nat -> nth j (snd st1) 0 = 0).
      { intros j Hj. rewrite (proj2 (Fr j ltac:(lia))). apply H0. lia. }
      assert (P1 : (S a + k <= length (fst st1))%nat) by lia.
      assert (P2 : (S a + k <= length (snd st1))%nat) by lia.
      specialize (IH (S a) st1 P1 P2 P3).
      destruct (setup_bc_loop bid fc (seq (S a) k) st1) as [st'|e].
      * destruct IH as (L1' & L2' & In' & Out').
        split; [exact (eq_trans L1' L1)|]. split; [exact (eq_trans L2' L2)|]. split.
        -- intros j Hj. destruct (Nat.eq_dec j a) as [->|Hne].
           ++ split; [exact Hb|].
              destruct (Out' a ltac:(lia)) as [O1 O2]. rewrite O1, O2. exact Ea.
           ++ apply In'. lia.
        -- intros j Hj. destruct (Out' j ltac:(lia)) as [O1 O2].
           rewrite O1, O2. apply Fr. lia.
      * destruct IH as (R & B & F).
        split; [lia|]. split; [exact B|].
        intros j Hj. destruct (Nat.eq_dec j a) as [->|Hne]; [exact Hb|].
        apply F. lia.
Qed.

(** X2: the loop of [setup] over the faces throws at the first face, in
    the order of the loop, that lies on the boundary (boundary id not 0) and
    whose condition is neither a pressure condition nor a flux condition
    with outflux equal to 0.0; it completes exactly when no face below
    [num_faces] is such a face. *)
Theorem setup_bc_refusal (boundaryId : nat -> nat) (flowCond : nat -> FlowBC)
    (num_faces : nat) :
  match setup_bc boundaryId flowCond num_faces with
  | inl _ =>
      forall face, (face < num_faces)%nat ->
                   bad_boundary_face boundaryId flowCond face = false
  | inr e =>
      (error_face e < num_faces)%nat
      /\ error_cause boundaryId flowCond e
      /\ forall face, (face < error_face e)%nat ->
                      bad_boundary_face boundaryId flowCond face = false
  end.
Proof.
  unfold setup_bc.
  pose proof (setup_bc_loop_spec boundaryId flowCond num_faces O
                (repeat FBC_UNSET num_faces, repeat 0 num_faces)) as H.
  simpl in H. rewrite !repeat_length in H.
  specialize (H (Nat.le_refl _) (Nat.le_refl _)).
  assert (Z : forall j, (0 <= j < num_faces)%nat -> nth j (repeat 0 num_faces) 0 = 0).
  { intros j Hj. apply nth_repeat_lt. lia. }
  specialize (H Z).
  destruct (setup_bc_loop boundaryId flowCond (seq 0 num_faces) _) as [st'|e].
  - destruct H as (_ & _ & In' & _). intros face Hf. apply In'. lia.
  - destruct H as (R & C & F). split; [lia|]. split; [exact C|].
    intros face Hf. apply F. lia.
Qed.

(** X3: when the loop of [setup] completes, [bctypes_] and [bcvalues_]
    have one entry per face: (unset, 0.0) for a face off the boundary,
    (pressure, the pressure of the condition) for a Dirichlet face and
    (flux, the outflux of the condition) for any other boundary face, whose
    condition is then a Neumann one; and every flux entry has the value
    zero. *)
Theorem setup_bc_arrays (boundaryId : nat -> nat) (flowCond : nat -> FlowBC)
    (num_faces : nat) (bctypes : list FlowBCTypes) (bcvalues : list double) :
  setup_bc boundaryId flowCond num_faces = inl (bctypes, bcvalues) ->
  length bctypes = num_faces /\ length bcvalues = num_faces
  /\ forall face, (face < num_faces)%nat ->
       let bc := flowCond (boundaryId face) in
       (boundaryId face = O ->
        nth face bctypes FBC_UNSET = FBC_UNSET /\ nth face bcvalues 0 = 0)
       /\ (boundaryId face <> O -> isDirichlet bc = true ->
           nth face bctypes FBC_UNSET = FBC_PRESSURE
           /\ nth face bcvalues 0 = pressure bc)
       /\ (boundaryId face <> O -> isDirichlet bc = false ->
           isNeumann bc = true
           /\ nth face bctypes FBC_UNSET = FBC_FLUX
           /\ nth face bcvalues 0 = outflux bc)
       /\ (nth face bctypes FBC_UNSET = FBC_FLUX ->
           (nth face bcvalues 0 =? 0) = true).
Proof.
  unfold setup_bc. intros Hs.
  pose proof (setup_bc_loop_spec boundaryId flowCond num_faces O
                (repeat FBC_UNSET num_faces, repeat 0 num_faces)) as H.
  simpl in H. rewrite !repeat_length in H.
  specialize (H (Nat.le_refl _) (Nat.le_refl _)).
  assert (Z : forall j, (0 <= j < num_faces)%nat -> nth j (repeat 0 num_faces) 0 = 0).
  { intros j Hj. apply nth_repeat_lt. lia. }
  specialize (H Z). rewrite Hs in H. simpl in H.
  destruct H as (L1 & L2 & In' & _).
  split; [exact L1|]. split; [exact L2|].
  intros face Hf. set (bc := flowCond (boundaryId face)).
  destruct (In' face ltac:(lia)) as [Hb He].
  unfold face_entry in He. unfold bad_boundary_face in Hb. fold bc in He, Hb.
  destruct (boundaryId face) as [|b] eqn:Hbid.
  - injection He as E1 E2.
    repeat split; intros; try congruence; try exact E2.
  - destruct (isDirichlet bc) eqn:Hd.
    + injection He as E1 E2.
      repeat split; intros; try congruence; try exact E2.
    + injection He as E1 E2. simpl in Hb.
      destruct (isNeumann bc) eqn:Hn; [|discriminate Hb]. simpl in Hb.
      apply negb_false_iff in Hb.
      repeat split; intros; try congruence; try exact E2.
Qed.

Lemma setup_bc_arrays_witness :
  length [FBC_UNSET; FBC_PRESSURE; FBC_FLUX] = 3%nat
  /\ length [0; 7; 0] = 3%nat.
Proof.
  pose proof (setup_bc_arrays (fun face => face) (fun bid => if Nat.eqb bid 1 then dirichlet 7 else neumann 0)
                3 [FBC_UNSET; FBC_PRESSURE; FBC_FLUX] [0; 7; 0] eq_refl) as H.
  split; [exact (proj1 H)|exact (proj1 (proj2 H))].
Defined.

(** ** [setup]: the perforations *)

Lemma setup_perf_wells_perforations (E : Env) :
  setup_perf_wells E = map fst (perforations (env_wells E)).
Proof.
  unfold setup_perf_wells, perforations.
  induction (seq 0 (numWells (env_wells E))) as [|w l IH]; simpl; [reflexivity|].
  rewrite map_app, map_fst_pair, length_seq, IH. reflexivity.
Qed.

Lemma setup_perf_cells_perforations (E : Env) :
  setup_perf_cells E
  = map (fun wp => wellCell (env_wells E) (fst wp) (snd wp))
        (perforations (env_wells E)).
Proof.
  unfold setup_perf_cells, perforations.
  induction (seq 0 (numWells (env_wells E))) as [|w l IH]; simpl; [reflexivity|].
  rewrite map_app, map_map, IH. reflexivity.
Qed.

Lemma in_perforations wells well perf :
  In (well, perf) (perforations wells)
  <-> (well < numWells wells)%nat /\ (perf < numPerforations wells well)%nat.
Proof.
  unfold perforations. rewrite in_flat_map. split.
  - intros (w & Hw & Hin). apply in_map_iff in Hin.
    destruct Hin as (p & Heq & Hp). injection Heq as -> ->.
    apply in_seq in Hw. apply in_seq in Hp. lia.
  - intros [Hw Hp]. exists well. split; [apply in_seq; lia|].
    apply in_map. apply in_seq. lia.
Qed.

(** X4: [setup] lists the perforations well by well, in the order of
    their index within the well: [perf_wells_] holds the well of each,
    [perf_cells_] its cell and [perf_pressure_] the perforation pressure the
    wells give for that cell; a pair (well, index) is listed exactly when
    the well and the index are in range, so every entry of [perf_wells_] is
    a well number below [numWells]. *)
Theorem setup_perforation_arrays (E : Env) :
  let wells := env_wells E in
  setup_perf_wells E = map fst (perforations wells)
  /\ setup_perf_cells E
     = map (fun wp => wellCell wells (fst wp) (snd wp)) (perforations wells)
  /\ setup_perf_pressure E
     = map (fun wp => perforationPressure wells (wellCell wells (fst wp) (snd wp)))
           (perforations wells)
  /\ (forall well perf,
        In (well, perf) (perforations wells)
        <-> (well < numWells wells)%nat /\ (perf < numPerforations wells well)%nat)
  /\ Forall (fun well => (well < numWells wells)%nat) (setup_perf_wells E).
Proof.
  intros wells. split; [apply setup_perf_wells_perforations|].
  split; [apply setup_perf_cells_perforations|]. split; [|split].
  - unfold setup_perf_pressure. rewrite setup_perf_cells_perforations, map_map.
    reflexivity.
  - intros well perf. apply in_perforations.
  - rewrite setup_perf_wells_perforations. apply Forall_forall.
    intros w Hw. apply in_map_iff in Hw. destruct Hw as ([w' p] & <- & Hin).
    apply in_perforations in Hin. exact (proj1 Hin).
Qed.

(** ** [computeFluidProps]: the perforations *)

Lemma all_perf_props_perforations (E : Env) pp php A mob sat :
  all_perf_props E pp php A mob sat
  = fold_left (fun st wp => perf_props E pp php (fst wp) (snd wp) st)
              (perforations (env_wells E)) (A, mob, sat, O).
Proof.
  unfold all_perf_props, perforations, well_props.
  rewrite fold_left_flat_map.
  generalize (A, mob, sat, O).
  induction (seq 0 (numWells (env_wells E))) as [|w l IH]; intros st; simpl;
    [reflexivity|].
  rewrite fold_left_map. apply IH.
Qed.

Lemma perf_props_step (E : Env) pp php wp A mob sat c :
  perf_props E pp php (fst wp) (snd wp) (A, mob, sat, c)
  = (write_at (c * numPhases (env_fluid E) * numComponents (env_fluid E))
       (firstn (numComponents (env_fluid E) * numPhases (env_fluid E))
               (phase_to_comp_ (perf_state E pp php wp))) A,
     write_at (c * numPhases (env_fluid E)) (mobility_ (perf_state E pp php wp)) mob,
     upd c (fun _ => saturation_ (perf_state E pp php wp)) sat,
     S c).
Proof.
  unfold perf_props, perf_state.
  destruct (WellType_eqb (type (env_wells E) (fst wp)) Injector); reflexivity.
Qed.

Lemma perf_fold_spec (E : Env) pp php l : forall A mob sat c,
  let r := fold_left (fun st wp => perf_props E pp php (fst wp) (snd wp) st)
                     l (A, mob, sat, c) in
  snd r = (c + length l)%nat
  /\ length (fst (fst (fst r))) = length A
  /\ length (snd (fst (fst r))) = length mob
  /\ length (snd (fst r)) = length sat
  /\ forall k, (k < length sat)%nat ->
       nth k (snd (fst r)) []
       = if (c <=? k)%nat && (k <? c + length l)%nat
         then saturation_ (perf_state E pp php (nth (k - c) l (O, O)))
         else nth k sat [].
Proof.
  induction l as [|wp l IH]; intros A mob sat c; cbn [fold_left length].
  - simpl. repeat split; try lia. intros k Hk.
    destruct (c <=? k)%nat eqn:H1; simpl; [|reflexivity].
    replace (k <? c + 0)%nat with false; [reflexivity|].
    symmetry. apply Nat.ltb_ge. apply Nat.leb_le in H1. lia.
  - rewrite perf_props_step.
    specialize (IH (write_at (c * numPhases (env_fluid E) * numComponents (env_fluid E))
                      (firstn (numComponents (env_fluid E) * numPhases (env_fluid E))
                              (phase_to_comp_ (perf_state E pp php wp))) A)
                   (write_at (c * numPhases (env_fluid E))
                             (mobility_ (perf_state E pp php wp)) mob)
                   (upd c (fun _ => saturation_ (perf_state E pp php wp)) sat)
                   (S c)).
    cbn [fst snd] in IH. destruct IH as (Hc & HA & Hm & Hs & Hk).
    rewrite !length_write_at in *. rewrite length_upd in *.
    split; [lia|]. split; [exact HA|]. split; [exact Hm|]. split; [exact Hs|].
    intros k Hlt. rewrite (Hk k Hlt).
    destruct (Nat.leb_spec (S c) k), (Nat.ltb_spec k (S c + length l)),
      (Nat.leb_spec c k), (Nat.ltb_spec k (c + S (length l)));
      cbn [andb]; try lia.
    + replace (k - c)%nat with (S (k - S c)) by lia. reflexivity.
    + rewrite nth_upd_other by lia. reflexivity.
    + assert (k = c) as -> by lia.
      rewrite nth_upd_same by exact Hlt. rewrite Nat.sub_diag. reflexivity.
    + rewrite nth_upd_other by lia. reflexivity.
Qed.

Lemma computeFluidProps_perf_arrays (E : Env) (s : State E) :
  let r := all_perf_props E (perf_pressure_ s) (cell_pressure s)
                          (perf_A_ s) (perf_mob_ s) (perf_sat_ s) in
  perf_A_ (computeFluidProps E s) = fst (fst (fst r))
  /\ perf_mob_ (computeFluidProps E s) = snd (fst (fst r))
  /\ perf_sat_ (computeFluidProps E s) = snd (fst r).
Proof.
  unfold computeFluidProps.
  destruct (all_perf_props E _ _ _ _ _) as [[[A mob] sat] n].
  repeat split.
Qed.

(** X5: [computeFluidProps] keeps the sizes of [perf_A_], [perf_mob_] and
    [perf_sat_], and its running perforation count ends at the number of
    perforations [setup] listed. *)
Theorem computeFluidProps_perforation_count (E : Env) (s : State E) :
  length (perf_A_ (computeFluidProps E s)) = length (perf_A_ s)
  /\ length (perf_mob_ (computeFluidProps E s)) = length (perf_mob_ s)
  /\ length (perf_sat_ (computeFluidProps E s)) = length (perf_sat_ s)
  /\ snd (all_perf_props E (perf_pressure_ s) (cell_pressure s)
                         (perf_A_ s) (perf_mob_ s) (perf_sat_ s))
     = length (setup_perf_wells E).
Proof.
  destruct (computeFluidProps_perf_arrays E s) as (-> & -> & ->).
  rewrite all_perf_props_perforations.
  destruct (perf_fold_spec E (perf_pressure_ s) (cell_pressure s)
              (perforations (env_wells E))
              (perf_A_ s) (perf_mob_ s) (perf_sat_ s) O) as (Hc & HA & Hm & Hs & _).
  rewrite setup_perf_wells_perforations, length_map.
  repeat split; assumption.
Qed.

Lemma perforations_first_well wells k perf :
  nth_error (perforations wells) k = Some (O, perf) -> perf = k.
Proof.
  unfold perforations. destruct (numWells wells) as [|n]; simpl.
  - destruct k; discriminate.
  - intros H.
    destruct (Nat.lt_ge_cases k (length (map (pair O) (seq 0 (numPerforations wells O)))))
      as [Hlt|Hge].
    + rewrite nth_error_app1 in H by exact Hlt.
      rewrite length_map, length_seq in Hlt.
      rewrite nth_error_map, nth_error_seq in H.
      destruct (k <? numPerforations wells 0)%nat eqn:Hk.
      * simpl in H. injection H as <-. reflexivity.
      * apply Nat.ltb_ge in Hk. lia.
    + rewrite nth_error_app2 in H by exact Hge.
      apply nth_error_In in H. apply in_flat_map in H.
      destruct H as (w & Hw & Hin). apply in_map_iff in Hin.
      destruct Hin as (p & Heq & _). injection Heq as -> _.
      apply in_seq in Hw. lia.
Qed.

(** X6: after [computeFluidProps], the saturation stored for the [k]-th
    perforation, perforation [perf] of [well], is that of the fluid state of
    its cell (phase pressures and composition of the cell) when the well is
    a producer, and that of the fluid state at the pressure
    [perf_pressure_[perf]] -- indexed by the position within the well, which
    is [k] in well 0 -- with the injection mixture when it is an injector. *)
Theorem computeFluidProps_perforation_states (E : Env) (s : State E)
    (k well perf : nat) :
  nth_error (perforations (env_wells E)) k = Some (well, perf) ->
  (k < length (perf_sat_ s))%nat ->
  let cell := wellCell (env_wells E) well perf in
  let sat := nth k (perf_sat_ (computeFluidProps E s)) [] in
  (type (env_wells E) well = Producer ->
   sat = saturation_ (computeState (env_fluid E) (nth cell (cell_pressure s) [])
                                   (nth cell (env_cell_z E) [])))
  /\ (type (env_wells E) well = Injector ->
      sat = saturation_ (computeState (env_fluid E)
                           (repeat (at_ (perf_pressure_ s) perf)
                                   (numPhases (env_fluid E)))
                           (injectionMixture (env_wells E) cell)))
  /\ (well = O -> perf = k).
Proof.
  intros Hk Hlt cell sat.
  assert (Hsat : sat = saturation_ (perf_state E (perf_pressure_ s) (cell_pressure s)
                                               (well, perf))).
  { subst sat. destruct (computeFluidProps_perf_arrays E s) as (_ & _ & ->).
    rewrite all_perf_props_perforations.
    destruct (perf_fold_spec E (perf_pressure_ s) (cell_pressure s)
                (perforations (env_wells E))
                (perf_A_ s) (perf_mob_ s) (perf_sat_ s) O) as (_ & _ & _ & _ & Hn).
    rewrite (Hn k Hlt). simpl.
    assert (k < length (perforations (env_wells E)))%nat as Hlen
      by (apply nth_error_Some; rewrite Hk; discriminate).
    replace (k <? length (perforations (env_wells E)))%nat with true
      by (symmetry; apply Nat.ltb_lt; exact Hlen).
    rewrite Nat.sub_0_r. rewrite (nth_error_nth _ _ _ Hk). reflexivity. }
  rewrite Hsat. unfold perf_state. cbn [fst snd]. fold cell. split; [|split].
  - intros ->. reflexivity.
  - intros ->. reflexivity.
  - intros ->. exact (perforations_first_well _ _ _ Hk).
Qed.

Lemma computeFluidProps_perforation_states_witness :
  nth 0 (perf_sat_ (computeFluidProps Toy.two_injectors_env Toy.two_injectors_start)) []
  = [100; 100].
Proof.
  refine (proj1 (proj2 (computeFluidProps_perforation_states Toy.two_injectors_env
                          Toy.two_injectors_start 0 0 0 _ _)) _).
  - reflexivity.
  - vm_compute. lia.
  - reflexivity.
Defined.

(** ** [computeWellPotentials] *)

Lemma length_perf_potentials (E : Env) perf_A perf :
  length (perf_potentials E perf_A perf) = numPhases (env_fluid E).
Proof. unfold perf_potentials. rewrite length_map, length_seq. reflexivity. Qed.

(** X7: [computeWellPotentials] gives one gravity potential per
    perforation and phase; the entry of phase [phase] of perforation [perf]
    is the phase density at the perforation times the product of the third
    component of gravity and the depth of the cell below the reference depth
    of the well, and it is zero when that depth difference is zero and both
    the gravity component and the density are finite. *)
Theorem computeWellPotentials_entries (E : Env) (perf_A : list double)
    (perf phase : nat) :
  (perf < length (env_perf_cells E))%nat ->
  (phase < numPhases (env_fluid E))%nat ->
  let np := numPhases (env_fluid E) in
  let nc := numComponents (env_fluid E) in
  let well := nth perf (env_perf_wells E) O in
  let cell := nth perf (env_perf_cells E) O in
  let depth_delta := at_ (cellCentroid (env_grid E) cell) 2
                     - referenceDepth (env_wells E) well in
  let rho := phaseDensities (env_fluid E)
               (firstn (np * nc) (skipn (perf * np * nc) perf_A)) in
  let gpot := at_ (computeWellPotentials E perf_A) (np * perf + phase) in
  length (computeWellPotentials E perf_A) = (length (env_perf_cells E) * np)%nat
  /\ gpot = at_ rho phase * (at_ (env_gravity E) 2 * depth_delta)
  /\ (iszero depth_delta = true ->
      isfinite (at_ (env_gravity E) 2) = true ->
      isfinite (at_ rho phase) = true ->
      iszero gpot = true).
Proof.
  intros Hp Hph np nc well cell depth_delta rho gpot.
  assert (Hg : gpot = at_ rho phase * (at_ (env_gravity E) 2 * depth_delta)).
  { subst gpot. unfold at_ at 1, computeWellPotentials.
    rewrite (nth_flat_map_uniform (perf_potentials E perf_A) 0 np
               (length (env_perf_cells E)) (length_perf_potentials E perf_A)
               O perf phase Hp Hph).
    simpl. unfold perf_potentials.
    rewrite (nth_indep _ 0 ((fun ph => at_ rho ph * (at_ (env_gravity E) 2 * depth_delta)) O))
      by (rewrite length_map, length_seq; exact Hph).
    rewrite (map_nth (fun ph => at_ rho ph * (at_ (env_gravity E) 2 * depth_delta))).
    rewrite seq_nth by exact Hph. reflexivity. }
  split; [|split; [exact Hg|]].
  - unfold computeWellPotentials.
    rewrite (length_flat_map_uniform _ np) by apply length_perf_potentials.
    rewrite length_seq. reflexivity.
  - intros Hz Hgr Hrho. rewrite Hg.
    apply iszero_mul_finite; [exact Hrho|].
    apply iszero_mul_finite; assumption.
Qed.

Lemma computeWellPotentials_entries_witness :
  iszero (at_ (computeWellPotentials Toy.relaxed_env [1; 0; 0; 1]) (2 * 0 + 1)) = true.
Proof.
  refine (proj2 (proj2 (computeWellPotentials_entries Toy.relaxed_env [1; 0; 0; 1]
                          0 1 _ _)) _ _ _).
  - vm_compute. lia.
  - vm_compute. lia.
  - reflexivity.
  - reflexivity.
  - reflexivity.
Defined.

(** ** [computeResidualJacobian] and the update of the solution *)

(** X8: the update of the quasi-Newton path, [x = p - dp]: the entry of
    each cell below [num_cells] becomes the scalar cell pressure minus the
    entry, the entry of each well the bottomhole pressure minus the entry,
    the entries past the wells are kept, and so is the size of [x]. *)
Theorem newton_update_entries (E : Env) (num_cells : nat) (s : State E)
    (x : list double) :
  let x' := newton_update E num_cells s x in
  length x' = length x
  /\ (forall cell, (cell < num_cells)%nat -> (cell < length x)%nat ->
        at_ x' cell = at_ (cell_pressure_scalar s) cell - at_ x cell)
  /\ (forall well, (well < numWells (env_wells E))%nat ->
        (num_cells + well < length x)%nat ->
        at_ x' (num_cells + well) = at_ (well_bhp s) well - at_ x (num_cells + well))
  /\ (forall i, (num_cells + numWells (env_wells E) <= i)%nat -> at_ x' i = at_ x i).
Proof.
  intros x'. subst x'. unfold newton_update, at_.
  set (f1 := fun cell dp => nth cell (cell_pressure_scalar s) 0 - dp).
  set (f2 := fun well dp => nth well (well_bhp s) 0 - dp).
  set (x1 := fold_left (fun x cell => upd cell (fun dp => nth cell (cell_pressure_scalar s) 0 - dp) x)
                       (seq 0 num_cells) x).
  assert (L1 : length x1 = length x)
    by apply (length_fold_upd (fun j => j) f1).
  split; [|split; [|split]].
  - rewrite (length_fold_upd (fun j => (num_cells + j)%nat) f2). exact L1.
  - intros cell Hc Hl.
    rewrite (nth_fold_upd_out (fun j => (num_cells + j)%nat) f2)
      by (intros j Hj; lia).
    exact (nth_fold_upd_in f1 0 num_cells O cell x Hc Hl).
  - intros well Hw Hl.
    assert (Hl1 : (num_cells + well < length x1)%nat) by (rewrite L1; exact Hl).
    etransitivity;
      [exact (nth_fold_upd_in f2 0 (numWells (env_wells E)) num_cells well x1 Hw Hl1)|].
    unfold f2. f_equal.
    apply (nth_fold_upd_out (fun j => j) f1).
    intros j Hj. apply in_seq in Hj. lia.
  - intros i Hi.
    rewrite (nth_fold_upd_out (fun j => (num_cells + j)%nat) f2)
      by (intros j Hj; apply in_seq in Hj; lia).
    apply (nth_fold_upd_out (fun j => j) f1).
    intros j Hj. apply in_seq in Hj. lia.
Qed.

Section JacobianFacts.

Variable E : Env.
Variable fp : FluidData.
Variables ia ja : list nat.

Lemma jacobian_row_fold sa cell :
  jacobian_row E fp ia ja sa cell
  = fold_left (row_step E fp ja cell)
      (seq (nth cell ia O) (nth (S cell) ia O - nth cell ia O)) sa.
Proof. reflexivity. Qed.

Lemma length_row_fold cell l : forall sa,
  length (fold_left (row_step E fp ja cell) l sa) = length sa.
Proof.
  induction l as [|j l IH]; intros sa; simpl; [reflexivity|].
  rewrite IH. unfold row_step. destruct (Nat.eqb _ _); [apply length_upd|reflexivity].
Qed.

Lemma nth_row_fold_out cell i l :
  (In i l -> nth i ja O <> cell) ->
  forall sa, nth i (fold_left (row_step E fp ja cell) l sa) 0 = nth i sa 0.
Proof.
  induction l as [|j l IH]; intros H sa; simpl; [reflexivity|].
  rewrite IH by (intros Hin; apply H; right; exact Hin).
  unfold row_step. destruct (Nat.eqb_spec (nth j ja O) cell) as [Heq|Hne];
    [|reflexivity].
  apply nth_upd_other. intros ->. apply H; [left; reflexivity|exact Heq].
Qed.

Lemma nth_row_fold_in cell i l :
  NoDup l -> In i l -> nth i ja O = cell ->
  forall sa, (i < length sa)%nat ->
  nth i (fold_left (row_step E fp ja cell) l sa) 0 = diagonal_update E fp cell (nth i sa 0).
Proof.
  induction l as [|j l IH]; intros Hnd Hin Hja sa Hl; [contradiction|].
  apply NoDup_cons_iff in Hnd. destruct Hnd as [Hnotin Hnd']. simpl.
  destruct Hin as [->|Hin].
  - rewrite nth_row_fold_out by (intros Hin; contradiction).
    unfold row_step. rewrite Hja, Nat.eqb_refl. apply nth_upd_same. exact Hl.
  - assert (j <> i) by (intros ->; contradiction).
    rewrite IH; try assumption.
    + unfold row_step. destruct (Nat.eqb _ _); [|reflexivity].
      rewrite nth_upd_other by assumption. reflexivity.
    + unfold row_step. destruct (Nat.eqb _ _); [rewrite length_upd|]; exact Hl.
Qed.

Lemma length_jacobian_fold l : forall sa,
  length (fold_left (jacobian_row E fp ia ja) l sa) = length sa.
Proof.
  induction l as [|c l IH]; intros sa; simpl; [reflexivity|].
  rewrite IH, jacobian_row_fold. apply length_row_fold.
Qed.

Lemma nth_jacobian_fold_out i l :
  (forall cell, In cell l ->
     (nth cell ia O <= i < nth (S cell) ia O)%nat -> nth i ja O <> cell) ->
  forall sa, nth i (fold_left (jacobian_row E fp ia ja) l sa) 0 = nth i sa 0.
Proof.
  induction l as [|c l IH]; intros H sa; simpl; [reflexivity|].
  rewrite IH by (intros cell Hin; apply H; right; exact Hin).
  rewrite jacobian_row_fold. apply nth_row_fold_out.
  intros Hin. apply in_seq in Hin. apply H; [left; reflexivity|lia].
Qed.

Lemma nth_jacobian_fold_in i cell l :
  NoDup l -> In cell l -> nth i ja O = cell ->
  (nth cell ia O <= i < nth (S cell) ia O)%nat ->
  forall sa, (i < length sa)%nat ->
  nth i (fold_left (jacobian_row E fp ia ja) l sa) 0
  = diagonal_update E fp cell (nth i sa 0).
Proof.
  induction l as [|c l IH]; intros Hnd Hin Hja Hr sa Hl; [contradiction|].
  apply NoDup_cons_iff in Hnd. destruct Hnd as [Hnotin Hnd']. simpl.
  destruct Hin as [->|Hin].
  - rewrite nth_jacobian_fold_out
      by (intros c' Hc' _ Heq; apply Hnotin; rewrite <- Hja, Heq; exact Hc').
    rewrite jacobian_row_fold. apply nth_row_fold_in; try assumption.
    + apply seq_NoDup.
    + apply in_seq. lia.
  - assert (c <> nth i ja O) by (intros ->; rewrite Hja in Hnotin; contradiction).
    rewrite IH; try assumption.
    + rewrite jacobian_row_fold, nth_row_fold_out; [reflexivity|].
      intros _ Heq. apply H. symmetry. exact Heq.
    + rewrite jacobian_row_fold, length_row_fold. exact Hl.
Qed.

End JacobianFacts.

(** X9: [computeResidualJacobian] changes the assembled matrix in its
    values only, and there only on the diagonal: the size, the row starts,
    the column indices and the right-hand side are those of the assembled
    system; the entry at position [i] of the row of a cell whose column is
    that cell becomes [(a - totcompr*volume*porosity/dt) +
    expjacterm*volume*porosity/dt]; every position that is not such a
    diagonal position keeps its value. *)
Theorem computeResidualJacobian_matrix (E : Env) (s : State E)
    (cell_pressure_scalar_initial : list double) :
  let sys0 := linearSystem (env_psolver E)
                (assemble (env_psolver E)
                   (assemble_args E s cell_pressure_scalar_initial) (psolver_ s)) in
  let sys := snd (fst (computeResidualJacobian E s cell_pressure_scalar_initial)) in
  ls_n sys = ls_n sys0 /\ ls_nnz sys = ls_nnz sys0
  /\ ls_ia sys = ls_ia sys0 /\ ls_ja sys = ls_ja sys0 /\ ls_b sys = ls_b sys0
  /\ length (ls_sa sys) = length (ls_sa sys0)
  /\ (forall i cell,
        (cell < numCells (env_grid E))%nat ->
        nth i (ls_ja sys0) O = cell ->
        (nth cell (ls_ia sys0) O <= i < nth (S cell) (ls_ia sys0) O)%nat ->
        (i < length (ls_sa sys0))%nat ->
        at_ (ls_sa sys) i
        = (at_ (ls_sa sys0) i
           - at_ (totcompr (fp_ s)) cell * cellVolume (env_grid E) cell
             * porosity (env_rock E) cell / env_dt E)
          + at_ (expjacterm (fp_ s)) cell * cellVolume (env_grid E) cell
            * porosity (env_rock E) cell / env_dt E)
  /\ (forall i,
        (forall cell, (cell < numCells (env_grid E))%nat ->
           (nth cell (ls_ia sys0) O <= i < nth (S cell) (ls_ia sys0) O)%nat ->
           nth i (ls_ja sys0) O <> cell) ->
        at_ (ls_sa sys) i = at_ (ls_sa sys0) i).
Proof.
  intros sys0 sys. subst sys. unfold computeResidualJacobian. fold sys0. simpl.
  repeat (split; [reflexivity|]). split; [|split].
  - apply length_jacobian_fold.
  - intros i cell Hc Hja Hr Hl. unfold at_ at 1 2.
    apply (nth_jacobian_fold_in E (fp_ s) (ls_ia sys0) (ls_ja sys0) i cell);
      try assumption.
    + apply seq_NoDup.
    + apply in_seq. lia.
  - intros i H. unfold at_ at 1 2. apply nth_jacobian_fold_out.
    intros cell Hin. apply in_seq in Hin. apply H. lia.
Qed.


(** ** [volumeDiscrepancyAcceptable] and [solve] *)

Lemma first_iteration_zero (E : Env) (s : State E) rv :
  max_element (relvoldiscr (fp_ s)) = Some rv ->
  first_iteration E O s
  = if max_relative_voldiscr_ (env_cfg E) <? rv
    then Stop (Returned VolumeDiscrepancyTooLarge)
              (log [PrintVoldiscrTooLarge rv]
                 (set_first_iteration E (voldiscr (fp_ s)) (perf_gpot_ s) s))
    else Continue
           (set_first_iteration E
              (if 0 <? relax_time_voldiscr_ (env_cfg E)
               then map (fun v => std_min 1 (env_dt E / relax_time_voldiscr_ (env_cfg E)) * v)
                        (voldiscr (fp_ s))
               else voldiscr (fp_ s))
              (computeWellPotentials E (perf_A_ s)) s).
Proof. unfold first_iteration. intros ->. reflexivity. Qed.

Lemma iteration_not_rejecting (E : Env) csi iter (s s1 : State E) :
  first_iteration E iter (computeFluidProps E (snapshot E s)) = Continue s1 ->
  match iteration E csi iter s with
  | Stop o _ => o <> Returned VolumeDiscrepancyTooLarge
  | Continue _ => True
  end.
Proof.
  intros H1. unfold iteration. rewrite H1. simpl.
  pose proof (linearize_shape E iter csi s1) as H2.
  destruct (linearize E iter csi s1) as [s2|o2 s2]; simpl.
  - pose proof (convergence_test_shape E iter
                  (publish E (relaxation E iter (back_substitute E s2)))) as H3.
    destruct (convergence_test E iter _) as [s3|o3 s3]; [exact I|].
    destruct H3 as (evs & _ & H3). intros ->. exact H3.
  - destruct H2 as [-> _]. discriminate.
Qed.

Lemma main_loop_later_not_rejecting (E : Env) csi n iter (s : State E) :
  fst (main_loop E csi n (S iter) s) <> Returned VolumeDiscrepancyTooLarge.
Proof.
  destruct (main_loop_shape E csi n (S iter) s) as (evs & _ & _ & R).
  intros Ho. rewrite Ho in R. destruct R as [R _]. discriminate R.
Qed.

(** X11: [volumeDiscrepancyAcceptable] predicts the rejection of
    [solve]: called with the pressures and the fluid data [solve] starts
    from, and with at least one pass allowed, it answers [false] exactly
    when [solve] returns [VolumeDiscrepancyTooLarge]. *)
Theorem volumeDiscrepancyAcceptable_predicts_solve (E : Env) (m : Members E)
    (cp0 fp0 : list PhaseVec) (wpp0 wpf0 : list double) (s : State E)
    (verdict : bool) (rel_voldiscr : double) :
  fp_ s = m_fp E m -> cell_pressure s = cp0 -> face_pressure s = fp0 ->
  (0 < max_num_iter_ (env_cfg E))%Z ->
  fst (volumeDiscrepancyAcceptable E s) = Some (verdict, rel_voldiscr) ->
  (verdict = false
   <-> fst (solve E m cp0 fp0 wpp0 wpf0) = Returned VolumeDiscrepancyTooLarge).
Proof.
  intros Hfp Hcp Hfa Hn Hv.
  set (s0 := initial_state E m cp0 fp0 wpp0 wpf0).
  assert (Efp : fp_ (computeFluidProps E (snapshot E s0)) = fp_ (computeFluidProps E s)).
  { rewrite !fp_computeFluidProps. simpl. rewrite Hfp, Hcp, Hfa. reflexivity. }
  unfold volumeDiscrepancyAcceptable in Hv. rewrite <- Efp in Hv.
  destruct (max_element (relvoldiscr (fp_ (computeFluidProps E (snapshot E s0)))))
    as [rv|] eqn:Hmax; [|discriminate Hv].
  simpl in Hv. injection Hv as Hverdict Hrv. 
  unfold solve. fold s0.
  destruct (Z.to_nat (max_num_iter_ (env_cfg E))) as [|n] eqn:Hz; [lia|].
  simpl.
  pose proof (first_iteration_zero E _ rv Hmax) as H1.
  destruct (max_relative_voldiscr_ (env_cfg E) <? rv) eqn:Hgt; simpl in Hverdict.
  - split; [intros _|intros _; symmetry; exact Hverdict].
    unfold iteration. rewrite H1. reflexivity.
  - split; [intros Hf; rewrite Hf in Hverdict; discriminate Hverdict|].
    intros Ho. exfalso.
    pose proof (iteration_not_rejecting E
                  (cell_pressure_scalar_initial_of E cp0) O s0 _ H1) as HI.
    destruct (iteration E (cell_pressure_scalar_initial_of E cp0) O s0) as [s1|o1 s1].
    + exact (main_loop_later_not_rejecting E _ n O s1 Ho).
    + apply HI. exact Ho.
Qed.

Lemma volumeDiscrepancyAcceptable_predicts_solve_witness :
  fst (Toy.run 1 Injector 0.5 true [2; 3] 15 1 false 1)
  = Returned VolumeDiscrepancyTooLarge.
Proof.
  refine (proj1 (volumeDiscrepancyAcceptable_predicts_solve
       (Toy.env 1 Injector 0.5 true [2; 3] 15 1 false)
       (Toy.members (Toy.env 1 Injector 0.5 true [2; 3] 15 1 false) [1; 0] 1)
       [[1; 1]] [[1; 1]] [0] [0]
       (initial_state (Toy.env 1 Injector 0.5 true [2; 3] 15 1 false)
          (Toy.members (Toy.env 1 Injector 0.5 true [2; 3] 15 1 false) [1; 0] 1)
          [[1; 1]] [[1; 1]] [7] [0])
       false 0.5 _ _ _ _ _) eq_refl).
  - reflexivity.
  - reflexivity.
  - reflexivity.
  - reflexivity.
  - reflexivity.
Defined.

(** ** The calls of a pass and of a run *)

Lemma linearize_trace (E : Env) iter csi (s : State E) :
  exists w ok,
    forallb is_aux w = true
    /\ trace (state_of (linearize E iter csi s))
       = trace s ++ CallAssemble :: w ++ [CallLinearSolve ok]
    /\ match linearize E iter csi s with
       | Continue _ => ok = true
       | Stop o _ => ok = false /\ o = Thrown
       end.
Proof.
  unfold linearize. destruct (experimental_jacobian_ _).
  - destruct (computeResidualJacobian E s csi) as [[ps sys] res].
    destruct (env_linsolver E _ _ _ _ _ _ _) as [result x].
    exists (if output_residual_ (env_cfg E) then [WriteResidualFile iter res] else []).
    exists (converged result).
    split; [destruct (output_residual_ _); reflexivity|].
    destruct (converged result); simpl;
      destruct (output_residual_ _); simpl; rewrite <- ?app_assoc; simpl; auto.
  - destruct (env_linsolver E _ _ _ _ _ _ _) as [result x].
    exists [], (converged result). split; [reflexivity|].
    destruct (converged result); simpl; auto.
Qed.

Lemma convergence_test_trace (E : Env) iter (s : State E) :
  match convergence_test E iter s with
  | Continue s' =>
      exists h f p, forallb is_aux h = true
                    /\ trace s' = trace s ++ h ++ [PrintRow iter f p]
  | Stop (Returned SolveOk) s' =>
      exists h f p, forallb is_aux h = true
                    /\ trace s' = trace s ++ h
                                  ++ [PrintRow iter f p; PrintConverged (iter + 1)]
  | Stop Undefined s' => trace s' = trace s
  | Stop _ _ => False
  end.
Proof.
  unfold convergence_test.
  destruct (computeFluxPressChanges _ _ _ _ _ _) as [[f p]|]; [|reflexivity].
  destruct (_ || _); simpl.
  - exists (match iter with O => [PrintHeader] | S _ => [] end), f, p.
    split; [destruct iter; reflexivity|]. rewrite <- ?app_assoc. reflexivity.
  - exists (match iter with O => [PrintHeader] | S _ => [] end), f, p.
    split; [destruct iter; reflexivity|]. rewrite <- ?app_assoc. reflexivity.
Qed.

(** X12: a pass of the loop of [solve] that falls through to the next
    pass or returns [SolveOk] has called, in this order and each once: the
    fluid evaluation, the assembly, the linear solver (which converged) and
    the back-substitution, and has then printed one row of the table,
    followed by the convergence message when it returns; in between there
    is nothing but the residual file and the header of the table. *)
Theorem completed_pass_trace (E : Env) (csi : list double) (iter : nat)
    (s s' : State E) :
  iteration E csi iter s = Continue s'
  \/ iteration E csi iter s = Stop (Returned SolveOk) s' ->
  exists w h f p,
    forallb is_aux w = true /\ forallb is_aux h = true
    /\ trace s'
       = trace s
         ++ [CallFluidCompute; CallAssemble] ++ w
         ++ [CallLinearSolve true; CallComputePressuresAndFluxes] ++ h
         ++ PrintRow iter f p
            :: match iteration E csi iter s with
               | Continue _ => []
               | Stop _ _ => [PrintConverged (iter + 1)]
               end.
Proof.
  unfold iteration.
  pose proof (first_iteration_shape E iter (computeFluidProps E (snapshot E s))) as H1.
  rewrite trace_computeFluidProps, trace_snapshot in H1.
  destruct (first_iteration E iter _) as [s1|o1 s1]; simpl.
  2:{ destruct H1 as (evs & _ & H1). intros [H|H]; [discriminate H|].
      injection H as -> _. contradiction. }
  destruct (linearize_trace E iter csi s1) as (w & ok & Hw & H2 & H2').
  destruct (linearize E iter csi s1) as [s2|o2 s2]; simpl in *.
  2:{ destruct H2' as [_ ->]. intros [H|H]; discriminate H. }
  subst ok.
  pose proof (convergence_test_trace E iter
                (publish E (relaxation E iter (back_substitute E s2)))) as H3.
  rewrite trace_publish, trace_relaxation, trace_back_substitute in H3.
  destruct (convergence_test E iter _) as [s3|o3 s3].
  - intros [H|H]; [|discriminate H]. injection H as <-.
    destruct H3 as (h & f & p & Hh & H3). exists w, h, f, p.
    split; [exact Hw|]. split; [exact Hh|].
    rewrite H3, H2, H1. repeat (progress (rewrite <- ?app_assoc; simpl)). reflexivity.
  - intros [H|H]; [discriminate H|]. injection H as -> <-.
    destruct H3 as (h & f & p & Hh & H3). exists w, h, f, p.
    split; [exact Hw|]. split; [exact Hh|].
    rewrite H3, H2, H1. repeat (progress (rewrite <- ?app_assoc; simpl)). reflexivity.
Qed.

Lemma completed_pass_trace_witness :
  exists w h f p,
    forallb is_aux w = true /\ forallb is_aux h = true
    /\ trace Toy.relaxed_after_pass0
       = [CallFluidCompute; CallAssemble] ++ w
         ++ [CallLinearSolve true; CallComputePressuresAndFluxes] ++ h
         ++ [PrintRow 0 f p].
Proof.
  refine (completed_pass_trace Toy.relaxed_env [1] 0 Toy.relaxed_start
            Toy.relaxed_after_pass0 _).
  left. vm_compute. reflexivity.
Defined.

Lemma count_events_app kind a b :
  count_events kind (a ++ b) = (count_events kind a + count_events kind b)%nat.
Proof. unfold count_events. rewrite filter_app, length_app. reflexivity. Qed.

Lemma calls_are_app e1 e2 c1 a1 l1 b1 r1 c2 a2 l2 b2 r2 :
  calls_are e1 c1 a1 l1 b1 r1 -> calls_are e2 c2 a2 l2 b2 r2 ->
  calls_are (e1 ++ e2) (c1 + c2) (a1 + a2) (l1 + l2) (b1 + b2) (r1 + r2).
Proof.
  unfold calls_are. intros (C1 & A1 & L1 & B1 & R1) (C2 & A2 & L2 & B2 & R2).
  rewrite iterations_performed_app, !count_events_app. repeat split; congruence.
Qed.

Lemma calls_are_aux w : forallb is_aux w = true -> calls_are w 0 0 0 0 0.
Proof.
  unfold calls_are, iterations_performed, count_events.
  induction w as [|e w IH]; simpl; [repeat split|].
  intros H. apply andb_true_iff in H. destruct H as [He Hw].
  destruct (IH Hw) as (C & A & L & B & R).
  destruct e; simpl in *; try discriminate He; auto.
Qed.

Lemma calls_are_nil : calls_are [] 0 0 0 0 0.
Proof. repeat split. Qed.

Lemma linearize_calls (E : Env) iter csi (s : State E) :
  exists evs,
    trace (state_of (linearize E iter csi s)) = trace s ++ evs
    /\ calls_are evs 0 1 1 0 0
    /\ match linearize E iter csi s with
       | Continue _ => True
       | Stop o _ => o = Thrown
       end.
Proof.
  destruct (linearize_trace E iter csi s) as (w & ok & Hw & H & Ho).
  exists (CallAssemble :: w ++ [CallLinearSolve ok]). split; [exact H|]. split.
  - change (CallAssemble :: w ++ [CallLinearSolve ok])
      with ([CallAssemble] ++ w ++ [CallLinearSolve ok]).
    apply (calls_are_app [CallAssemble] _ 0 1 0 0 0 0 0 1 0 0); [repeat split|].
    apply (calls_are_app w _ 0 0 0 0 0 0 0 1 0 0);
      [apply calls_are_aux, Hw|repeat split].
  - destruct (linearize E iter csi s); [exact I|exact (proj2 Ho)].
Qed.

Lemma convergence_test_calls (E : Env) iter (s : State E) :
  exists evs,
    trace (state_of (convergence_test E iter s)) = trace s ++ evs
    /\ match convergence_test E iter s with
       | Continue _ | Stop (Returned SolveOk) _ => calls_are evs 0 0 0 0 1
       | Stop Undefined _ => calls_are evs 0 0 0 0 0
       | Stop _ _ => False
       end.
Proof.
  pose proof (convergence_test_trace E iter s) as H.
  destruct (convergence_test E iter s) as [s'|[[| |]| |] s']; simpl;
    try contradiction.
  - destruct H as (h & f & p & Hh & H). eexists. split; [exact H|].
    apply (calls_are_app h _ 0 0 0 0 0 0 0 0 0 1);
      [apply calls_are_aux, Hh|repeat split].
  - destruct H as (h & f & p & Hh & H). eexists. split; [exact H|].
    apply (calls_are_app h _ 0 0 0 0 0 0 0 0 0 1);
      [apply calls_are_aux, Hh|repeat split].
  - exists []. rewrite app_nil_r. split; [exact H|apply calls_are_nil].
Qed.

Lemma iteration_calls (E : Env) csi iter (s : State E) :
  exists evs,
    trace (state_of (iteration E csi iter s)) = trace s ++ evs
    /\ pass_calls (ending (iteration E csi iter s)) evs.
Proof.
  unfold iteration.
  pose proof (first_iteration_shape E iter (computeFluidProps E (snapshot E s))) as H1.
  rewrite trace_computeFluidProps, trace_snapshot in H1.
  assert (F : calls_are [CallFluidCompute] 1 0 0 0 0) by (repeat split).
  destruct (first_iteration E iter _) as [s1|o1 s1]; simpl.
  - destruct (linearize_calls E iter csi s1) as (e2 & H2 & C2 & O2).
    destruct (linearize E iter csi s1) as [s2|o2 s2]; simpl in *.
    + destruct (convergence_test_calls E iter
                  (publish E (relaxation E iter (back_substitute E s2))))
        as (e3 & H3 & C3).
      rewrite trace_publish, trace_relaxation, trace_back_substitute in H3.
      assert (B : calls_are [CallComputePressuresAndFluxes] 0 0 0 1 0)
        by (repeat split).
      exists ([CallFluidCompute] ++ e2 ++ [CallComputePressuresAndFluxes] ++ e3).
      split; [rewrite H3, H2, H1; rewrite <- !app_assoc; reflexivity|].
      destruct (convergence_test E iter _) as [s3|[[| |]| |] s3]; simpl in *;
        try contradiction.
      * exact (calls_are_app _ _ _ _ _ _ _ _ _ _ _ _ F
                 (calls_are_app _ _ _ _ _ _ _ _ _ _ _ _ C2
                    (calls_are_app _ _ _ _ _ _ _ _ _ _ _ _ B C3))).
      * exact (calls_are_app _ _ _ _ _ _ _ _ _ _ _ _ F
                 (calls_are_app _ _ _ _ _ _ _ _ _ _ _ _ C2
                    (calls_are_app _ _ _ _ _ _ _ _ _ _ _ _ B C3))).
      * right.
        exact (calls_are_app _ _ _ _ _ _ _ _ _ _ _ _ F
                 (calls_are_app _ _ _ _ _ _ _ _ _ _ _ _ C2
                    (calls_are_app _ _ _ _ _ _ _ _ _ _ _ _ B C3))).
    + subst o2. exists ([CallFluidCompute] ++ e2).
      split; [rewrite H2, H1; rewrite <- !app_assoc; reflexivity|].
      exact (calls_are_app _ _ _ _ _ _ _ _ _ _ _ _ F C2).
  - destruct H1 as (e1 & H1 & S1).
    exists ([CallFluidCompute] ++ e1).
    split; [rewrite H1; rewrite <- !app_assoc; reflexivity|].
    destruct o1 as [[| |]| |]; simpl; try contradiction.
    + destruct S1 as (_ & r & ->). repeat split.
    + subst e1. left. repeat split.
Qed.

Lemma main_loop_calls (E : Env) csi n : forall iter (s : State E),
  exists evs,
    trace (snd (main_loop E csi n iter s)) = trace s ++ evs
    /\ run_calls (fst (main_loop E csi n iter s)) evs.
Proof.
  induction n as [|n IH]; intros iter s; simpl.
  - exists []. rewrite app_nil_r. split; [reflexivity|]. exists O. repeat split.
  - destruct (iteration_calls E csi iter s) as (e1 & H1 & C1).
    destruct (iteration E csi iter s) as [s1|o1 s1]; simpl in *.
    + destruct (IH (S iter) s1) as (e2 & H2 & k & C2).
      exists (e1 ++ e2). split; [rewrite H2, H1, app_assoc; reflexivity|].
      exists (S k).
      destruct (fst (main_loop E csi n (S iter) s1)) as [[| |]| |].
      * exact (calls_are_app _ _ _ _ _ _ _ _ _ _ _ _ C1 C2).
      * exact (calls_are_app _ _ _ _ _ _ _ _ _ _ _ _ C1 C2).
      * exact (calls_are_app _ _ _ _ _ _ _ _ _ _ _ _ C1 C2).
      * exact (calls_are_app _ _ _ _ _ _ _ _ _ _ _ _ C1 C2).
      * destruct C2 as [C2|C2]; [left|right];
          exact (calls_are_app _ _ _ _ _ _ _ _ _ _ _ _ C1 C2).
    + exists e1. split; [exact H1|]. exists O.
      destruct o1 as [[| |]| |]; simpl in *; try contradiction; exact C1.
Qed.

Ltac finish_calls :=
  repeat match goal with
         | |- _ /\ _ => split
         | |- _ -> _ => intro
         end;
  repeat match goal with
         | H : _ \/ _ |- _ => destruct H
         end;
  try discriminate; try reflexivity; try lia.

(** X13: in every run of [solve] the linear solver is called once per
    assembly, there are no more assemblies than passes, no more
    back-substitutions than assemblies and no more rows than
    back-substitutions.  A run that returns [SolveOk] or [FailedToConverge]
    has assembled, solved, back-substituted and printed a row once in every
    pass; a run that throws has assembled in every pass and back-substituted
    in all but the last; a run that returns [VolumeDiscrepancyTooLarge] has
    assembled nothing. *)
Theorem solve_calls_per_pass (E : Env) (m : Members E)
    (cp0 fp0 : list PhaseVec) (wpp0 wpf0 : list double) :
  let r := solve E m cp0 fp0 wpp0 wpf0 in
  let passes := iterations_performed (trace (snd r)) in
  let assemblies := count_events is_assemble (trace (snd r)) in
  let solves := count_events is_linear_solve (trace (snd r)) in
  let substitutions := count_events is_back_substitution (trace (snd r)) in
  let rows := count_events is_row (trace (snd r)) in
  solves = assemblies /\ (assemblies <= passes)%nat
  /\ (substitutions <= assemblies)%nat /\ (rows <= substitutions)%nat
  /\ (fst r = Returned SolveOk \/ fst r = Returned FailedToConverge ->
      assemblies = passes /\ substitutions = passes /\ rows = passes)
  /\ (fst r = Thrown ->
      assemblies = passes /\ S substitutions = passes /\ rows = substitutions)
  /\ (fst r = Returned VolumeDiscrepancyTooLarge -> assemblies = O).
Proof.
  intros r passes assemblies solves substitutions rows.
  destruct (main_loop_calls E (cell_pressure_scalar_initial_of E cp0)
              (Z.to_nat (max_num_iter_ (env_cfg E))) O
              (initial_state E m cp0 fp0 wpp0 wpf0)) as (evs & T & k & R).
  simpl in T. fold (solve E m cp0 fp0 wpp0 wpf0) in T, R. fold r in T, R.
  pose proof (solve_shape E m cp0 fp0 wpp0 wpf0) as [_ S]. fold r in S.
  subst passes assemblies solves substitutions rows.
  unfold calls_are in R.
  destruct (fst r) as [[| |]| |].
  - rewrite T. destruct R as (-> & -> & -> & -> & ->). finish_calls.
  - destruct S as (_ & rv & ->). unfold count_events, iterations_performed. simpl.
    finish_calls.
  - rewrite T. destruct R as (-> & -> & -> & -> & ->). finish_calls.
  - rewrite T. destruct R as (-> & -> & -> & -> & ->). finish_calls.
  - rewrite T. destruct R as [R|R]; destruct R as (-> & -> & -> & -> & ->);
      finish_calls.
Qed.

(** ** What the loop computes once, and what it publishes *)

Lemma computeFluidProps_first_pass_data (E : Env) (s : State E) :
  first_pass_data (computeFluidProps E s) = first_pass_data s.
Proof.
  unfold computeFluidProps.
  destruct (all_perf_props E _ _ _ _ _) as [[[A mob] sat] n]. reflexivity.
Qed.

Lemma linearize_first_pass_data (E : Env) iter csi (s : State E) :
  first_pass_data (state_of (linearize E iter csi s)) = first_pass_data s.
Proof.
  unfold linearize. destruct (experimental_jacobian_ _).
  - destruct (computeResidualJacobian E s csi) as [[ps sys] res].
    destruct (env_linsolver E _ _ _ _ _ _ _) as [result x].
    destruct (negb (converged result)); destruct (output_residual_ _); reflexivity.
  - destruct (env_linsolver E _ _ _ _ _ _ _) as [result x].
    destruct (negb (converged result)); reflexivity.
Qed.

Lemma relaxation_first_pass_data (E : Env) iter (s : State E) :
  first_pass_data (relaxation E iter s) = first_pass_data s.
Proof. unfold relaxation. destruct (negb _); reflexivity. Qed.

Lemma convergence_test_first_pass_data (E : Env) iter (s : State E) :
  first_pass_data (state_of (convergence_test E iter s)) = first_pass_data s.
Proof.
  unfold convergence_test.
  destruct (computeFluxPressChanges _ _ _ _ _ _) as [[f p]|]; [|reflexivity].
  destruct (_ || _); reflexivity.
Qed.

Lemma rest_of_pass_first_pass_data (E : Env) csi iter (s1 : State E) :
  first_pass_data
    (state_of (bind (linearize E iter csi s1) (fun s =>
               convergence_test E iter
                 (publish E (relaxation E iter (back_substitute E s))))))
  = first_pass_data s1.
Proof.
  pose proof (linearize_first_pass_data E iter csi s1) as H2.
  destruct (linearize E iter csi s1) as [s2|o2 s2]; simpl in *; [|exact H2].
  rewrite convergence_test_first_pass_data.
  change (first_pass_data (publish E (relaxation E iter (back_substitute E s2))))
    with (first_pass_data (relaxation E iter (back_substitute E s2))).
  rewrite relaxation_first_pass_data. exact H2.
Qed.

Lemma iteration_later_first_pass_data (E : Env) csi iter (s : State E) :
  first_pass_data (state_of (iteration E csi (S iter) s)) = first_pass_data s.
Proof.
  unfold iteration. simpl first_iteration. cbn [bind].
  rewrite rest_of_pass_first_pass_data.
  rewrite computeFluidProps_first_pass_data. reflexivity.
Qed.

Lemma main_loop_later_first_pass_data (E : Env) csi n : forall iter (s : State E),
  first_pass_data (snd (main_loop E csi n (S iter) s)) = first_pass_data s.
Proof.
  induction n as [|n IH]; intros iter s; simpl; [reflexivity|].
  pose proof (iteration_later_first_pass_data E csi iter s) as H.
  destruct (iteration E csi (S iter) s) as [s1|o1 s1]; simpl in *.
  - rewrite IH. exact H.
  - exact H.
Qed.

(** X14: the gravity potentials of the perforations and the initial
    volume discrepancy are computed in the first pass only: when at least
    one pass is allowed and the first pass is not rejected, then however the
    run ends, [perf_gpot_] is [computeWellPotentials] of the perforation
    data of the first fluid evaluation, and the initial volume discrepancy
    is the volume discrepancy of that evaluation, scaled by
    [min(1, dt/relax_time_voldiscr_)] when the relaxation time is
    positive. *)
Theorem first_pass_data_computed_once (E : Env) (m : Members E)
    (cp0 fp0 : list PhaseVec) (wpp0 wpf0 : list double) (rel_voldiscr : double) :
  let s1 := computeFluidProps E (snapshot E (initial_state E m cp0 fp0 wpp0 wpf0)) in
  let final := snd (solve E m cp0 fp0 wpp0 wpf0) in
  (0 < max_num_iter_ (env_cfg E))%Z ->
  max_element (relvoldiscr (fp_ s1)) = Some rel_voldiscr ->
  (max_relative_voldiscr_ (env_cfg E) <? rel_voldiscr) = false ->
  perf_gpot_ final = computeWellPotentials E (perf_A_ s1)
  /\ initial_voldiscr final
     = if 0 <? relax_time_voldiscr_ (env_cfg E)
       then map (fun v => std_min 1 (env_dt E / relax_time_voldiscr_ (env_cfg E)) * v)
                (voldiscr (fp_ s1))
       else voldiscr (fp_ s1).
Proof.
  intros s1 final Hn Hmax Hle. subst final. unfold solve.
  destruct (Z.to_nat (max_num_iter_ (env_cfg E))) as [|n] eqn:Hz; [lia|].
  simpl.
  set (csi := cell_pressure_scalar_initial_of E cp0).
  set (s0 := initial_state E m cp0 fp0 wpp0 wpf0).
  assert (H1 : first_iteration E O s1
               = Continue (set_first_iteration E
                   (if 0 <? relax_time_voldiscr_ (env_cfg E)
                    then map (fun v => std_min 1 (env_dt E / relax_time_voldiscr_ (env_cfg E)) * v)
                             (voldiscr (fp_ s1))
                    else voldiscr (fp_ s1))
                   (computeWellPotentials E (perf_A_ s1)) s1)).
  { unfold first_iteration. rewrite Hmax, Hle. reflexivity. }
  assert (P : first_pass_data (state_of (iteration E csi O s0))
              = (computeWellPotentials E (perf_A_ s1),
                 if 0 <? relax_time_voldiscr_ (env_cfg E)
                 then map (fun v => std_min 1 (env_dt E / relax_time_voldiscr_ (env_cfg E)) * v)
                          (voldiscr (fp_ s1))
                 else voldiscr (fp_ s1))).
  { unfold iteration.
    change (computeFluidProps E (snapshot E s0)) with s1.
    rewrite H1. cbn [bind].
    rewrite rest_of_pass_first_pass_data. reflexivity. }
  destruct (iteration E csi O s0) as [s'|o' s']; simpl in *.
  - pose proof (main_loop_later_first_pass_data E csi n O s') as Q.
    unfold first_pass_data in P, Q. injection Q as Q1 Q2. injection P as P1 P2.
    split; [exact (eq_trans Q1 P1) | exact (eq_trans Q2 P2)].
  - unfold first_pass_data in P. injection P as P1 P2. split; assumption.
Qed.

Lemma first_pass_data_computed_once_witness :
  perf_gpot_ (snd (Toy.run 1 Injector 0 true [2; 3] 3 0.5 false 1)) = [0; 0]
  /\ initial_voldiscr (snd (Toy.run 1 Injector 0 true [2; 3] 3 0.5 false 1)) = [0].
Proof.
  refine (first_pass_data_computed_once
       (Toy.env 1 Injector 0 true [2; 3] 3 0.5 false)
       (Toy.members (Toy.env 1 Injector 0 true [2; 3] 3 0.5 false) [1; 0] 1)
       [[1; 1]] [[1; 1]] [0] [0] 0 _ _ _).
  - reflexivity.
  - reflexivity.
  - reflexivity.
Defined.

Lemma published_pressures (E : Env) (s s' : State E) :
  pressures s' = pressures s -> published s -> published s'.
Proof.
  unfold pressures, published. intros H.
  injection H as -> -> -> -> -> ->. exact (fun P => P).
Qed.

Lemma to_phase_pressures_at (E : Env) n scalar phase i :
  (i < n)%nat -> (i < length phase)%nat ->
  nth i (to_phase_pressures E n scalar phase) []
  = repeat (at_ scalar i) (numPhases (env_fluid E)).
Proof.
  intros Hn Hl. unfold to_phase_pressures.
  exact (nth_fold_upd_in
           (fun i _ => repeat (at_ scalar i) (numPhases (env_fluid E)))
           [] n O i phase Hn Hl).
Qed.

Lemma length_to_phase_pressures (E : Env) n scalar phase :
  length (to_phase_pressures E n scalar phase) = length phase.
Proof.
  unfold to_phase_pressures.
  exact (length_fold_upd (fun i => i)
           (fun i _ => repeat (at_ scalar i) (numPhases (env_fluid E)))
           (seq 0 n) phase).
Qed.

Lemma publish_published (E : Env) (s : State E) : published (publish E s).
Proof.
  unfold published. simpl. split; [reflexivity|]. split.
  - intros cell Hc Hl. rewrite length_to_phase_pressures in Hl.
    apply to_phase_pressures_at; assumption.
  - intros face Hf Hl. rewrite length_to_phase_pressures in Hl.
    apply to_phase_pressures_at; assumption.
Qed.

Lemma convergence_test_pressures (E : Env) iter (s : State E) :
  pressures (state_of (convergence_test E iter s)) = pressures s.
Proof.
  unfold convergence_test.
  destruct (computeFluxPressChanges _ _ _ _ _ _) as [[f p]|]; [|reflexivity].
  destruct (_ || _); reflexivity.
Qed.

Lemma iteration_published (E : Env) csi iter (s s' : State E) :
  iteration E csi iter s = Continue s'
  \/ iteration E csi iter s = Stop (Returned SolveOk) s' ->
  published s'.
Proof.
  unfold iteration.
  destruct (first_iteration E iter (computeFluidProps E (snapshot E s)))
    as [s1|o1 s1] eqn:H1; cbn [bind].
  2:{ intros [H|H]; [discriminate H|]. injection H as Ho _. subst o1.
      destruct iter; simpl in H1; [|discriminate H1].
      destruct (max_element _); [|discriminate H1].
      destruct (_ <? _); discriminate H1. }
  destruct (linearize E iter csi s1) as [s2|o2 s2] eqn:H2; cbn [bind].
  2:{ intros [H|H]; [discriminate H|]. injection H as Ho _.
      pose proof (linearize_shape E iter csi s1) as L. rewrite H2 in L.
      destruct L as [L _]. rewrite L in Ho. discriminate Ho. }
  pose proof (convergence_test_pressures E iter
                (publish E (relaxation E iter (back_substitute E s2)))) as P.
  intros H.
  assert (S' : state_of (convergence_test E iter
                 (publish E (relaxation E iter (back_substitute E s2)))) = s').
  { destruct H as [H|H]; rewrite H; reflexivity. }
  rewrite S' in P.
  exact (published_pressures E _ _ P (publish_published E _)).
Qed.

Lemma main_loop_published (E : Env) csi n : forall iter (s : State E),
  (fst (main_loop E csi n iter s) = Returned SolveOk ->
   published (snd (main_loop E csi n iter s)))
  /\ (fst (main_loop E csi n iter s) = Returned FailedToConverge ->
      published s -> published (snd (main_loop E csi n iter s))).
Proof.
  induction n as [|n IH]; intros iter s; simpl.
  - split; [intros H; discriminate H|intros _ P; exact P].
  - pose proof (iteration_published E csi iter s) as HI.
    destruct (iteration E csi iter s) as [s1|o1 s1] eqn:H1; simpl.
    + destruct (IH (S iter) s1) as [A B]. split; [exact A|].
      intros Ho _. apply B; [exact Ho|]. apply HI. left. reflexivity.
    + split.
      * intros Ho. apply HI. right. rewrite Ho. reflexivity.
      * intros Ho _. exfalso.
        pose proof (iteration_shape E csi iter s) as Sh. rewrite H1 in Sh.
        destruct Sh as (evs & _ & Sh). rewrite Ho in Sh. exact Sh.
Qed.

(** X15: when [solve] returns [SolveOk], or [FailedToConverge] after at
    least one pass, the state it hands back is the one its last pass
    published: the member [perf_pressure_] equals the perforation pressures
    given to the caller, and every phase pressure of a cell below the
    number of cells, and of a face below the number of faces, is the scalar
    pressure of that cell or face. *)
Theorem solve_publishes (E : Env) (m : Members E)
    (cp0 fp0 : list PhaseVec) (wpp0 wpf0 : list double) :
  let r := solve E m cp0 fp0 wpp0 wpf0 in
  fst r = Returned SolveOk
  \/ (fst r = Returned FailedToConverge /\ (0 < max_num_iter_ (env_cfg E))%Z) ->
  perf_pressure_ (snd r) = well_perf_pressures (snd r)
  /\ (forall cell, (cell < length (env_cell_z E))%nat ->
        (cell < length (cell_pressure (snd r)))%nat ->
        nth cell (cell_pressure (snd r)) []
        = repeat (at_ (cell_pressure_scalar (snd r)) cell) (numPhases (env_fluid E)))
  /\ (forall face, (face < numFaces (env_grid E))%nat ->
        (face < length (face_pressure (snd r)))%nat ->
        nth face (face_pressure (snd r)) []
        = repeat (at_ (face_pressure_scalar (snd r)) face) (numPhases (env_fluid E))).
Proof.
  intros r H. subst r. change (published (snd (solve E m cp0 fp0 wpp0 wpf0))).
  unfold solve in *.
  set (csi := cell_pressure_scalar_initial_of E cp0) in *.
  set (s0 := initial_state E m cp0 fp0 wpp0 wpf0) in *.
  destruct H as [H|[H Hn]].
  - exact (proj1 (main_loop_published E csi _ O s0) H).
  - destruct (Z.to_nat (max_num_iter_ (env_cfg E))) as [|n] eqn:Hz; [lia|].
    simpl in *.
    pose proof (iteration_published E csi O s0) as HI.
    destruct (iteration E csi O s0) as [s1|o1 s1] eqn:H1; simpl in *.
    + apply (proj2 (main_loop_published E csi n 1 s1) H).
      apply HI. left. reflexivity.
    + exfalso. pose proof (iteration_shape E csi O s0) as Sh. rewrite H1 in Sh.
      destruct Sh as (evs & _ & Sh). rewrite H in Sh. exact Sh.
Qed.

Lemma solve_publishes_witness :
  perf_pressure_ (snd (Toy.run 1 Injector 0 true [2; 3] 15 1 false 1))
  = well_perf_pressures (snd (Toy.run 1 Injector 0 true [2; 3] 15 1 false 1))
  /\ nth 0 (cell_pressure (snd (Toy.run 1 Injector 0 true [2; 3] 15 1 false 1))) []
     = [2; 2].
Proof.
  pose proof (solve_publishes
       (Toy.env 1 Injector 0 true [2; 3] 15 1 false)
       (Toy.members (Toy.env 1 Injector 0 true [2; 3] 15 1 false) [1; 0] 1)
       [[1; 1]] [[1; 1]] [0] [0] (or_introl eq_refl)) as (P & C & _).
  split; [exact P|].
  exact (C O (Nat.lt_0_succ 0) (Nat.lt_0_succ 0)).
Defined.
